(** * SampleSizeCalculator: the statistical core of [script.js]

    A shallow embedding of [normalInverse] and [calculateSampleSize] over
    binary64 numbers (Rocq's primitive floats carry exactly the IEEE 754
    double-precision arithmetic of a JavaScript Number), followed by the
    properties the specification states about them.

    Arithmetic ([+ - * /]), comparisons, [Math.sqrt] and [Math.abs] are the
    primitive operations.  [Math.ceil] is fully determined by ECMAScript and is
    written out below.  [Math.log] and [Math.pow] are left to the engine by
    ECMAScript ("implementation-approximated"), so the embedding takes them as
    parameters; the properties name the facts about them that they rely on. *)

From Stdlib Require Import ZArith Lia Bool String List Floats.
From Stdlib Require Uint63.
Import ListNotations.

Set Warnings "-inexact-float".

#[local] Open Scope string_scope.
#[local] Open Scope float_scope.

(** ** JavaScript numbers *)

Module Number.

(** [x >= y] and [x > y] as JavaScript evaluates them: the mirrored
    comparison, false as soon as one side is NaN. *)
Definition geb (x y : float) : bool := y <=? x.
Definition gtb (x y : float) : bool := y <? x.

(** The exact conversion of a non-negative integer below 2^63. *)
Definition of_Z (n : Z) : float := of_uint63 (Uint63.of_Z n).

(** [Math.ceil], after ECMAScript: NaN, the infinities and the zeros are
    returned unchanged; a number with a non-negative exponent is integral
    already; otherwise the magnitude [m * 2^e] is divided out, the quotient
    rounded towards plus infinity.  A negative argument above [-1] gives
    [-0], as the negation of [+0]. *)
Definition Math_ceil (x : float) : float :=
  match Prim2SF x with
  | S754_finite s m e =>
      if (0 <=? e)%Z then x
      else
        let d := (2 ^ (- e))%Z in
        if s then - of_Z (Zpos m / d)
        else of_Z ((Zpos m + d - 1) / d)
  | _ => x
  end.

Definition Math_abs (x : float) : float := abs x.
Definition Math_sqrt (x : float) : float := PrimFloat.sqrt x.

(** The same value, NaN included ([Object.is] up to the sign of zero being
    told apart). *)
Definition same_value (x y : float) : bool := Leibniz.eqb x y.

End Number.

Export Number.

Infix ">=?" := geb (at level 70, no associativity) : float_scope.
Infix ">?" := gtb (at level 70, no associativity) : float_scope.

(** ** Completions: a value returned, or an [Error] thrown with its message *)

Inductive completion (A : Type) : Type :=
| Returned (a : A)
| Thrown (message : string).

Arguments Returned {A} a.
Arguments Thrown {A} message.

(** [if (c) { throw new Error(message); }] followed by the rest of the body. *)
Definition throw_if {A : Type} (c : bool) (message : string)
    (rest : completion A) : completion A :=
  if c then Thrown message else rest.

Notation "'IF' c 'THROW' message ;; rest" :=
  (throw_if c message rest)
  (at level 10, c at level 99, message at level 0, rest at level 200,
   format "'[v' 'IF'  c  'THROW'  message ;; '/' rest ']'").

(** [try { body } catch (error) { throw error; }]: whatever the body throws
    is thrown again unchanged. *)
Definition try_rethrow {A : Type} (body : completion A) : completion A :=
  match body with
  | Returned a => Returned a
  | Thrown message => Thrown message
  end.

(** The object [calculateSampleSize] returns. *)
Record SampleSizes : Type := {
  controlSize : float;
  testSize : float;
  totalSize : float
}.

(** ** The two functions of the core *)

(** Coefficients of the rational approximation. *)
Definition a0 := -3.969683028665376e+01.
Definition a1 := 2.209460984245205e+02.
Definition a2 := -2.759285104469687e+02.
Definition a3 := 1.383577518672690e+02.
Definition a4 := -3.066479806614716e+01.
Definition a5 := 2.506628277459239e+00.

Definition b0 := -5.447609879822406e+01.
Definition b1 := 1.615858368580409e+02.
Definition b2 := -1.556989798598866e+02.
Definition b3 := 6.680131188771972e+01.
Definition b4 := -1.328068155288572e+01.

Definition c0 := -7.784894002430293e-03.
Definition c1 := -3.223964580411365e-01.
Definition c2 := -2.400758277161838e+00.
Definition c3 := -2.549732539343734e+00.
Definition c4 := 4.374664141464968e+00.
Definition c5 := 2.938163982698783e+00.

Definition d0 := 7.784695709041462e-03.
Definition d1 := 3.224671290700398e-01.
Definition d2 := 2.445134137142996e+00.
Definition d3 := 3.754408661907416e+00.

(** Break-points. *)
Definition pLow := 0.02425.
Definition pHigh := 1 - pLow.

(** The numerator and the denominator shared by the two tails, and those of
    the central region, each nested exactly as in the source. *)
Definition tail_num (q : float) : float :=
  ((((c0 * q + c1) * q + c2) * q + c3) * q + c4) * q + c5.
Definition tail_den (q : float) : float :=
  (((d0 * q + d1) * q + d2) * q + d3) * q + 1.
Definition central_num (r : float) : float :=
  ((((a0 * r + a1) * r + a2) * r + a3) * r + a4) * r + a5.
Definition central_den (r : float) : float :=
  ((((b0 * r + b1) * r + b2) * r + b3) * r + b4) * r + 1.

Section Core.

(** The engine's [Math.log] and [Math.pow]. *)
Variable Math_log : float -> float.
Variable Math_pow : float -> float -> float.

Definition normalInverse (p : float) : float :=
  if p <? pLow then
    let q := Math_sqrt (-2 * Math_log p) in
    tail_num q / tail_den q
  else if p <=? pHigh then
    let q := p - 0.5 in
    let r := q * q in
    central_num r * q / central_den r
  else
    let q := Math_sqrt (-2 * Math_log (1 - p)) in
    - tail_num q / tail_den q.

Definition calculateSampleSize (bcr mde alpha power : float)
    (twoSided : bool) (splitRatio : float) : completion SampleSizes :=
  try_rethrow (
    let p1 := bcr / 100 in
    let p2 := p1 * (1 + mde / 100) in
    IF (p1 <=? 0) || (p1 >=? 1)
      THROW "Baseline conversion rate must be between 0 and 100%" ;;
    IF (p2 <=? 0) || (p2 >? 1)
      THROW "Resulting test conversion rate is invalid. Try a smaller MDE." ;;
    IF (alpha <=? 0) || (alpha >=? 1)
      THROW "Significance level must be between 0 and 1" ;;
    IF (power <=? 0) || (power >=? 1)
      THROW "Statistical power must be between 0 and 1" ;;
    IF (splitRatio <=? 0) || (splitRatio >=? 1)
      THROW "Split ratio must be between 0 and 1" ;;
    let zAlpha :=
      if twoSided then normalInverse (1 - alpha / 2)
      else normalInverse (1 - alpha) in
    let zBeta := normalInverse power in
    let delta := Math_abs (p2 - p1) in
    let nEqual :=
      2 * Math_pow (zAlpha + zBeta) 2 * p1 * (1 - p1) / Math_pow delta 2 in
    let k := splitRatio / (1 - splitRatio) in
    let controlSize := Math_ceil (nEqual * (1 + 1 / k) / 2) in
    let testSize := Math_ceil (controlSize * k) in
    let totalSize := controlSize + testSize in
    Returned {| controlSize := controlSize;
                testSize := testSize;
                totalSize := totalSize |}).

End Core.

(** ** The stages of [calculateSampleSize] after validation

    The local constants of the body, each as a function of what it is
    computed from, so that properties can speak about the intermediate
    values the function does not return. *)

Section Stages.

Variable Math_log : float -> float.
Variable Math_pow : float -> float -> float.

(** The five checks all pass (lines 91-105). *)
Definition accepted (bcr mde alpha power splitRatio : float) : bool :=
  let p1 := bcr / 100 in
  let p2 := p1 * (1 + mde / 100) in
  negb ((p1 <=? 0) || (p1 >=? 1)) &&
  negb ((p2 <=? 0) || (p2 >? 1)) &&
  negb ((alpha <=? 0) || (alpha >=? 1)) &&
  negb ((power <=? 0) || (power >=? 1)) &&
  negb ((splitRatio <=? 0) || (splitRatio >=? 1)).

(** Lines 121-133: the sizes, from [nEqual] and the split ratio. *)
Definition sizes_from_nEqual (splitRatio nEqual : float) : SampleSizes :=
  let k := splitRatio / (1 - splitRatio) in
  let controlSize := Math_ceil (nEqual * (1 + 1 / k) / 2) in
  let testSize := Math_ceil (controlSize * k) in
  let totalSize := controlSize + testSize in
  {| controlSize := controlSize; testSize := testSize; totalSize := totalSize |}.

(** Lines 112-133: the sizes, from the two z-scores. *)
Definition sizes_from_z (p1 p2 splitRatio zAlpha zBeta : float)
    : SampleSizes :=
  let delta := Math_abs (p2 - p1) in
  let nEqual :=
    2 * Math_pow (zAlpha + zBeta) 2 * p1 * (1 - p1) / Math_pow delta 2 in
  sizes_from_nEqual splitRatio nEqual.

(** Lines 84-117: the local [nEqual], from the arguments. *)
Definition nEqual_of (bcr mde alpha power : float) (twoSided : bool) : float :=
  let p1 := bcr / 100 in
  let p2 := p1 * (1 + mde / 100) in
  let zAlpha :=
    if twoSided then normalInverse Math_log (1 - alpha / 2)
    else normalInverse Math_log (1 - alpha) in
  let zBeta := normalInverse Math_log power in
  let delta := Math_abs (p2 - p1) in
  2 * Math_pow (zAlpha + zBeta) 2 * p1 * (1 - p1) / Math_pow delta 2.

End Stages.

(** The three regions of [normalInverse], by the tests of its two [if]s. *)
Inductive region : Type := Lower | Central | Upper.

Definition region_of (p : float) : region :=
  if p <? pLow then Lower else if p <=? pHigh then Central else Upper.

Definition mirror (r : region) : region :=
  match r with Lower => Upper | Central => Central | Upper => Lower end.

(** The reflection [p |-> 1 - p] loses nothing to rounding where
    [normalInverse] looks at it: in the lower tail [1 - (1 - p)] gives [p]
    back, in the central region the offsets from one half are opposite.  The
    upper tail asks for nothing: there [1 - p] itself is what both sides
    take the logarithm of. *)
Definition reflects_exactly (p : float) : bool :=
  match region_of p with
  | Lower => same_value (1 - (1 - p)) p
  | Central => same_value ((1 - p) - 0.5) (- (p - 0.5))
  | Upper => true
  end.

(** ** The specification's words *)

(** The error taxonomy of the specification, as the messages thrown. *)
Definition BaselineRateOutOfRange : string :=
  "Baseline conversion rate must be between 0 and 100%".
Definition TestRateInvalid : string :=
  "Resulting test conversion rate is invalid. Try a smaller MDE.".
Definition SignificanceOutOfRange : string :=
  "Significance level must be between 0 and 1".
Definition PowerOutOfRange : string :=
  "Statistical power must be between 0 and 1".
Definition SplitRatioOutOfRange : string :=
  "Split ratio must be between 0 and 1".

(** [0 < x < 1] and [0 < x <= 1]. *)
Definition strictly_inside_unit (x : float) : bool := (0 <? x) && (x <? 1).
Definition inside_unit_or_one (x : float) : bool := (0 <? x) && (x <=? 1).

(** Step 3 of the specification: the conditions in its order, the first
    violated one naming the error. *)
Definition first_violation (p1 p2 alpha power splitRatio : float)
    : option string :=
  if negb (strictly_inside_unit p1) then Some BaselineRateOutOfRange
  else if negb (inside_unit_or_one p2) then Some TestRateInvalid
  else if negb (strictly_inside_unit alpha) then Some SignificanceOutOfRange
  else if negb (strictly_inside_unit power) then Some PowerOutOfRange
  else if negb (strictly_inside_unit splitRatio) then Some SplitRatioOutOfRange
  else None.

(** [a] and [b] agree within the relative tolerance [tol], measured against
    the larger of the two magnitudes. *)
Definition within_relative (tol a b : float) : bool :=
  let scale := if abs a <? abs b then abs b else abs a in
  abs (a - b) <=? tol * scale.

(** The pooled-variance variant of the formula, which the calculator does
    not use: the variance term at the mean of the two proportions. *)
Definition nEqual_pooled (zAlpha zBeta p1 p2 : float) : float :=
  let pbar := (p1 + p2) / 2 in
  let delta := Math_abs (p2 - p1) in
  2 * ((zAlpha + zBeta) * (zAlpha + zBeta)) * pbar * (1 - pbar)
    / (delta * delta).

(** ** Shapes of specification values *)

Definition rnd_aux := binary_round_aux prec emax.

(** The shape of a rounded result: a zero, a finite number or an infinity
    of the sign handed in, never NaN. *)
Inductive signed (s : bool) : spec_float -> Prop :=
| signed_zero : signed s (S754_zero s)
| signed_finite m e : signed s (S754_finite s m e)
| signed_infinity : signed s (S754_infinity s).

(** A specification value that is a zero or carries the negative sign. *)
Definition nonpositive (x : spec_float) : Prop :=
  (exists s, x = S754_zero s) \/ signed true x.

(** Zeros and finite numbers, as opposed to the infinities and NaN. *)
Definition SFfinite (x : spec_float) : bool :=
  match x with
  | S754_zero _ | S754_finite _ _ _ => true
  | S754_infinity _ | S754_nan => false
  end.

(** ** An engine to run the calculator on

    One conforming pair of [Math.log] and [Math.pow]: the results ECMAScript
    fixes (NaN below zero, minus infinity at the zeros, the square of a zero)
    are as it fixes them, the others approximate the real function.  The
    properties below hold for every engine that meets the facts they name;
    this one shows that such engines exist and evaluates the examples. *)

Module Engine.

Definition LN2 := 0.6931471805599453.
Definition SQRT1_2 := 0.7071067811865476.

(** A binary exponent as a number. *)
Definition of_exponent (e : Z) : float :=
  if (e <? 0)%Z then - of_Z (- e) else of_Z e.

(** [1 + u/3 + u^2/5 + ...], [n] terms by Horner's rule: with [u = t^2] and
    times [2 * t] it is [2 * atanh t = ln ((1 + t) / (1 - t))]. *)
Fixpoint atanh_terms (n : nat) (u acc : float) : float :=
  match n with
  | O => acc
  | S n' => atanh_terms n' u (1 / of_Z (2 * Z.of_nat n' + 1) + u * acc)
  end.

(** [ln x]: [x = m * 2^e] with [m] brought into [sqrt 1/2, sqrt 2), then
    [ln x = e * ln 2 + ln m], the latter by the series at
    [t = (m - 1) / (m + 1)]. *)
Definition Math_log (x : float) : float :=
  if x <? 0 then nan
  else if x =? 0 then neg_infinity
  else if x <? infinity then
    let (m, e) := Z.frexp x in
    let (m, e) := if m <? SQRT1_2 then (2 * m, (e - 1)%Z) else (m, e) in
    let t := (m - 1) / (m + 1) in
    of_exponent e * LN2 + 2 * t * atanh_terms 16 (t * t) 0
  else x.

(** [Math.pow] squares by one multiplication, which is the correctly rounded
    square.  The calculator raises to the literal exponent 2 only; this
    engine implements no other exponent. *)
Definition Math_pow (base exponent : float) : float :=
  if exponent =? 2 then base * base else nan.

End Engine.

(** ** The page and its handlers

    The rest of [script.js] reads the form, runs the calculation and writes
    the result into the page.  The page ([index.html]) is not among the
    sources: the model gives it the elements the script looks up by id, each
    with the properties the script reads or writes, and a list of further
    elements, the ones a click can land on and [querySelectorAll] ranges
    over.  The element [errorMessage] is taken not to be one of those.

    What the browser and the engine provide is a parameter: [parseFloat],
    [Number.prototype.toLocaleString] for the locale en-US, the conversion of
    a string to a number that [*] applies to its operand, and the conversion
    of a number to a string in a template literal. *)

(** [Math.round], after ECMAScript: NaN, the infinities and the zeros are
    returned unchanged, a number with a non-negative exponent is integral
    already; otherwise the nearest integer, a tie going towards plus
    infinity, and a negative argument that rounds to zero giving [-0]. *)
Definition Math_round (x : float) : float :=
  match Prim2SF x with
  | S754_finite s m e =>
      if (0 <=? e)%Z then x
      else
        let d := (2 ^ (- e))%Z in
        if s then - of_Z ((2 * Zpos m + d - 1) / (2 * d))
        else of_Z ((2 * Zpos m + d) / (2 * d))
  | _ => x
  end.

Module UI.

Record platform : Type := {
  Math_log : float -> float;
  Math_pow : float -> float -> float;
  parseFloat : string -> float;
  toLocaleString_en_US : float -> string;
  ToNumber : string -> float;
  ToString : float -> string
}.

(** The values of an object's properties: numbers and booleans here. *)
Inductive value : Type :=
| Num (x : float)
| Bool (b : bool).

(** [isNaN(v)]: whether [v], converted to a number, is NaN; [true] and
    [false] convert to 1 and 0. *)
Definition isNaN (v : value) : bool :=
  match v with
  | Num x => is_nan x
  | Bool _ => false
  end.

(** [typeof v === 'boolean']. *)
Definition is_boolean (v : value) : bool :=
  match v with
  | Num _ => false
  | Bool _ => true
  end.

(** A [classList]: the tokens of an element's class, in order. *)
Definition contains (token : string) (classList : list string) : bool :=
  existsb (String.eqb token) classList.

Definition remove (token : string) (classList : list string) : list string :=
  filter (fun t => negb (String.eqb token t)) classList.

Definition add (token : string) (classList : list string) : list string :=
  if contains token classList then classList else classList ++ [token].

(** An element a click can land on: its class list and its [data-value]
    attribute, if it has one. *)
Record element : Type := {
  classList : list string;
  dataset_value : option string
}.

(** Assigning [dataset.value] to an input's [value]: a missing attribute
    reads as [undefined], which the assignment turns into a string. *)
Definition DOMString (v : option string) : string :=
  match v with
  | Some s => s
  | None => "undefined"
  end.

Record page : Type := {
  bcr_value : string;
  mde_value : string;
  alpha_value : string;
  power_value : string;
  testType_value : string;
  splitRatio_value : string;
  errorMessage_textContent : string;
  errorMessage_classList : list string;
  totalSampleSize_textContent : string;
  controlSize_textContent : string;
  testSize_textContent : string;
  splitRatioValue_textContent : string;
  elements : list element
}.

(** The object [getFormValues] returns. *)
Record FormValues : Type := {
  bcr : float;
  mde : float;
  alpha : float;
  power : float;
  twoSided : bool;
  splitRatio : float
}.

(** [Object.values], in the order the properties were created. *)
Definition Object_values (values : FormValues) : list value :=
  [Num (bcr values); Num (mde values); Num (alpha values);
   Num (power values); Bool (twoSided values); Num (splitRatio values)].

(** The writes the handlers make, each to one property of one element. *)
Definition set_results (total control test : string) (pg : page) : page :=
  {| bcr_value := bcr_value pg;
     mde_value := mde_value pg;
     alpha_value := alpha_value pg;
     power_value := power_value pg;
     testType_value := testType_value pg;
     splitRatio_value := splitRatio_value pg;
     errorMessage_textContent := errorMessage_textContent pg;
     errorMessage_classList := errorMessage_classList pg;
     totalSampleSize_textContent := total;
     controlSize_textContent := control;
     testSize_textContent := test;
     splitRatioValue_textContent := splitRatioValue_textContent pg;
     elements := elements pg |}.

Definition set_errorMessage (text : string) (classes : list string)
    (pg : page) : page :=
  {| bcr_value := bcr_value pg;
     mde_value := mde_value pg;
     alpha_value := alpha_value pg;
     power_value := power_value pg;
     testType_value := testType_value pg;
     splitRatio_value := splitRatio_value pg;
     errorMessage_textContent := text;
     errorMessage_classList := classes;
     totalSampleSize_textContent := totalSampleSize_textContent pg;
     controlSize_textContent := controlSize_textContent pg;
     testSize_textContent := testSize_textContent pg;
     splitRatioValue_textContent := splitRatioValue_textContent pg;
     elements := elements pg |}.

Definition set_splitRatioValue (text : string) (pg : page) : page :=
  {| bcr_value := bcr_value pg;
     mde_value := mde_value pg;
     alpha_value := alpha_value pg;
     power_value := power_value pg;
     testType_value := testType_value pg;
     splitRatio_value := splitRatio_value pg;
     errorMessage_textContent := errorMessage_textContent pg;
     errorMessage_classList := errorMessage_classList pg;
     totalSampleSize_textContent := totalSampleSize_textContent pg;
     controlSize_textContent := controlSize_textContent pg;
     testSize_textContent := testSize_textContent pg;
     splitRatioValue_textContent := text;
     elements := elements pg |}.

Definition set_toggle (testType : string) (els : list element)
    (pg : page) : page :=
  {| bcr_value := bcr_value pg;
     mde_value := mde_value pg;
     alpha_value := alpha_value pg;
     power_value := power_value pg;
     testType_value := testType;
     splitRatio_value := splitRatio_value pg;
     errorMessage_textContent := errorMessage_textContent pg;
     errorMessage_classList := errorMessage_classList pg;
     totalSampleSize_textContent := totalSampleSize_textContent pg;
     controlSize_textContent := controlSize_textContent pg;
     testSize_textContent := testSize_textContent pg;
     splitRatioValue_textContent := splitRatioValue_textContent pg;
     elements := els |}.

(** The five inputs that carry an [input] listener. *)
Inductive input_id : Type :=
| id_bcr | id_mde | id_alpha | id_power | id_splitRatio.

(** The browser stores what the user entered before it fires [input]. *)
Definition set_value (id : input_id) (v : string) (pg : page) : page :=
  {| bcr_value := match id with id_bcr => v | _ => bcr_value pg end;
     mde_value := match id with id_mde => v | _ => mde_value pg end;
     alpha_value := match id with id_alpha => v | _ => alpha_value pg end;
     power_value := match id with id_power => v | _ => power_value pg end;
     testType_value := testType_value pg;
     splitRatio_value :=
       match id with id_splitRatio => v | _ => splitRatio_value pg end;
     errorMessage_textContent := errorMessage_textContent pg;
     errorMessage_classList := errorMessage_classList pg;
     totalSampleSize_textContent := totalSampleSize_textContent pg;
     controlSize_textContent := controlSize_textContent pg;
     testSize_textContent := testSize_textContent pg;
     splitRatioValue_textContent := splitRatioValue_textContent pg;
     elements := elements pg |}.

(** Replace the element at a position. *)
Fixpoint set_nth (i : nat) (e : element) (els : list element)
    : list element :=
  match els, i with
  | [], _ => []
  | _ :: rest, O => e :: rest
  | x :: rest, S j => x :: set_nth j e rest
  end.

Section Handlers.

Variable P : platform.

Definition formatNumber (num : float) : string := toLocaleString_en_US P num.

Definition getFormValues (pg : page) : FormValues :=
  {| bcr := parseFloat P (bcr_value pg);
     mde := parseFloat P (mde_value pg);
     alpha := parseFloat P (alpha_value pg);
     power := parseFloat P (power_value pg);
     twoSided := String.eqb (testType_value pg) "true";
     splitRatio := parseFloat P (splitRatio_value pg) |}.

(** The body of the [try] block of [updateResults] up to the call: what it
    hands on, or what it throws.  Nothing is written to the page before. *)
Definition results_or_error (pg : page) : completion SampleSizes :=
  let values := getFormValues pg in
  IF existsb (fun v => isNaN v && negb (is_boolean v)) (Object_values values)
    THROW "Please fill in all fields with valid numbers" ;;
  calculateSampleSize (Math_log P) (Math_pow P)
    (bcr values) (mde values) (alpha values) (power values)
    (twoSided values) (splitRatio values).

Definition updateResults (pg : page) : page :=
  match results_or_error pg with
  | Returned results =>
      let pg :=
        set_results (formatNumber (totalSize results))
          (formatNumber (controlSize results))
          (formatNumber (testSize results)) pg in
      set_errorMessage EmptyString (remove "show" (errorMessage_classList pg))
        pg
  | Thrown message =>
      let pg :=
        set_errorMessage message (add "show" (errorMessage_classList pg)) pg in
      set_results "-" "-" "-" pg
  end.

Definition updateSliderValue (pg : page) : page :=
  let percentage := Math_round (ToNumber P (splitRatio_value pg) * 100) in
  set_splitRatioValue (ToString P percentage ++ "%") pg.

(** [handleToggleClick] for a click on the element at position [target].
    (A position past the end of the list is no element; the page is then
    left as it is.) *)
Definition handleToggleClick (target : nat) (pg : page) : page :=
  match nth_error (elements pg) target with
  | Some clicked =>
      if contains "toggle-btn" (classList clicked) then
        let els :=
          map (fun btn =>
                 if contains "toggle-btn" (classList btn) then
                   {| classList := remove "active" (classList btn);
                      dataset_value := dataset_value btn |}
                 else btn)
              (elements pg) in
        let els :=
          set_nth target
            {| classList := add "active" (remove "active" (classList clicked));
               dataset_value := dataset_value clicked |}
            els in
        updateResults
          (set_toggle (DOMString (dataset_value clicked)) els pg)
      else pg
  | None => pg
  end.

(** The listeners the script installs, and what it runs when the document
    has loaded.  [Input] is an [input] event on one of the five inputs, after
    the browser has stored what was entered; [Click] is a click that reaches
    [handleToggleClick], with the element it landed on. *)
Inductive event : Type :=
| Input (id : input_id) (entered : string)
| Click (target : nat).

Definition dispatch (ev : event) (pg : page) : page :=
  match ev with
  | Input id entered =>
      let pg := set_value id entered pg in
      let pg :=
        match id with
        | id_splitRatio => updateSliderValue pg
        | _ => pg
        end in
      updateResults pg
  | Click target => handleToggleClick target pg
  end.

Definition DOMContentLoaded (pg : page) : page :=
  updateResults (updateSliderValue pg).

(** The page after the document has loaded and the events of a session. *)
Definition session (events : list event) (pg : page) : page :=
  fold_left (fun pg ev => dispatch ev pg) events (DOMContentLoaded pg).

End Handlers.

End UI.

(** *** What the page shows *)

Module Display.

Import UI.

(** An error is on display: the message, marked to be shown, and dashes in
    place of the three sizes. *)
Definition shows_error (message : string) (pg : page) : Prop :=
  errorMessage_textContent pg = message /\
  contains "show" (errorMessage_classList pg) = true /\
  totalSampleSize_textContent pg = "-" /\
  controlSize_textContent pg = "-" /\
  testSize_textContent pg = "-".

(** Sizes are on display, formatted, and no error is. *)
Definition shows_results (P : platform) (r : SampleSizes) (pg : page)
    : Prop :=
  totalSampleSize_textContent pg = formatNumber P (totalSize r) /\
  controlSize_textContent pg = formatNumber P (controlSize r) /\
  testSize_textContent pg = formatNumber P (testSize r) /\
  errorMessage_textContent pg = EmptyString /\
  contains "show" (errorMessage_classList pg) = false.

(** The page shows what its inputs currently give: running [updateResults]
    again would change nothing, and the label of the slider is the one
    [updateSliderValue] would write. *)
Definition in_sync (P : platform) (pg : page) : Prop :=
  updateResults P pg = pg /\
  splitRatioValue_textContent pg
  = ToString P (Math_round (ToNumber P (splitRatio_value pg) * 100)) ++ "%".

(** One of the five numbers the form was read into is NaN. *)
Definition some_field_is_NaN (values : FormValues) : bool :=
  is_nan (bcr values) || is_nan (mde values) || is_nan (alpha values)
  || is_nan (power values) || is_nan (splitRatio values).

End Display.

(** *** A browser to run the page on

    Plain decimal numerals ([12], [0.05], [-3.5]) are read as the quotient of
    two exactly represented integers, which is the correctly rounded value
    for numerals of up to fifteen digits; integral numbers are written with
    their decimal digits, grouped by three for the locale en-US.  This is
    enough to evaluate the handlers on a form filled with such numerals;
    numerals with an exponent part and the printing of fractions are not
    implemented. *)

Module Browser.

Import Ascii.

Definition digit_of (a : Ascii.ascii) : option Z :=
  let n := Z.of_nat (Ascii.nat_of_ascii a) in
  if ((48 <=? n) && (n <=? 57))%Z then Some (n - 48)%Z else None.

(** The leading digits of [s]: their value after [acc], how many there
    are, and what follows them. *)
Fixpoint read_digits (s : string) (acc : Z) (count : nat)
    : Z * nat * string :=
  match s with
  | String a rest =>
      match digit_of a with
      | Some d => read_digits rest (10 * acc + d)%Z (S count)
      | None => (acc, count, s)
      end
  | EmptyString => (acc, count, s)
  end.

(** The longest prefix that is a decimal numeral, as a number, and what
    follows it; NaN when there is no such prefix. *)
Definition read_decimal (s : string) : float * string :=
  let (negative, s) :=
    match s with
    | String "-"%char rest => (true, rest)
    | _ => (false, s)
    end in
  let '(int_part, int_count, rest) := read_digits s 0 0 in
  let '(mantissa, frac_count, rest) :=
    match rest with
    | String "."%char after =>
        let '(m, c, r) := read_digits after int_part 0 in
        if (Nat.eqb int_count 0 && Nat.eqb c 0)%bool then (0%Z, 0%nat, rest)
        else (m, c, r)
    | _ => (int_part, 0%nat, rest)
    end in
  if (Nat.eqb int_count 0 && Nat.eqb frac_count 0)%bool then (nan, s)
  else
    let magnitude := of_Z mantissa / of_Z (10 ^ Z.of_nat frac_count) in
    (if negative then - magnitude else magnitude, rest).

Definition parseFloat (s : string) : float := fst (read_decimal s).

(** The whole string has to be a numeral; the empty string is zero. *)
Definition ToNumber (s : string) : float :=
  match s with
  | EmptyString => 0
  | _ =>
      let (x, rest) := read_decimal s in
      match rest with
      | EmptyString => x
      | _ => nan
      end
  end.

Definition digit_char (d : Z) : Ascii.ascii :=
  Ascii.ascii_of_nat (Z.to_nat (48 + d)).

(** The decimal digits of a non-negative integer, the last one first. *)
Fixpoint digits_reversed (fuel : nat) (n : Z) : list Ascii.ascii :=
  match fuel with
  | O => []
  | S fuel' =>
      if (n <? 10)%Z then [digit_char n]
      else digit_char (n mod 10) :: digits_reversed fuel' (n / 10)
  end.

(** A comma after every third digit, counted from the last. *)
Fixpoint group_by_three (digits : list Ascii.ascii) (seen : nat)
    : list Ascii.ascii :=
  match digits with
  | [] => []
  | d :: rest =>
      if Nat.eqb seen 3 then ","%char :: d :: group_by_three rest 1
      else d :: group_by_three rest (S seen)
  end.

Definition string_of_chars (l : list Ascii.ascii) : string :=
  fold_right String EmptyString l.

(** The magnitude of an integral number; [None] for a fraction. *)
Definition integral_magnitude (x : float) : option (bool * Z) :=
  match Prim2SF x with
  | S754_zero s => Some (s, 0%Z)
  | S754_finite s m e =>
      if (0 <=? e)%Z then Some (s, (Z.pos m * 2 ^ e)%Z)
      else if (Z.pos m mod 2 ^ (- e) =? 0)%Z
           then Some (s, (Z.pos m / 2 ^ (- e))%Z)
           else None
  | _ => None
  end.

Definition print_integral (grouped : bool) (infinity_sign : string)
    (x : float) : string :=
  if is_nan x then "NaN"
  else if x =? infinity then infinity_sign
  else if x =? neg_infinity then "-" ++ infinity_sign
  else
    match integral_magnitude x with
    | Some (negative, n) =>
        let digits := digits_reversed 400 n in
        let digits := if grouped then group_by_three digits 0 else digits in
        (if (negative && negb (n =? 0)%Z)%bool then "-" else EmptyString)
        ++ string_of_chars (rev digits)
    | None => EmptyString
    end.

(** The sign en-US writes for infinity, U+221E in UTF-8. *)
Definition infinity_sign : string :=
  String (Ascii.ascii_of_nat 226)
    (String (Ascii.ascii_of_nat 136)
       (String (Ascii.ascii_of_nat 158) EmptyString)).

Definition toLocaleString_en_US : float -> string :=
  print_integral true infinity_sign.

Definition ToString : float -> string := print_integral false "Infinity".

Definition platform : UI.platform :=
  {| UI.Math_log := Engine.Math_log;
     UI.Math_pow := Engine.Math_pow;
     UI.parseFloat := parseFloat;
     UI.toLocaleString_en_US := toLocaleString_en_US;
     UI.ToNumber := ToNumber;
     UI.ToString := ToString |}.

(** The form as the page might ship it: scenario A, nothing computed yet;
    two toggle buttons, the two-sided one active, with a label inside. *)
Definition initial_page : UI.page :=
  {| UI.bcr_value := "5";
     UI.mde_value := "30";
     UI.alpha_value := "0.05";
     UI.power_value := "0.8";
     UI.testType_value := "true";
     UI.splitRatio_value := "0.5";
     UI.errorMessage_textContent := EmptyString;
     UI.errorMessage_classList := ["error-message"];
     UI.totalSampleSize_textContent := "-";
     UI.controlSize_textContent := "-";
     UI.testSize_textContent := "-";
     UI.splitRatioValue_textContent := "50%";
     UI.elements :=
       [ {| UI.classList := ["toggle-btn"; "active"];
            UI.dataset_value := Some "true" |};
         {| UI.classList := ["toggle-btn"];
            UI.dataset_value := Some "false" |};
         {| UI.classList := ["label"]; UI.dataset_value := None |} ] |}.

End Browser.
(** ** Numbers as reals

    The value a binary64 number stands for, to state how far a computed
    result is from the exact one.  NaN and the infinities are given the
    value zero; the facts below say "finite" where that matters. *)

From Stdlib Require Reals Lra.

Module Real.

Import Reals.
#[local] Open Scope R_scope.

(** [2^e]. *)
Definition bpow (e : Z) : R := powerRZ 2 e.

(** Half a unit in the last place of one. *)
Definition u : R := bpow (-53).

Definition signed_R (s : bool) (v : R) : R := if s then - v else v.

Definition SF2R (x : spec_float) : R :=
  match x with
  | S754_finite s m e => signed_R s (IZR (Z.pos m) * bpow e)
  | _ => 0
  end.

Definition B2R (x : float) : R := SF2R (Prim2SF x).

(** Zeros and finite numbers. *)
Definition SFvalid_finite (x : spec_float) : Prop :=
  SFfinite x = true /\ valid_binary x = true.

Definition finite (x : float) : Prop := SFfinite (Prim2SF x) = true.

(** Numbers well inside the normal range: sums, products and quotients of
    two of them neither overflow nor underflow. *)
Definition nice (x : float) : Prop :=
  bpow (-499) <= Rabs (B2R x) <= bpow 499.

(** Where the real [v] lies between the integers [m] and [m + 1], as the
    rounding of the specification records it. *)
Definition located (m : Z) (l : location) (v : R) : Prop :=
  match l with
  | loc_Exact => v = IZR m
  | loc_Inexact Lt => IZR m < v < IZR m + / 2
  | loc_Inexact Eq => v = IZR m + / 2
  | loc_Inexact Gt => IZR m + / 2 < v < IZR m + 1
  end.

End Real.
(** ** A stability check, run on the numbers themselves

    [eval e x] evaluates an arithmetic expression in binary64, as the code
    does.  [aeval e a] follows the same expression on a description [a] of
    two runs at once: the sign both results have, bounds on their
    magnitude, and a bound on how far they are apart.  The bounds are
    binary64 numbers, each rounded away from the exact bound by a factor
    [1 +- 2^-51], and every one of them is checked to lie between
    [2^-249] and [2^249]. *)

Module Stability.

Definition tiny := 0x1p-249.
Definition huge := 0x1p249.
Definition c_up := 0x1.0000000000002p+0.
Definition c_dn := 0x1.ffffffffffffcp-1.
Definition c_2u := 0x1p-52.
Definition c_eps := 0x1p-100.

Definition ok (f : float) : bool := (tiny <=? f) && (f <=? huge).
Definition chk (f : float) : option float := if ok f then Some f else None.

Definition bind {A B : Type} (x : option A) (f : A -> option B) : option B :=
  match x with Some a => f a | None => None end.

Notation "x <- a ;; b" := (bind a (fun x => b))
  (at level 61, a at next level, right associativity).

(** Rounded up and rounded down. *)
Definition up (f : float) : option float := chk (f * c_up).
Definition dn (f : float) : option float := chk (f * c_dn).

Definition mulU (a b : float) := f <- chk (a * b) ;; up f.
Definition mulD (a b : float) := f <- chk (a * b) ;; dn f.
Definition addU (a b : float) := f <- chk (a + b) ;; up f.
Definition addD (a b : float) := f <- chk (a + b) ;; dn f.
Definition subU (a b : float) := f <- chk (a - b) ;; up f.
Definition subD (a b : float) := f <- chk (a - b) ;; dn f.
Definition divU (a b : float) := f <- chk (a / b) ;; up f.
Definition divD (a b : float) := f <- chk (a / b) ;; dn f.
Definition sqrtU (a : float) := f <- chk (Math_sqrt a) ;; up f.
Definition sqrtD (a : float) := f <- chk (Math_sqrt a) ;; dn f.

(** Two results of the sign [neg], of magnitude between [mlo] and [mhi],
    at most [dd] apart. *)
Record av := { neg : bool; mlo : float; mhi : float; dd : float }.

Definition aconst (c : float) : option av :=
  m <- chk (abs c) ;;
  Some {| neg := c <? 0; mlo := m; mhi := m; dd := c_eps |}.

(** The exact results of an operation lie in [lo, hi] and are [d] apart;
    the rounded results are within [2^-53] of them, relatively. *)
Definition rounded (s : bool) (lo hi d : float) : option av :=
  lo' <- dn lo ;; hi' <- up hi ;;
  e <- mulU hi c_2u ;; d' <- addU d e ;;
  Some {| neg := s; mlo := lo'; mhi := hi'; dd := d' |}.

Definition amul (a b : av) : option av :=
  lo <- mulD (mlo a) (mlo b) ;;
  hi <- mulU (mhi a) (mhi b) ;;
  d1 <- mulU (mhi a) (dd b) ;;
  d2 <- mulU (mhi b) (dd a) ;;
  d <- addU d1 d2 ;;
  rounded (xorb (neg a) (neg b)) lo hi d.

Definition adiv (a b : av) : option av :=
  lo <- divD (mlo a) (mhi b) ;;
  hi <- divU (mhi a) (mlo b) ;;
  d1 <- mulU (mhi a) (dd b) ;;
  d2 <- mulU (mhi b) (dd a) ;;
  n <- addU d1 d2 ;;
  bb <- mulD (mlo b) (mlo b) ;;
  d <- divU n bb ;;
  rounded (xorb (neg a) (neg b)) lo hi d.

Definition aadd (a b : av) : option av :=
  d <- addU (dd a) (dd b) ;;
  if Bool.eqb (neg a) (neg b) then
    lo <- addD (mlo a) (mlo b) ;;
    hi <- addU (mhi a) (mhi b) ;;
    rounded (neg a) lo hi d
  else if mhi b <? mlo a then
    lo <- subD (mlo a) (mhi b) ;;
    hi <- subU (mhi a) (mlo b) ;;
    rounded (neg a) lo hi d
  else
    lo <- subD (mlo b) (mhi a) ;;
    hi <- subU (mhi b) (mlo a) ;;
    rounded (neg b) lo hi d.

Definition asqrt (a : av) : option av :=
  if neg a then None else
  lo <- sqrtD (mlo a) ;;
  hi <- sqrtU (mhi a) ;;
  l2 <- addD lo lo ;;
  d <- divU (dd a) l2 ;;
  rounded false lo hi d.

Definition aopp (a : av) : av :=
  {| neg := negb (neg a); mlo := mlo a; mhi := mhi a; dd := dd a |}.

(** Arithmetic expressions in one variable. *)
Inductive expr :=
| Var
| Const (c : float)
| Add (a b : expr)
| Mul (a b : expr)
| Div (a b : expr)
| Opp (a : expr)
| Sqrt (a : expr).

Fixpoint eval (e : expr) (x : float) : float :=
  match e with
  | Var => x
  | Const c => c
  | Add a b => eval a x + eval b x
  | Mul a b => eval a x * eval b x
  | Div a b => eval a x / eval b x
  | Opp a => - eval a x
  | Sqrt a => Math_sqrt (eval a x)
  end.

Fixpoint aeval (e : expr) (x : av) : option av :=
  match e with
  | Var => Some x
  | Const c => aconst c
  | Add a b => u <- aeval a x ;; v <- aeval b x ;; aadd u v
  | Mul a b => u <- aeval a x ;; v <- aeval b x ;; amul u v
  | Div a b => u <- aeval a x ;; v <- aeval b x ;; adiv u v
  | Opp a => u <- aeval a x ;; Some (aopp u)
  | Sqrt a => u <- aeval a x ;; asqrt u
  end.

(** [(((c0 * x + c1) * x + ...) * x + last], nested as the source nests
    it. *)
Definition horner (cs : list float) (x : expr) (last : float) : expr :=
  match cs with
  | [] => Const last
  | c :: cs' =>
      Add (fold_left (fun acc c => Mul (Add acc (Const c)) x) cs'
             (Mul (Const c) x)) (Const last)
  end.

(** The central branch of [normalInverse] as a function of [q], and the
    lower-tail branch as a function of the logarithm. *)
Definition centralE : expr :=
  let r := Mul Var Var in
  Div (Mul (horner [a0; a1; a2; a3; a4] r a5) Var)
      (horner [b0; b1; b2; b3; b4] r 1).

Definition tailE : expr :=
  let q := Sqrt (Mul (Const (-2)) Var) in
  Div (horner [c0; c1; c2; c3; c4] q c5) (horner [d0; d1; d2; d3] q 1).

(** The variable: of sign [s] and magnitude in [lo, hi] in the first run,
    the second run at most [ca + cb * magnitude] away. *)
Definition avar (s : bool) (ca cb lo hi : float) : option av :=
  ca' <- chk ca ;; cb' <- chk cb ;; lo0 <- chk lo ;; hi0 <- chk hi ;;
  t <- mulU cb' hi0 ;; d <- addU ca' t ;;
  lo' <- subD lo0 d ;; hi' <- addU hi0 d ;;
  Some {| neg := s; mlo := lo'; mhi := hi'; dd := d |}.

(** The two results agree within the relative tolerance [tol]. *)
Definition agrees (tol : float) (r : av) : option bool :=
  tol' <- chk tol ;; d <- up (dd r) ;;
  t <- mulD tol' (mlo r) ;; t' <- dn t ;;
  Some (d <=? t').

Definition leaf (e : expr) (tol : float) (s : bool) (ca cb lo hi : float)
    : bool :=
  match (a <- avar s ca cb lo hi ;; r <- aeval e a ;; agrees tol r) with
  | Some b => b
  | None => false
  end.

(** The check on [lo, hi], cut in halves where it does not pass at once. *)
Fixpoint cover (n : nat) (e : expr) (tol : float) (s : bool)
    (ca cb lo hi : float) : bool :=
  if leaf e tol s ca cb lo hi then true else
  match n with
  | O => false
  | S n' =>
      let mid := (lo + hi) / 2 in
      if cover n' e tol s ca cb lo mid then cover n' e tol s ca cb mid hi
      else false
  end.

End Stability.
(** ** What a description says of two runs *)

Module Described.

Import Reals.
Import Real Stability.
#[local] Open Scope R_scope.

(** The magnitude of [X], of the sign [neg a], lies in the bounds of [a]. *)
Definition mag_in (a : av) (X : R) : Prop :=
  B2R (mlo a) <= signed_R (neg a) X <= B2R (mhi a).

(** The three bounds of a description passed the range check. *)
Definition wf (a : av) : Prop :=
  ok (mlo a) = true /\ ok (mhi a) = true /\ ok (dd a) = true.

(** [a] describes the pair of results [x] and [x']. *)
Definition rel (a : av) (x x' : float) : Prop :=
  wf a /\ mag_in a (B2R x) /\ mag_in a (B2R x') /\
  Rabs (B2R x - B2R x') <= B2R (dd a).

End Described.
(** ** Where the symmetry of [normalInverse] is within the tolerance *)

(** The largest argument below one half at which the symmetry is stated:
    between it and one half [normalInverse] is within [3e-7] of zero and
    the rounding of [1 - p] shows in the result. *)
Definition below_half := 0.4999999.

(** How closely [Math.log] has to agree at [p] and at [1 - (1 - p)], the
    two numbers the tails take the logarithm of. *)
Definition log_tolerance := 1e-10.

(** The logarithms of the numbers of a tail: below [ln 0.02425], not below
    the logarithm of the smallest number. *)
Definition log_in_range (l : float) : bool := (-745 <=? l) && (l <=? -3.7).

(** In the central region: [p] not strictly between [below_half] and one
    half.  In the lower tail: the two logarithms in range and in agreement.
    In the upper tail, where both sides take the logarithm of [1 - p]: that
    logarithm in range. *)
Definition symmetric_at (Math_log : float -> float) (p : float) : bool :=
  match region_of p with
  | Central => (p <=? below_half) || (0.5 <=? p)
  | Lower =>
      log_in_range (Math_log p) &&
      log_in_range (Math_log (1 - (1 - p))) &&
      within_relative log_tolerance (Math_log p) (Math_log (1 - (1 - p)))
  | Upper => log_in_range (Math_log (1 - p))
  end.

(** The ranges the stability check is run on. *)
Module Ranges.

Import Stability.

Definition unwrap (x : option float) : float :=
  match x with Some f => f | None => nan end.

(** [q = p - 0.5] for [pLow <= p <= below_half]: negative, and the offset
    of [1 - p] at most [2^-53 * (0.5625 + 3.5 * |q|)] away from [-q]. *)
Definition lower_lo := unwrap (f <- subD 0.5 below_half ;; dn f).
Definition lower_hi := unwrap (f <- subU 0.5 pLow ;; up f).
Definition lower_ca := 0x1.2p-54.
Definition lower_cb := 0x1.cp-52.

(** [q = p - 0.5] for [0.5 < p <= pHigh]: positive. *)
Definition upper_lo := 0x1p-54.
Definition upper_hi := unwrap (f <- subU pHigh 0.5 ;; up f).

(** The logarithm in a tail: negative, the second one at most
    [log_tolerance * (1 + 2^-20) * |l|] away from the first. *)
Definition tail_lo := 3.7.
Definition tail_hi := 745.
Definition tail_cb := unwrap (mulU log_tolerance 0x1.00001p+0).

Definition fuel := 64%nat.

Definition central_lower : bool :=
  cover fuel centralE 1e-9 true lower_ca lower_cb lower_lo lower_hi.
Definition central_upper : bool :=
  cover fuel centralE 1e-9 false c_eps c_eps upper_lo upper_hi.
Definition tail_lower : bool :=
  cover fuel tailE 1e-9 true c_eps tail_cb tail_lo tail_hi.
Definition tail_upper : bool :=
  cover fuel (Opp tailE) 1e-9 true c_eps c_eps tail_lo tail_hi.

End Ranges.
(** ** Binary64 facts

  Properties of the primitive operations, derived from their
  specification over [spec_float]. *)

Module F64.

(** *** Right shifts keep a mantissa non-negative *)

Lemma shr_1_nonneg (mrs : shr_record) :
  (0 <= shr_m mrs)%Z -> (0 <= shr_m (shr_1 mrs))%Z.
Proof.
  destruct mrs as [m r s]; simpl.
  destruct m as [|[p|p|]|p]; simpl; lia.
Qed.

Lemma iter_shr_1_nonneg (p : positive) :
  forall mrs, (0 <= shr_m mrs)%Z -> (0 <= shr_m (iter_pos shr_1 p mrs))%Z.
Proof.
  induction p as [p IH|p IH|]; intros mrs H; simpl.
  - apply IH, IH, shr_1_nonneg, H.
  - apply IH, IH, H.
  - apply shr_1_nonneg, H.
Qed.

Lemma shr_record_of_loc_m (m : Z) (l : location) :
  shr_m (shr_record_of_loc m l) = m.
Proof. destruct l as [|[ | | ]]; reflexivity. Qed.

Lemma shr_fexp_nonneg (m e : Z) (l : location) :
  (0 <= m)%Z -> (0 <= shr_m (fst (shr_fexp prec emax m e l)))%Z.
Proof.
  intros H. unfold shr_fexp, shr.
  destruct (_ - e)%Z as [|p|p]; simpl;
    rewrite ?shr_record_of_loc_m; auto.
  apply iter_shr_1_nonneg. now rewrite shr_record_of_loc_m.
Qed.

Lemma round_nearest_even_nonneg (m : Z) (l : location) :
  (0 <= m)%Z -> (0 <= round_nearest_even m l)%Z.
Proof.
  intros H. destruct l as [|[ | | ]]; simpl; try lia.
  destruct (Z.even m); lia.
Qed.

Lemma rnd_aux_signed (s : bool) (m e : Z) (l : location) :
  (0 <= m)%Z -> signed s (rnd_aux s m e l).
Proof.
  intros H. unfold rnd_aux, binary_round_aux.
  pose proof (shr_fexp_nonneg m e l H) as H1.
  destruct (shr_fexp prec emax m e l) as [mrs' e']. simpl in H1.
  pose proof (shr_fexp_nonneg _ e' loc_Exact
                (round_nearest_even_nonneg _ (loc_of_shr_record mrs') H1)) as H2.
  destruct (shr_fexp prec emax _ e' loc_Exact) as [mrs'' e'']. simpl in H2.
  destruct (shr_m mrs'') as [|q|q]; try lia.
  - constructor.
  - destruct (e'' <=? emax - prec)%Z; constructor.
Qed.

(** Rounding is symmetric: the sign only labels the result. *)
Lemma rnd_aux_opp (s : bool) (m e : Z) (l : location) :
  rnd_aux (negb s) m e l = SFopp (rnd_aux s m e l).
Proof.
  unfold rnd_aux, binary_round_aux.
  destruct (shr_fexp prec emax m e l) as [mrs' e'].
  destruct (shr_fexp prec emax _ e' loc_Exact) as [mrs'' e''].
  destruct (shr_m mrs'') as [|q|q]; try reflexivity.
  destruct (e'' <=? emax - prec)%Z; reflexivity.
Qed.

(** *** Reading a float through its specification *)

Lemma Prim2SF_zero : Prim2SF 0 = S754_zero false.
Proof. reflexivity. Qed.

Lemma Prim2SF_one : Prim2SF 1 = S754_finite false 4503599627370496 (-52).
Proof. reflexivity. Qed.

Lemma Prim2SF_nan : Prim2SF nan = S754_nan.
Proof. reflexivity. Qed.

Lemma SFcompare_refl (x : spec_float) :
  x <> S754_nan -> SFcompare x x = Some Eq.
Proof.
  destruct x as [s|s| |s m e]; simpl; intros H;
    try congruence; try (destruct s; reflexivity).
  rewrite Z.compare_refl, Pos.compare_cont_refl. now destruct s.
Qed.

Lemma SFcompare_antisym (x y : spec_float) :
  SFcompare y x = option_map CompOpp (SFcompare x y).
Proof.
  destruct x as [sx|sx| |sx mx ex], y as [sy|sy| |sy my ey]; simpl;
    try reflexivity;
    try (destruct sx; reflexivity); try (destruct sy; reflexivity);
    try (destruct sx, sy; reflexivity).
  rewrite (Z.compare_antisym ex ey).
  change (Pos.compare_cont Eq my mx)
    with (Pos.compare_cont (CompOpp Eq) my mx).
  rewrite <- (Pos.compare_cont_antisym mx my Eq).
  destruct sx, sy; simpl; try reflexivity;
    destruct (ex ?= ey)%Z; simpl; try reflexivity;
    now rewrite ?CompOpp_involutive.
Qed.

Lemma SFcompare_nan_iff (x y : spec_float) :
  SFcompare x y = None <-> x = S754_nan \/ y = S754_nan.
Proof.
  destruct x as [sx|sx| |sx mx ex], y as [sy|sy| |sy my ey]; simpl;
    split; intros H; try discriminate; auto;
    try (destruct H; discriminate).
Qed.

Lemma is_nan_spec (x : float) : is_nan x = true <-> Prim2SF x = S754_nan.
Proof.
  unfold is_nan. rewrite eqb_spec. unfold SFeqb.
  destruct (Prim2SF x) as [s|s| |s m e] eqn:E.
  4: rewrite SFcompare_refl by discriminate.
  all: simpl; try (destruct s); simpl; split; congruence.
Qed.

Lemma is_nan_false (x : float) : is_nan x = false <-> Prim2SF x <> S754_nan.
Proof.
  rewrite <- is_nan_spec. destruct (is_nan x); split; congruence.
Qed.

(** Away from NaN the order is total: [x <= y] is the negation of [y < x]. *)
Lemma leb_negb_ltb (x y : float) :
  is_nan x = false -> is_nan y = false -> (x <=? y) = negb (y <? x).
Proof.
  rewrite !is_nan_false, leb_spec, ltb_spec. intros Hx Hy.
  unfold SFleb, SFltb. rewrite (SFcompare_antisym (Prim2SF x) (Prim2SF y)).
  destruct (SFcompare (Prim2SF x) (Prim2SF y)) as [[ | | ]|] eqn:E;
    try reflexivity.
  apply SFcompare_nan_iff in E. tauto.
Qed.

(** *** Negation commutes with products and quotients *)

Lemma xorb_negb_l (a b : bool) : xorb (negb a) b = negb (xorb a b).
Proof. now destruct a, b. Qed.

Lemma xorb_negb_r (a b : bool) : xorb a (negb b) = negb (xorb a b).
Proof. now destruct a, b. Qed.

Lemma SFmul_opp_l (x y : spec_float) :
  SF64mul (SFopp x) y = SFopp (SF64mul x y).
Proof.
  destruct x as [sx|sx| |sx mx ex], y as [sy|sy| |sy my ey]; simpl;
    rewrite ?xorb_negb_l; try reflexivity.
  apply rnd_aux_opp.
Qed.

Lemma SFmul_opp_r (x y : spec_float) :
  SF64mul x (SFopp y) = SFopp (SF64mul x y).
Proof.
  destruct x as [sx|sx| |sx mx ex], y as [sy|sy| |sy my ey]; simpl;
    rewrite ?xorb_negb_r; try reflexivity.
  apply rnd_aux_opp.
Qed.

Lemma SFdiv_opp_l (x y : spec_float) :
  SF64div (SFopp x) y = SFopp (SF64div x y).
Proof.
  destruct x as [sx|sx| |sx mx ex], y as [sy|sy| |sy my ey]; simpl;
    rewrite ?xorb_negb_l; try reflexivity.
  destruct (SFdiv_core_binary prec emax (Z.pos mx) ex (Z.pos my) ey)
    as [[mz ez] lz].
  apply rnd_aux_opp.
Qed.

Lemma SFopp_involutive (x : spec_float) : SFopp (SFopp x) = x.
Proof. destruct x as [s|s| |s m e]; simpl; now rewrite ?negb_involutive. Qed.

Lemma mul_opp_l (x y : float) : (- x) * y = - (x * y).
Proof.
  apply Prim2SF_inj. now rewrite mul_spec, !opp_spec, mul_spec, SFmul_opp_l.
Qed.

Lemma mul_opp_r (x y : float) : x * (- y) = - (x * y).
Proof.
  apply Prim2SF_inj. now rewrite mul_spec, !opp_spec, mul_spec, SFmul_opp_r.
Qed.

Lemma mul_opp_opp (x y : float) : (- x) * (- y) = x * y.
Proof.
  rewrite mul_opp_l, mul_opp_r. apply Prim2SF_inj.
  now rewrite !opp_spec, SFopp_involutive.
Qed.

Lemma div_opp_l (x y : float) : (- x) / y = - (x / y).
Proof.
  apply Prim2SF_inj. now rewrite div_spec, !opp_spec, div_spec, SFdiv_opp_l.
Qed.

(** *** Binary digits *)

Lemma digits2_pos_bounds (m : positive) :
  (2 ^ (Z.pos (digits2_pos m) - 1) <= Z.pos m < 2 ^ Z.pos (digits2_pos m))%Z.
Proof.
  induction m as [m IH|m IH|]; simpl digits2_pos.
  - rewrite Pos2Z.inj_succ.
    change (Z.pos m~1) with (2 * Z.pos m + 1)%Z.
    replace (Z.succ (Z.pos (digits2_pos m)) - 1)%Z
      with (Z.succ (Z.pos (digits2_pos m) - 1)) by lia.
    rewrite !Z.pow_succ_r by lia. lia.
  - rewrite Pos2Z.inj_succ.
    change (Z.pos m~0) with (2 * Z.pos m)%Z.
    replace (Z.succ (Z.pos (digits2_pos m)) - 1)%Z
      with (Z.succ (Z.pos (digits2_pos m) - 1)) by lia.
    rewrite !Z.pow_succ_r by lia. lia.
  - simpl. lia.
Qed.

Lemma iter_xO_value (p k : positive) :
  Z.pos (Pos.iter xO p k) = (Z.pos p * 2 ^ Z.pos k)%Z.
Proof.
  induction k as [|k IH] using Pos.peano_ind.
  - simpl. lia.
  - rewrite Pos.iter_succ, Pos2Z.inj_xO, IH, Pos2Z.inj_succ,
      Z.pow_succ_r by lia. lia.
Qed.

Lemma iter_xO_digits (p k : positive) :
  digits2_pos (Pos.iter xO p k) = (digits2_pos p + k)%positive.
Proof.
  induction k as [|k IH] using Pos.peano_ind.
  - simpl. lia.
  - rewrite Pos.iter_succ. simpl. rewrite IH. lia.
Qed.

Lemma fexp_normal (d : Z) : (-1021 <= d)%Z -> fexp prec emax d = (d - 53)%Z.
Proof. unfold fexp, emin, prec, emax. lia. Qed.

Lemma bounded_canonical (m : positive) (e : Z) :
  bounded prec emax m e = true ->
  fexp prec emax (Z.pos (digits2_pos m) + e) = e /\ (e <= emax - prec)%Z.
Proof.
  unfold bounded, canonical_mantissa.
  rewrite andb_true_iff, Z.eqb_eq, Z.leb_le. tauto.
Qed.

(** A finite float has at most 53 binary digits. *)
Lemma bounded_digits (m : positive) (e : Z) :
  bounded prec emax m e = true -> (Z.pos (digits2_pos m) <= 53)%Z.
Proof.
  intros Hb. destruct (bounded_canonical m e Hb) as [Hc _].
  revert Hc. unfold fexp, emin, prec, emax. lia.
Qed.

Lemma bounded_lt_2p53 (m : positive) (e : Z) :
  bounded prec emax m e = true -> (Z.pos m < 2 ^ 53)%Z.
Proof.
  intros Hb. pose proof (bounded_digits m e Hb) as Hd.
  pose proof (digits2_pos_bounds m) as [_ Hm].
  eapply Z.lt_le_trans; [exact Hm|].
  apply Z.pow_le_mono_r; lia.
Qed.

(** *** Integers below 2^53 convert exactly *)

Lemma rnd_aux_full (s : bool) (m : positive) (e : Z) :
  Z.pos (digits2_pos m) = 53%Z -> (-1074 <= e <= 971)%Z ->
  rnd_aux s (Z.pos m) e loc_Exact = S754_finite s m e.
Proof.
  intros Hd He.
  assert (Hf : (fexp prec emax (Z.pos (digits2_pos m) + e) - e = 0)%Z).
  { rewrite Hd. unfold fexp, emin, prec, emax. lia. }
  unfold rnd_aux, binary_round_aux, shr_fexp.
  cbn [Zdigits2]. rewrite Hf. cbn -[fexp Z.leb Z.sub Z.add prec emax].
  rewrite Hf. cbn -[Z.leb Z.sub prec emax].
  replace (e <=? emax - prec)%Z with true; [reflexivity|].
  symmetry. apply Z.leb_le. unfold emax, prec. lia.
Qed.

Lemma Prim2SF_of_Z (n : Z) :
  (0 < n < 2 ^ 53)%Z ->
  exists (m : positive) (e : Z),
    Prim2SF (of_Z n) = S754_finite false m e /\
    (-52 <= e <= 0)%Z /\ Z.pos m = (n * 2 ^ (- e))%Z.
Proof.
  intros Hn. unfold of_Z.
  rewrite of_uint63_spec, Uint63.of_Z_spec.
  rewrite Z.mod_small
    by (split; [lia|]; eapply Z.lt_trans; [apply Hn|]; reflexivity).
  destruct n as [|p|p]; try lia. cbn [binary_normalize].
  unfold binary_round, shl_align.
  pose proof (digits2_pos_bounds p) as [Hlo Hhi].
  set (d := Z.pos (digits2_pos p)) in *.
  assert (Hd : (1 <= d <= 53)%Z).
  { split; [subst d; lia|].
    destruct (Z_le_gt_dec d 53) as [H|H]; [exact H|exfalso].
    assert (2 ^ 53 <= 2 ^ (d - 1))%Z by (apply Z.pow_le_mono_r; lia). lia. }
  rewrite Z.add_0_r, fexp_normal by lia. rewrite Z.sub_0_r.
  destruct (d - 53)%Z as [|q|q] eqn:Eq; try lia.
  - exists p, 0%Z. split; [|split; [lia|simpl; lia]].
    apply rnd_aux_full; [fold d; lia|lia].
  - exists (Pos.iter xO p q), (Z.neg q). split; [|split; [lia|]].
    + apply rnd_aux_full; [|lia].
      rewrite iter_xO_digits, Pos2Z.inj_add. fold d. lia.
    + rewrite iter_xO_value. reflexivity.
Qed.

Lemma Prim2SF_of_Z_0 : Prim2SF (of_Z 0) = S754_zero false.
Proof. reflexivity. Qed.

(** *** Multiplying by one *)

Lemma iter_pos_iter {A : Type} (f : A -> A) (p : positive) :
  forall x, iter_pos f p x = Pos.iter f x p.
Proof.
  induction p as [p IH|p IH|]; intros x; simpl; try reflexivity.
  - now rewrite !IH, !Pos.iter_swap.
  - now rewrite !IH.
Qed.

(** Shifting right what was shifted left by as much is exact. *)
Lemma iter_shr_1_xO (m k : positive) :
  iter_pos shr_1 k
    {| shr_m := Z.pos (Pos.iter xO m k); shr_r := false; shr_s := false |}
  = {| shr_m := Z.pos m; shr_r := false; shr_s := false |}.
Proof.
  rewrite iter_pos_iter.
  induction k as [|k IH] using Pos.peano_ind.
  - reflexivity.
  - rewrite Pos.iter_succ_r, Pos.iter_succ. exact IH.
Qed.

Lemma mul_2p52_iter (m : positive) :
  (m * 4503599627370496)%positive = Pos.iter xO m 52.
Proof.
  apply Pos2Z.inj. rewrite iter_xO_value, Pos2Z.inj_mul. reflexivity.
Qed.

Lemma rnd_aux_times_2p52 (s : bool) (m : positive) (e : Z) :
  bounded prec emax m e = true ->
  rnd_aux s (Z.pos (m * 4503599627370496)) (e + -52) loc_Exact
  = S754_finite s m e.
Proof.
  intros Hb. destruct (bounded_canonical m e Hb) as [Hc He].
  rewrite mul_2p52_iter.
  unfold rnd_aux, binary_round_aux, shr_fexp.
  cbn [Zdigits2]. rewrite iter_xO_digits, Pos2Z.inj_add.
  replace (Z.pos (digits2_pos m) + 52 + (e + -52))%Z
    with (Z.pos (digits2_pos m) + e)%Z by lia.
  rewrite Hc.
  replace (e - (e + -52))%Z with 52%Z by lia.
  cbn [shr shr_record_of_loc]. rewrite iter_shr_1_xO.
  cbn [shr_m loc_of_shr_record round_nearest_even Zdigits2].
  replace (e + -52 + 52)%Z with e by lia.
  rewrite Hc, Z.sub_diag. cbn [shr shr_record_of_loc shr_m].
  apply Z.leb_le in He. now rewrite He.
Qed.

Lemma mul_1_r (x : float) : x * 1 = x.
Proof.
  apply Prim2SF_inj. rewrite mul_spec, Prim2SF_one.
  pose proof (Prim2SF_valid x) as Hv.
  destruct (Prim2SF x) as [s|s| |s m e]; simpl;
    rewrite ?xorb_false_r; try reflexivity.
  now apply rnd_aux_times_2p52.
Qed.

(** *** [Math.ceil] *)

(** The quotients [Math_ceil] converts stay below 2^53. *)
Lemma ceil_quotient_up (m : positive) (e : Z) :
  bounded prec emax m e = true -> (e < 0)%Z ->
  (0 < (Z.pos m + 2 ^ (- e) - 1) / 2 ^ (- e) < 2 ^ 53)%Z.
Proof.
  intros Hb He. pose proof (bounded_lt_2p53 m e Hb) as Hm.
  assert (Hd : (0 < 2 ^ (- e))%Z) by (apply Z.pow_pos_nonneg; lia).
  split.
  - apply Z.lt_le_trans with 1%Z; [lia|].
    apply Z.div_le_lower_bound; lia.
  - apply Z.div_lt_upper_bound; [lia|]. nia.
Qed.

Lemma ceil_quotient_down (m : positive) (e : Z) :
  bounded prec emax m e = true -> (e < 0)%Z ->
  (0 <= Z.pos m / 2 ^ (- e) < 2 ^ 53)%Z.
Proof.
  intros Hb He. pose proof (bounded_lt_2p53 m e Hb) as Hm.
  assert (Hd : (0 < 2 ^ (- e))%Z) by (apply Z.pow_pos_nonneg; lia).
  split.
  - apply Z.div_pos; lia.
  - apply Z.div_lt_upper_bound; [lia|]. nia.
Qed.

(** An integer below 2^53, of either sign, is its own ceiling. *)
Lemma Math_ceil_of_Z (n : Z) :
  (0 <= n < 2 ^ 53)%Z -> Math_ceil (of_Z n) = of_Z n.
Proof.
  intros Hn. destruct (Z.eq_dec n 0) as [->|Hn0]; [reflexivity|].
  destruct (Prim2SF_of_Z n) as (m & e & E & He & Hm); [lia|].
  unfold Math_ceil. rewrite E.
  destruct (0 <=? e)%Z eqn:E0; [reflexivity|]. apply Z.leb_gt in E0.
  assert (Hd : (0 < 2 ^ (- e))%Z) by (apply Z.pow_pos_nonneg; lia).
  f_equal. rewrite Hm.
  replace (n * 2 ^ (- e) + 2 ^ (- e) - 1)%Z
    with (n * 2 ^ (- e) + (2 ^ (- e) - 1))%Z by lia.
  rewrite Z.div_add_l, Z.div_small by lia. lia.
Qed.

Lemma Math_ceil_opp_of_Z (n : Z) :
  (0 <= n < 2 ^ 53)%Z -> Math_ceil (- of_Z n) = - of_Z n.
Proof.
  intros Hn. destruct (Z.eq_dec n 0) as [->|Hn0]; [reflexivity|].
  destruct (Prim2SF_of_Z n) as (m & e & E & He & Hm); [lia|].
  unfold Math_ceil. rewrite opp_spec, E. cbn [SFopp negb].
  destruct (0 <=? e)%Z eqn:E0; [reflexivity|]. apply Z.leb_gt in E0.
  assert (Hd : (0 < 2 ^ (- e))%Z) by (apply Z.pow_pos_nonneg; lia).
  do 2 f_equal. rewrite Hm, Z.div_mul by lia. reflexivity.
Qed.

(** What [Math_ceil] can return. *)
Lemma Math_ceil_cases (x : float) :
  Math_ceil x = x \/
  (exists n, (0 < n < 2 ^ 53)%Z /\ Math_ceil x = of_Z n) \/
  (exists n, (0 <= n < 2 ^ 53)%Z /\ Math_ceil x = - of_Z n).
Proof.
  unfold Math_ceil. pose proof (Prim2SF_valid x) as Hv.
  destruct (Prim2SF x) as [s|s| |s m e]; auto.
  cbn [valid_binary] in Hv.
  destruct (0 <=? e)%Z eqn:E0; auto. apply Z.leb_gt in E0.
  destruct s.
  - right; right. eexists; split; [|reflexivity].
    now apply ceil_quotient_down.
  - right; left. eexists; split; [|reflexivity].
    now apply ceil_quotient_up.
Qed.

Lemma Math_ceil_idempotent (x : float) :
  Math_ceil (Math_ceil x) = Math_ceil x.
Proof.
  destruct (Math_ceil_cases x) as [H|[(n & Hn & H)|(n & Hn & H)]];
    rewrite H.
  - exact H.
  - apply Math_ceil_of_Z. lia.
  - now apply Math_ceil_opp_of_Z.
Qed.

Lemma one_leb_of_Z (n : Z) : (0 < n < 2 ^ 53)%Z -> (1 <=? of_Z n) = true.
Proof.
  intros Hn. destruct (Prim2SF_of_Z n Hn) as (m & e & E & He & Hm).
  rewrite leb_spec, Prim2SF_one, E. unfold SFleb. cbn [SFcompare].
  destruct (Z.compare_spec (-52) e) as [<-|H|H]; try reflexivity; [|lia].
  change (Pos.compare_cont Eq 4503599627370496 m)
    with (4503599627370496 ?= m)%positive.
  destruct (Pos.compare_spec 4503599627370496 m) as [H|H|H];
    try reflexivity.
  exfalso.
  assert (H' : (Z.pos m < 4503599627370496)%Z) by exact H. clear H.
  change (2 ^ (- -52))%Z with 4503599627370496%Z in Hm. lia.
Qed.

(** The ceiling of a positive number is at least one. *)
Lemma Math_ceil_positive (x : float) :
  (0 <? x) = true -> (1 <=? Math_ceil x) = true.
Proof.
  rewrite ltb_spec, Prim2SF_zero. intros Hx.
  pose proof (Prim2SF_valid x) as Hv.
  unfold Math_ceil.
  destruct (Prim2SF x) as [s|s| |s m e] eqn:E; try discriminate.
  - destruct s; [discriminate|].
    rewrite leb_spec, E. reflexivity.
  - destruct s; [discriminate|]. cbn [valid_binary] in Hv.
    destruct (0 <=? e)%Z eqn:E0.
    + apply Z.leb_le in E0. rewrite leb_spec, E, Prim2SF_one.
      unfold SFleb. cbn [SFcompare].
      destruct (Z.compare_spec (-52) e); try reflexivity; lia.
    + apply Z.leb_gt in E0. apply one_leb_of_Z.
      now apply ceil_quotient_up.
Qed.

(** *** Numbers at or below zero, at or above one *)

Lemma binary_round_signed (s : bool) (m : positive) (e : Z) :
  signed s (binary_round prec emax s m e).
Proof.
  unfold binary_round. destruct (shl_align m e _) as [mz ez].
  apply rnd_aux_signed. lia.
Qed.

Lemma binary_normalize_nonpositive (m e : Z) :
  (m <= 0)%Z -> nonpositive (binary_normalize prec emax m e false).
Proof.
  intros Hm. destruct m as [|p|p]; try lia; cbn [binary_normalize].
  - left. now exists false.
  - right. apply binary_round_signed.
Qed.

Lemma nonpositive_cases (x : float) :
  nonpositive (Prim2SF x) -> (x <? 0) = true \/ (x =? 0) = true.
Proof.
  rewrite ltb_spec, eqb_spec, Prim2SF_zero.
  intros [[s E]|H].
  - right. now rewrite E.
  - destruct (Prim2SF x); inversion H; subst;
      [right|left|left]; reflexivity.
Qed.

Lemma leb_0_nonpositive (x : float) :
  (x <=? 0) = true -> nonpositive (Prim2SF x).
Proof.
  rewrite leb_spec, Prim2SF_zero.
  destruct (Prim2SF x) as [s|s| |s m e]; cbn; intros H;
    try discriminate.
  - left. now exists s.
  - destruct s; [right; constructor|discriminate].
  - destruct s; [right; constructor|discriminate].
Qed.

(** The numbers at or above one: plus infinity, and the finite ones whose
    exponent and mantissa reach those of one. *)
Lemma one_leb_cases (x : float) :
  (1 <=? x) = true ->
  Prim2SF x = S754_infinity false \/
  exists m e, Prim2SF x = S754_finite false m e /\
    ((-52 < e)%Z \/ (e = (-52)%Z /\ (4503599627370496 <= Z.pos m)%Z)).
Proof.
  rewrite leb_spec, Prim2SF_one.
  destruct (Prim2SF x) as [s|s| |s m e];
    cbn -[Z.compare Pos.compare_cont]; intros H; try discriminate.
  - destruct s; [discriminate|now left].
  - destruct s; [discriminate|]. right. exists m, e. split; [reflexivity|].
    destruct (Z.compare_spec (-52) e) as [He|He|He];
      [|now left|discriminate].
    right. split; [now symmetry|].
    change (Pos.compare_cont Eq 4503599627370496 m)
      with (4503599627370496 ?= m)%positive in H.
    destruct (Pos.compare_spec 4503599627370496 m) as [Hm|Hm|Hm];
      try discriminate.
    + rewrite <- Hm. apply Z.le_refl.
    + apply Z.lt_le_incl. exact Hm.
Qed.

(** Above the subnormal range a mantissa has all its 53 digits. *)
Lemma bounded_normal (m : positive) (e : Z) :
  bounded prec emax m e = true -> (-1074 < e)%Z ->
  (2 ^ 52 <= Z.pos m)%Z.
Proof.
  intros Hb He. destruct (bounded_canonical m e Hb) as [Hc _].
  pose proof (digits2_pos_bounds m) as [Hlo _].
  replace (Z.pos (digits2_pos m)) with 53%Z in Hlo; [exact Hlo|].
  revert Hc. unfold fexp, emin, prec, emax. lia.
Qed.

Lemma one_minus_nonpositive (x : float) :
  (1 <=? x) = true -> nonpositive (Prim2SF (1 - x)).
Proof.
  intros H. rewrite sub_spec, Prim2SF_one.
  pose proof (Prim2SF_valid x) as Hv.
  destruct (one_leb_cases x H) as [E|(m & e & E & He)]; rewrite E in *.
  - right. constructor.
  - cbn [valid_binary] in Hv.
    unfold SF64sub, SFsub. apply binary_normalize_nonpositive.
    cbn [cond_Zopp].
    replace (Z.min (-52) e) with (-52)%Z by lia.
    unfold shl_align. rewrite Z.sub_diag. cbn [fst].
    destruct He as [He|[-> Hm]].
    + pose proof (bounded_normal m e Hv ltac:(lia)) as Hn.
      destruct (-52 - e)%Z as [|q|q] eqn:Eq; try lia. cbn [fst].
      rewrite iter_xO_value.
      change (2 ^ 52)%Z with 4503599627370496%Z in Hn.
      assert (0 < 2 ^ Z.pos q)%Z by (apply Z.pow_pos_nonneg; lia).
      nia.
    + change (-52 - -52)%Z with 0%Z. cbn [fst]. lia.
Qed.

(** *** Finite and non-finite numbers *)

Lemma is_finite_spec (x : float) : is_finite x = SFfinite (Prim2SF x).
Proof.
  unfold is_finite, is_infinity. rewrite eqb_spec, abs_spec.
  destruct (Prim2SF x) as [s|s| |s m e] eqn:E.
  - replace (is_nan x) with false; [reflexivity|].
    symmetry. apply is_nan_false. congruence.
  - replace (is_nan x) with false; [reflexivity|].
    symmetry. apply is_nan_false. congruence.
  - replace (is_nan x) with true; [reflexivity|].
    symmetry. now apply is_nan_spec.
  - replace (is_nan x) with false; [reflexivity|].
    symmetry. apply is_nan_false. congruence.
Qed.

Lemma SFmul_nonfinite_l (x y : spec_float) :
  SFfinite x = false -> SFfinite (SF64mul x y) = false.
Proof.
  destruct x as [sx|sx| |sx mx ex], y as [sy|sy| |sy my ey];
    simpl; congruence.
Qed.

Lemma SFdiv_nonfinite_l (x y : spec_float) :
  SFfinite x = false -> SFfinite (SF64div x y) = false.
Proof.
  destruct x as [sx|sx| |sx mx ex], y as [sy|sy| |sy my ey];
    simpl; congruence.
Qed.

Lemma SFadd_nonfinite_l (x y : spec_float) :
  SFfinite x = false -> SFfinite (SF64add x y) = false.
Proof.
  destruct x as [sx|sx| |sx mx ex], y as [sy|sy| |sy my ey];
    simpl; try congruence.
  destruct sx, sy; reflexivity.
Qed.

Lemma SFdiv_by_zero (x : spec_float) (s : bool) :
  SFfinite (SF64div x (S754_zero s)) = false.
Proof. destruct x as [sx|sx| |sx mx ex]; reflexivity. Qed.

Lemma mul_nonfinite_l (x y : float) :
  is_finite x = false -> is_finite (x * y) = false.
Proof. rewrite !is_finite_spec, mul_spec. apply SFmul_nonfinite_l. Qed.

Lemma div_nonfinite_l (x y : float) :
  is_finite x = false -> is_finite (x / y) = false.
Proof. rewrite !is_finite_spec, div_spec. apply SFdiv_nonfinite_l. Qed.

Lemma add_nonfinite_l (x y : float) :
  is_finite x = false -> is_finite (x + y) = false.
Proof. rewrite !is_finite_spec, add_spec. apply SFadd_nonfinite_l. Qed.

Lemma div_by_zero_nonfinite (x : float) : is_finite (x / 0) = false.
Proof. rewrite is_finite_spec, div_spec, Prim2SF_zero. apply SFdiv_by_zero. Qed.

Lemma Math_ceil_nonfinite (x : float) :
  is_finite x = false -> Math_ceil x = x.
Proof.
  rewrite is_finite_spec. unfold Math_ceil.
  destruct (Prim2SF x) as [s|s| |s m e]; simpl; congruence.
Qed.

(** *** Operations that cannot produce NaN *)

Lemma signed_not_nan (s : bool) (x : spec_float) :
  signed s x -> x <> S754_nan.
Proof. intros H E. rewrite E in H. inversion H. Qed.

Lemma SFdiv_core_nonneg (m1 m2 : positive) (e1 e2 : Z) :
  (0 <= fst (fst (SFdiv_core_binary prec emax (Z.pos m1) e1 (Z.pos m2) e2)))%Z.
Proof.
  unfold SFdiv_core_binary.
  set (s := (e1 - e2 - _)%Z).
  set (m' := match s with
             | 0%Z => Z.pos m1
             | Z.pos _ => Z.shiftl (Z.pos m1) s
             | Z.neg _ => 0%Z
             end).
  assert (Hm : (0 <= m')%Z).
  { subst m'. destruct s; try lia. apply Z.shiftl_nonneg. lia. }
  pose proof (Z.div_pos m' (Z.pos m2) Hm ltac:(lia)) as Hq.
  unfold Z.div in Hq.
  destruct (Z.div_eucl m' (Z.pos m2)) as [q r]. exact Hq.
Qed.

(** A quotient by a finite non-zero number is NaN only if the dividend is. *)
Lemma div_finite_not_nan (x y : float) (s : bool) (m : positive) (e : Z) :
  Prim2SF y = S754_finite s m e ->
  is_nan x = false -> is_nan (x / y) = false.
Proof.
  rewrite !is_nan_false, div_spec. intros -> Hx.
  destruct (Prim2SF x) as [sx|sx| |sx mx ex]; simpl; try congruence.
  pose proof (SFdiv_core_nonneg mx m ex e) as Hq.
  destruct (SFdiv_core_binary prec emax (Z.pos mx) ex (Z.pos m) e)
    as [[mz ez] lz].
  apply (signed_not_nan (xorb sx s)), rnd_aux_signed. exact Hq.
Qed.

Lemma binary_normalize_not_nan (m e : Z) (s : bool) :
  binary_normalize prec emax m e s <> S754_nan.
Proof.
  destruct m as [|p|p]; cbn [binary_normalize]; try discriminate.
  - apply (signed_not_nan false), binary_round_signed.
  - apply (signed_not_nan true), binary_round_signed.
Qed.

(** A sum with a finite non-zero number is NaN only if the other term is. *)
Lemma add_finite_not_nan (x y : float) (s : bool) (m : positive) (e : Z) :
  Prim2SF x = S754_finite s m e ->
  is_nan y = false -> is_nan (x + y) = false.
Proof.
  rewrite !is_nan_false, add_spec. intros -> Hy.
  destruct (Prim2SF y) as [sy|sy| |sy my ey]; simpl; try congruence.
  apply binary_normalize_not_nan.
Qed.

(** A product with a finite non-zero number is NaN only if the other
    factor is. *)
Lemma mul_finite_not_nan (x y : float) (s : bool) (m : positive) (e : Z) :
  Prim2SF x = S754_finite s m e ->
  is_nan y = false -> is_nan (x * y) = false.
Proof.
  rewrite !is_nan_false, mul_spec. intros -> Hy.
  destruct (Prim2SF y) as [sy|sy| |sy my ey]; simpl; try congruence.
  apply (signed_not_nan (xorb s sy)), rnd_aux_signed. lia.
Qed.

(** A number strictly between zero and one is finite and not zero. *)
Lemma strictly_inside_unit_finite (x : float) :
  strictly_inside_unit x = true ->
  exists m e, Prim2SF x = S754_finite false m e.
Proof.
  unfold strictly_inside_unit.
  rewrite andb_true_iff, !ltb_spec, Prim2SF_zero, Prim2SF_one.
  destruct (Prim2SF x) as [s|s| |s m e];
    cbn -[Z.compare Pos.compare_cont]; intros [H0 H1]; try discriminate.
  - destruct s; discriminate.
  - destruct s; [discriminate|]. now exists m, e.
Qed.

(** *** Further facts used for [normalInverse] *)

Lemma opp_involutive (x : float) : - - x = x.
Proof. apply Prim2SF_inj. now rewrite !opp_spec, SFopp_involutive. Qed.

Lemma sub_nan_r (x : float) : x - nan = nan.
Proof.
  apply Prim2SF_inj. rewrite sub_spec, Prim2SF_nan.
  now destruct (Prim2SF x).
Qed.

Lemma leb_nan_l (x : float) : (nan <=? x) = false.
Proof. rewrite leb_spec, Prim2SF_nan. reflexivity. Qed.

Lemma same_value_eq (x y : float) : same_value x y = true -> x = y.
Proof. apply Leibniz.eqb_spec. Qed.

Lemma Prim2SF_pLow : Prim2SF pLow = S754_finite false 6989586621679010 (-58).
Proof. reflexivity. Qed.

Lemma Prim2SF_pHigh :
  Prim2SF pHigh = S754_finite false 8788774672813523 (-53).
Proof. reflexivity. Qed.

(** At or below zero is below the lower break-point. *)
Lemma nonpositive_ltb_pLow (p : float) :
  nonpositive (Prim2SF p) -> (p <? pLow) = true.
Proof.
  rewrite ltb_spec, Prim2SF_pLow. intros [[s E]|H].
  - now rewrite E.
  - destruct (Prim2SF p); inversion H; reflexivity.
Qed.

(** At or above one is neither below the lower break-point nor at or below
    the upper one. *)
Lemma one_leb_above_breakpoints (p : float) :
  (1 <=? p) = true -> (p <? pLow) = false /\ (p <=? pHigh) = false.
Proof.
  intros H. rewrite ltb_spec, leb_spec, Prim2SF_pLow, Prim2SF_pHigh.
  destruct (one_leb_cases p H) as [E|(m & e & E & He)]; rewrite E.
  - split; reflexivity.
  - unfold SFltb, SFleb. cbn [SFcompare].
    assert (H58 : (e ?= -58)%Z = Gt) by (apply Z.compare_gt_iff; lia).
    assert (H53 : (e ?= -53)%Z = Gt) by (apply Z.compare_gt_iff; lia).
    rewrite H58, H53. split; reflexivity.
Qed.

End F64.


(** ** Exact subtractions

    Between one half and one the reflection [p |-> 1 - p] is computed
    without rounding error; the facts below follow it through the
    specification of the subtraction. *)

Module Reflect.

Import F64.
#[local] Close Scope float_scope.
#[local] Open Scope Z_scope.

(** A mantissa of at most 53 digits is shifted left to 53 digits. *)
Lemma binary_round_short (s : bool) (d : positive) (e : Z) :
  Z.pos (digits2_pos d) <= 53 ->
  -1021 <= Z.pos (digits2_pos d) + e <= 1024 ->
  exists m : positive,
    binary_round prec emax s d e
    = S754_finite s m (Z.pos (digits2_pos d) + e - 53) /\
    Z.pos m = Z.pos d * 2 ^ (53 - Z.pos (digits2_pos d)) /\
    Z.pos (digits2_pos m) = 53.
Proof.
  intros Hd He. unfold binary_round, shl_align.
  set (n := Z.pos (digits2_pos d)) in *.
  rewrite fexp_normal by lia.
  replace (n + e - 53 - e) with (n - 53) by lia.
  destruct (n - 53) as [|q|q] eqn:Eq; try lia.
  - exists d. replace (n + e - 53) with e by lia.
    split; [|split].
    + apply rnd_aux_full; [fold n; lia|lia].
    + replace (53 - n) with 0 by lia. simpl. lia.
    + fold n. lia.
  - exists (Pos.iter xO d q). split; [|split].
    + apply rnd_aux_full; [|lia].
      rewrite iter_xO_digits, Pos2Z.inj_add. fold n. lia.
    + rewrite iter_xO_value. f_equal. f_equal. lia.
    + rewrite iter_xO_digits, Pos2Z.inj_add. fold n. lia.
Qed.

(** A 53-digit mantissa followed by zeros is shifted right exactly. *)
Lemma binary_round_long (s : bool) (w r : positive) (e : Z) :
  Z.pos (digits2_pos w) = 53 ->
  -1074 <= e + Z.pos r <= 971 ->
  binary_round prec emax s (Pos.iter xO w r) e
  = S754_finite s w (e + Z.pos r).
Proof.
  intros Hw He. unfold binary_round, shl_align.
  rewrite iter_xO_digits, Pos2Z.inj_add, Hw.
  rewrite fexp_normal by lia.
  replace (53 + Z.pos r + e - 53 - e) with (Z.pos r) by lia.
  change (binary_round_aux prec emax) with rnd_aux.
  unfold rnd_aux, binary_round_aux, shr_fexp.
  cbn [Zdigits2]. rewrite iter_xO_digits, Pos2Z.inj_add, Hw.
  rewrite fexp_normal by lia.
  replace (53 + Z.pos r + e - 53 - e) with (Z.pos r) by lia.
  cbn [shr shr_record_of_loc]. rewrite iter_shr_1_xO.
  cbn [shr_m loc_of_shr_record round_nearest_even Zdigits2].
  rewrite Hw, fexp_normal by lia.
  replace (53 + (e + Z.pos r) - 53 - (e + Z.pos r)) with 0 by lia.
  cbn [shr shr_record_of_loc shr_m].
  replace (e + Z.pos r <=? emax - prec) with true; [reflexivity|].
  symmetry. apply Z.leb_le. unfold emax, prec. lia.
Qed.

Lemma pos_eq_iter_xO (q w k : positive) :
  Z.pos q = Z.pos w * 2 ^ Z.pos k -> q = Pos.iter xO w k.
Proof. intros H. apply Pos2Z.inj. now rewrite iter_xO_value. Qed.

(** Rounding a value that a 53-digit mantissa represents returns that
    representation; [c] is any exponent below both. *)
Lemma binary_round_canonical (s : bool) (q w : positive) (e e' c : Z) :
  Z.pos (digits2_pos w) = 53 -> -1074 <= e' <= 971 ->
  c <= e -> c <= e' ->
  Z.pos q * 2 ^ (e - c) = Z.pos w * 2 ^ (e' - c) ->
  binary_round prec emax s q e = S754_finite s w e'.
Proof.
  intros Hw He' Hc Hc' Hv.
  assert (Hpos : 0 < 2 ^ (Z.min e e' - c)) by (apply Z.pow_pos_nonneg; lia).
  destruct (Z_le_gt_dec e' e) as [Hle|Hgt].
  - (* the mantissa is short: [w = q * 2 ^ (e - e')] *)
    assert (Hq : Z.pos w = Z.pos q * 2 ^ (e - e')).
    { replace (e - c) with ((e - e') + (e' - c)) in Hv by lia.
      rewrite Z.pow_add_r, Z.mul_assoc in Hv by lia.
      apply Z.mul_reg_r in Hv; [now symmetry|].
      replace (Z.min e e') with e' in Hpos by lia. lia. }
    assert (Hd : Z.pos (digits2_pos q) + (e - e') = 53).
    { destruct (e - e') as [|k|k] eqn:Ek; try lia.
      - rewrite Z.mul_1_r in Hq. apply Pos2Z.inj in Hq. subst w. lia.
      - apply pos_eq_iter_xO in Hq. subst w.
        rewrite iter_xO_digits, Pos2Z.inj_add in Hw. lia. }
    destruct (binary_round_short s q e) as (m & E & Hm & _); try lia.
    rewrite E. f_equal; [|lia].
    apply Pos2Z.inj. rewrite Hm, Hq. do 2 f_equal. lia.
  - (* the mantissa is long: [q = w * 2 ^ (e' - e)] *)
    assert (Hq : Z.pos q = Z.pos w * 2 ^ (e' - e)).
    { replace (e' - c) with ((e' - e) + (e - c)) in Hv by lia.
      rewrite Z.pow_add_r, Z.mul_assoc in Hv by lia.
      apply Z.mul_reg_r in Hv; [exact Hv|].
      replace (Z.min e e') with e in Hpos by lia. lia. }
    destruct (e' - e) as [|r|r] eqn:Er; try lia.
    apply pos_eq_iter_xO in Hq. subst q.
    replace e' with (e + Z.pos r) by lia.
    apply binary_round_long; [exact Hw|lia].
Qed.

Lemma binary_round_opp (s : bool) (m : positive) (e : Z) :
  binary_round prec emax (negb s) m e = SFopp (binary_round prec emax s m e).
Proof.
  unfold binary_round. destruct (shl_align m e _) as [mz ez].
  apply rnd_aux_opp.
Qed.

Lemma digits_le (d : positive) (n : Z) :
  0 <= n -> Z.pos d < 2 ^ n -> Z.pos (digits2_pos d) <= n.
Proof.
  intros Hn Hd. pose proof (digits2_pos_bounds d) as [Hlo _].
  destruct (Z_le_gt_dec (Z.pos (digits2_pos d)) n) as [H|H]; [exact H|].
  assert (2 ^ n <= 2 ^ (Z.pos (digits2_pos d) - 1))
    by (apply Z.pow_le_mono_r; lia).
  lia.
Qed.

Lemma digits_gt (d : positive) (n : Z) :
  2 ^ n <= Z.pos d -> n < Z.pos (digits2_pos d).
Proof.
  intros Hd. pose proof (digits2_pos_bounds d) as [_ Hhi].
  destruct (Z_lt_le_dec n (Z.pos (digits2_pos d))) as [H|H]; [exact H|].
  assert (2 ^ Z.pos (digits2_pos d) <= 2 ^ n)
    by (apply Z.pow_le_mono_r; lia).
  lia.
Qed.

#[local] Open Scope float_scope.

Lemma Prim2SF_half : Prim2SF 0.5 = S754_finite false 4503599627370496 (-53).
Proof. reflexivity. Qed.

Lemma compare_cont_Z (a b : positive) :
  Pos.compare_cont Eq a b = (Z.pos a ?= Z.pos b)%Z.
Proof. reflexivity. Qed.

(** The numbers strictly between one half and one: exponent [-53], the
    mantissa strictly between [2^52] and [2^53]. *)
Lemma between_half_and_one (p : float) :
  (0.5 <? p) = true -> (p <? 1) = true ->
  exists m : positive,
    Prim2SF p = S754_finite false m (-53) /\
    (4503599627370496 < Z.pos m < 9007199254740992)%Z.
Proof.
  rewrite !ltb_spec, Prim2SF_half, Prim2SF_one. intros H0 H1.
  pose proof (Prim2SF_valid p) as Hv.
  destruct (Prim2SF p) as [s|s| |s m e];
    cbn -[Z.compare Pos.compare_cont] in H0, H1; try discriminate.
  - destruct s; discriminate.
  - destruct s; [discriminate|]. cbn [valid_binary] in Hv.
    pose proof (bounded_lt_2p53 m e Hv) as Hlt.
    change (2 ^ 53)%Z with 9007199254740992%Z in Hlt.
    rewrite compare_cont_Z in H0, H1.
    destruct (Z.compare_spec (-53) e) as [He|He|He]; try discriminate.
    + subst e. exists m. split; [reflexivity|]. split; [|exact Hlt].
      destruct (Z.compare_spec (Z.pos 4503599627370496) (Z.pos m)) as [H|H|H];
        try discriminate. exact H.
    + exfalso.
      pose proof (bounded_normal m e Hv ltac:(lia)) as Hn.
      change (2 ^ 52)%Z with 4503599627370496%Z in Hn.
      destruct (Z.compare_spec e (-52)) as [He'|He'|He']; try discriminate;
        [|lia].
      destruct (Z.compare_spec (Z.pos m) (Z.pos 4503599627370496)) as [H|H|H];
        try discriminate.
      lia.
Qed.

(** For [p] strictly between one half and one, [1 - p] is exact: it is the
    number [(2^53 - m) * 2^-53], normalised. *)
Lemma one_minus_upper_half (p : float) (m : positive) :
  Prim2SF p = S754_finite false m (-53) ->
  (4503599627370496 < Z.pos m < 9007199254740992)%Z ->
  exists (w : positive) (e : Z),
    Prim2SF (1 - p) = S754_finite false w e /\
    Z.pos (digits2_pos w) = 53%Z /\ (-105 <= e <= -54)%Z /\
    Z.pos w = ((9007199254740992 - Z.pos m) * 2 ^ (-53 - e))%Z.
Proof.
  intros E Hm. rewrite sub_spec, Prim2SF_one, E.
  unfold SF64sub, SFsub. cbn [cond_Zopp].
  replace (Z.min (-52) (-53)) with (-53)%Z by reflexivity.
  unfold shl_align.
  replace (-53 - -52)%Z with (-1)%Z by reflexivity.
  replace (-53 - -53)%Z with 0%Z by reflexivity. cbn [fst].
  rewrite iter_xO_value.
  replace (4503599627370496 * 2 ^ 1)%Z with 9007199254740992%Z by reflexivity.
  destruct (9007199254740992 - Z.pos m)%Z as [|d|d] eqn:Ed; try lia.
  cbn [binary_normalize].
  assert (Hd : (Z.pos (digits2_pos d) <= 52)%Z).
  { apply digits_le; [lia|].
    replace (2 ^ 52)%Z with 4503599627370496%Z by reflexivity. lia. }
  pose proof (Pos2Z.is_pos (digits2_pos d)) as Hd0.
  destruct (binary_round_short false d (-53)) as (w & Ew & Hw & Hdw); try lia.
  exists w, (Z.pos (digits2_pos d) + -53 - 53)%Z.
  split; [exact Ew|]. split; [exact Hdw|]. split; [lia|].
  rewrite Hw. f_equal. f_equal. lia.
Qed.

(** For [p] strictly between one half and one, the offsets of [1 - p] and
    of [p] from one half are opposite numbers. *)
Lemma reflect_offset_upper_half (p : float) :
  (0.5 <? p) = true -> (p <? 1) = true ->
  (1 - p) - 0.5 = - (p - 0.5).
Proof.
  intros H0 H1.
  destruct (between_half_and_one p H0 H1) as (m & E & Hm).
  destruct (one_minus_upper_half p m E Hm) as (w & e & Ew & Hdw & He & Hw).
  apply Prim2SF_inj.
  rewrite opp_spec, (sub_spec (1 - p) 0.5), Ew, (sub_spec p 0.5), E,
    Prim2SF_half.
  unfold SF64sub, SFsub. cbn [cond_Zopp].
  replace (Z.min e (-53)) with e by lia.
  replace (Z.min (-53) (-53)) with (-53)%Z by reflexivity.
  unfold shl_align. rewrite !Z.sub_diag. cbn [fst].
  destruct (e - -53)%Z as [|k|k] eqn:Ek; try lia. cbn [fst].
  rewrite iter_xO_value.
  (* the right-hand side: the offset of [p] *)
  destruct (Z.pos m - 4503599627370496)%Z as [|z|z] eqn:Ez; try lia.
  cbn [binary_normalize].
  rewrite <- (binary_round_opp false z (-53)). cbn [negb].
  assert (Hz : (Z.pos (digits2_pos z) <= 52)%Z).
  { apply digits_le; [lia|].
    replace (2 ^ 52)%Z with 4503599627370496%Z by reflexivity. lia. }
  pose proof (Pos2Z.is_pos (digits2_pos z)) as Hz0.
  destruct (binary_round_short true z (-53)) as (w2 & E2 & Hw2 & Hdw2);
    try lia.
  rewrite E2.
  (* the left-hand side: the offset of [1 - p] *)
  assert (Hk : (0 < 2 ^ Z.pos k)%Z) by (apply Z.pow_pos_nonneg; lia).
  replace (-53 - e)%Z with (Z.pos k) in Hw by lia.
  destruct (Z.pos w - 4503599627370496 * 2 ^ Z.pos k)%Z as [|q|q] eqn:Eq;
    try nia.
  cbn [binary_normalize].
  apply (binary_round_canonical true q w2 e _
           (e + (Z.pos (digits2_pos z) + -53 - 53) + 53)%Z);
    try lia.
  replace (e - (e + (Z.pos (digits2_pos z) + -53 - 53) + 53))%Z
    with (53 - Z.pos (digits2_pos z))%Z by lia.
  replace (Z.pos (digits2_pos z) + -53 - 53
           - (e + (Z.pos (digits2_pos z) + -53 - 53) + 53))%Z
    with (Z.pos k) by lia.
  rewrite Hw2.
  assert (Hq : Z.pos q = (Z.pos z * 2 ^ Z.pos k)%Z) by nia.
  rewrite Hq. ring.
Qed.

(** For [p] strictly between one half and one and other than the upper
    break-point, [p] and [1 - p] fall in mirrored regions: both central, or
    [p] in the upper tail and [1 - p] in the lower one. *)
Lemma upper_half_regions (p : float) :
  (0.5 <? p) = true -> (p <? 1) = true -> (p =? pHigh) = false ->
  ((p <? pLow) = false /\ (p <=? pHigh) = true /\
   (1 - p <? pLow) = false /\ (1 - p <=? pHigh) = true) \/
  ((p <? pLow) = false /\ (p <=? pHigh) = false /\
   (1 - p <? pLow) = true).
Proof.
  intros H0 H1 Hne.
  destruct (between_half_and_one p H0 H1) as (m & E & Hm).
  destruct (one_minus_upper_half p m E Hm) as (w & e & Ew & Hdw & He & Hw).
  pose proof (digits2_pos_bounds w) as [Hwlo Hwhi]. rewrite Hdw in Hwlo, Hwhi.
  replace (2 ^ (53 - 1))%Z with 4503599627370496%Z in Hwlo by reflexivity.
  replace (2 ^ 53)%Z with 9007199254740992%Z in Hwhi by reflexivity.
  revert Hne.
  rewrite eqb_spec, !ltb_spec, !leb_spec, E, Ew, Prim2SF_pLow, Prim2SF_pHigh.
  unfold SFeqb, SFltb, SFleb. cbn [SFcompare].
  rewrite !compare_cont_Z.
  replace (-53 ?= -58)%Z with Gt by reflexivity.
  replace (-53 ?= -53)%Z with Eq by reflexivity.
  assert (He53 : (e ?= -53)%Z = Lt) by (apply Z.compare_lt_iff; lia).
  rewrite He53. intros Hne.
  destruct (Z.compare_spec (Z.pos m) (Z.pos 8788774672813523)) as [Hc|Hc|Hc];
    try discriminate.
  - (* below the break-point: [1 - p] stays at or above [pLow] *)
    left. repeat split.
    destruct (Z.compare_spec e (-58)) as [He58|He58|He58]; try reflexivity.
    + subst e. replace (-53 - -58)%Z with 5%Z in Hw by reflexivity.
      replace (2 ^ 5)%Z with 32%Z in Hw by reflexivity.
      destruct (Z.compare_spec (Z.pos w) (Z.pos 6989586621679010));
        try reflexivity. lia.
    + exfalso.
      assert (2 ^ 6 <= 2 ^ (-53 - e))%Z by (apply Z.pow_le_mono_r; lia).
      replace (2 ^ 6)%Z with 64%Z in * by reflexivity. nia.
  - (* above it: [1 - p] is below [pLow] *)
    right. repeat split.
    destruct (Z.compare_spec e (-58)) as [He58|He58|He58]; try reflexivity.
    + subst e. replace (-53 - -58)%Z with 5%Z in Hw by reflexivity.
      replace (2 ^ 5)%Z with 32%Z in Hw by reflexivity.
      destruct (Z.compare_spec (Z.pos w) (Z.pos 6989586621679010));
        try reflexivity; lia.
    + exfalso.
      assert (0 < 2 ^ (-53 - e))%Z by (apply Z.pow_pos_nonneg; lia).
      assert (2 ^ (-53 - e) <= 2 ^ 4)%Z by (apply Z.pow_le_mono_r; lia).
      replace (2 ^ 4)%Z with 16%Z in * by reflexivity. nia.
Qed.

End Reflect.

(** ** NaN in, NaN out *)

Module NaN.

Import F64.

Lemma is_nan_eq (x : float) : is_nan x = true -> x = nan.
Proof.
  intros H. apply Prim2SF_inj. rewrite Prim2SF_nan. now apply is_nan_spec.
Qed.

Lemma mul_nan_l (x : float) : nan * x = nan.
Proof. apply Prim2SF_inj. now rewrite mul_spec, Prim2SF_nan. Qed.

Lemma mul_nan_r (x : float) : x * nan = nan.
Proof.
  apply Prim2SF_inj. rewrite mul_spec, Prim2SF_nan.
  now destruct (Prim2SF x).
Qed.

Lemma div_nan_l (x : float) : nan / x = nan.
Proof. apply Prim2SF_inj. now rewrite div_spec, Prim2SF_nan. Qed.

Lemma div_nan_r (x : float) : x / nan = nan.
Proof.
  apply Prim2SF_inj. rewrite div_spec, Prim2SF_nan.
  now destruct (Prim2SF x).
Qed.

Lemma add_nan_l (x : float) : nan + x = nan.
Proof. apply Prim2SF_inj. now rewrite add_spec, Prim2SF_nan. Qed.

Lemma add_nan_r (x : float) : x + nan = nan.
Proof.
  apply Prim2SF_inj. rewrite add_spec, Prim2SF_nan.
  now destruct (Prim2SF x).
Qed.

Lemma sub_nan_l (x : float) : nan - x = nan.
Proof. apply Prim2SF_inj. now rewrite sub_spec, Prim2SF_nan. Qed.

Lemma Math_abs_nan : Math_abs nan = nan.
Proof. reflexivity. Qed.

Lemma Math_ceil_nan : Math_ceil nan = nan.
Proof. reflexivity. Qed.

End NaN.

Create Rewrite HintDb nan_arith.

#[export] Hint Rewrite
  NaN.mul_nan_l NaN.mul_nan_r NaN.div_nan_l NaN.div_nan_r
  NaN.add_nan_l NaN.add_nan_r NaN.sub_nan_l F64.sub_nan_r
  NaN.Math_abs_nan NaN.Math_ceil_nan : nan_arith.

(** ** Bounds on [Math.ceil] *)

Module Ceiling.

Import F64.
Import Reflect.

Lemma leb_refl (x : float) : is_nan x = false -> (x <=? x) = true.
Proof.
  rewrite is_nan_false, leb_spec. intros H. unfold SFleb.
  now rewrite SFcompare_refl.
Qed.

Lemma Prim2SF_of_Z_valid (n : Z) (m : positive) (e : Z) :
  Prim2SF (of_Z n) = S754_finite false m e ->
  (-1074 < e)%Z ->
  (4503599627370496 <= Z.pos m < 9007199254740992)%Z.
Proof.
  intros E He. pose proof (Prim2SF_valid (of_Z n)) as Hv.
  rewrite E in Hv. cbn [valid_binary] in Hv.
  pose proof (bounded_normal m e Hv He) as Hlo.
  pose proof (bounded_lt_2p53 m e Hv) as Hhi.
  change (2 ^ 52)%Z with 4503599627370496%Z in Hlo.
  change (2 ^ 53)%Z with 9007199254740992%Z in Hhi. lia.
Qed.

(** Splitting a power of two. *)
Lemma pow2_split (a b : Z) :
  (0 <= b < a)%Z -> (2 ^ a = 2 ^ b * 2 ^ (a - b) /\ 2 <= 2 ^ (a - b))%Z.
Proof.
  intros H. split.
  - rewrite <- Z.pow_add_r by lia. f_equal. lia.
  - change 2%Z with (2 ^ 1)%Z at 1. apply Z.pow_le_mono_r; lia.
Qed.

(** [Math.ceil] never rounds down. *)
Lemma Math_ceil_ge (x : float) :
  is_nan x = false -> (x <=? Math_ceil x) = true.
Proof.
  intros Hx. pose proof (Prim2SF_valid x) as Hv.
  pose proof (leb_refl x Hx) as Hrefl.
  unfold Math_ceil.
  destruct (Prim2SF x) as [s|s| |s m e] eqn:E; try exact Hrefl.
  cbn [valid_binary] in Hv.
  destruct (0 <=? e)%Z eqn:E0; [exact Hrefl|]. apply Z.leb_gt in E0.
  pose proof (bounded_lt_2p53 m e Hv) as Hm53.
  change (2 ^ 53)%Z with 9007199254740992%Z in Hm53.
  assert (Hd : (0 < 2 ^ (- e))%Z) by (apply Z.pow_pos_nonneg; lia).
  destruct s.
  - (* negative: the magnitude is rounded down *)
    pose proof (ceil_quotient_down m e Hv E0) as Hn.
    set (n := (Z.pos m / 2 ^ (- e))%Z) in *.
    assert (Hfloor : (n * 2 ^ (- e) <= Z.pos m)%Z).
    { subst n. rewrite Z.mul_comm. apply Z.mul_div_le. lia. }
    destruct (Z.eq_dec n 0) as [Hn0|Hn0].
    + rewrite Hn0, leb_spec, E. reflexivity.
    + destruct (Prim2SF_of_Z n) as (m' & e' & E' & He' & Hm'); [lia|].
      pose proof (Prim2SF_of_Z_valid n m' e' E' ltac:(lia)) as Hv'.
      rewrite leb_spec, opp_spec, E, E'. unfold SFleb.
      cbn [SFopp negb SFcompare]. rewrite compare_cont_Z.
      destruct (Z.compare_spec e e') as [He|He|He]; try reflexivity.
      * subst e'. rewrite Hm' in *.
        destruct (Z.compare_spec (Z.pos m) (n * 2 ^ (- e))%Z);
          try reflexivity. lia.
      * exfalso.
        destruct (pow2_split (- e) (- e')) as [Hs H2]; [lia|].
        rewrite Hs in Hfloor. nia.
  - (* positive: the magnitude is rounded up *)
    pose proof (ceil_quotient_up m e Hv E0) as Hn.
    set (n := ((Z.pos m + 2 ^ (- e) - 1) / 2 ^ (- e))%Z) in *.
    assert (Hceil : (Z.pos m <= n * 2 ^ (- e))%Z).
    { pose proof (Z.mul_succ_div_gt (Z.pos m + 2 ^ (- e) - 1) (2 ^ (- e)) Hd).
      fold n in H. lia. }
    destruct (Prim2SF_of_Z n Hn) as (m' & e' & E' & He' & Hm').
    pose proof (Prim2SF_of_Z_valid n m' e' E' ltac:(lia)) as Hv'.
    rewrite leb_spec, E, E'. unfold SFleb.
    cbn [SFcompare]. rewrite compare_cont_Z.
    destruct (Z.compare_spec e e') as [He|He|He]; try reflexivity.
    + subst e'. rewrite Hm' in *.
      destruct (Z.compare_spec (Z.pos m) (n * 2 ^ (- e))%Z);
        try reflexivity. lia.
    + exfalso.
      assert (Hnorm : (4503599627370496 <= Z.pos m)%Z).
      { pose proof (bounded_normal m e Hv ltac:(lia)) as H.
        change (2 ^ 52)%Z with 4503599627370496%Z in H. exact H. }
      destruct (pow2_split (- e') (- e)) as [Hs H2]; [lia|].
      rewrite Hs in Hm'. nia.
Qed.

End Ceiling.
(** ** Rounding, in real numbers

    What the specification of binary64 says about the distance between a
    computed result and the exact one: within [2^-53] of it, relatively,
    for the four operations and the square root on numbers well inside the
    normal range. *)

Module Rounded.

Import Reals Lra.
Import F64 Real.
#[local] Open Scope R_scope.

Lemma bpow_pos (e : Z) : 0 < bpow e.
Proof. apply powerRZ_lt. lra. Qed.

Lemma bpow_add (a b : Z) : bpow (a + b) = bpow a * bpow b.
Proof. apply powerRZ_add. lra. Qed.

Lemma bpow_IZR (n : Z) : (0 <= n)%Z -> bpow n = IZR (2 ^ n).
Proof.
  intros H. unfold bpow. destruct n as [|p|p]; try lia.
  - reflexivity.
  - cbn [powerRZ]. rewrite pow_IZR. f_equal.
    now rewrite positive_nat_Z.
Qed.

Lemma bpow_ge_1 (n : Z) : (0 <= n)%Z -> 1 <= bpow n.
Proof.
  intros H. rewrite bpow_IZR by exact H. apply IZR_le.
  pose proof (Z.pow_pos_nonneg 2 n). lia.
Qed.

Lemma bpow_le (a b : Z) : (a <= b)%Z -> bpow a <= bpow b.
Proof.
  intros H. replace b with (a + (b - a))%Z by lia. rewrite bpow_add.
  pose proof (bpow_pos a).
  assert (1 <= bpow (b - a)) by (apply bpow_ge_1; lia). nra.
Qed.

Lemma bpow_lt (a b : Z) : (a < b)%Z -> bpow a < bpow b.
Proof.
  intros H. replace b with (a + 1 + (b - a - 1))%Z by lia.
  rewrite !bpow_add. change (bpow 1) with (2 * 1).
  pose proof (bpow_pos a).
  assert (1 <= bpow (b - a - 1)) by (apply bpow_ge_1; lia). nra.
Qed.

Lemma bpow_opp (e : Z) : bpow (- e) = / bpow e.
Proof. apply powerRZ_neg'. Qed.

Lemma IZR_xO (p : positive) : IZR (Z.pos p~0) = 2 * IZR (Z.pos p).
Proof. change (Z.pos p~0) with (2 * Z.pos p)%Z. now rewrite mult_IZR. Qed.

Lemma IZR_xI (p : positive) : IZR (Z.pos p~1) = 2 * IZR (Z.pos p) + 1.
Proof.
  change (Z.pos p~1) with (2 * Z.pos p + 1)%Z.
  now rewrite plus_IZR, mult_IZR.
Qed.

Lemma shr_1_located (mrs : shr_record) (v : R) :
  (0 <= shr_m mrs)%Z ->
  located (shr_m mrs) (loc_of_shr_record mrs) v ->
  located (shr_m (shr_1 mrs)) (loc_of_shr_record (shr_1 mrs)) (v / 2).
Proof.
  destruct mrs as [m r s]. cbn [shr_m]. intros Hm.
  destruct m as [|[p|p|]|]; try lia;
    destruct r, s; cbn [shr_1 shr_m loc_of_shr_record located orb];
    rewrite ?(IZR_xO p), ?(IZR_xI p); intros H; lra.
Qed.

Lemma iter_shr_1_located (n : positive) (mrs : shr_record) (v : R) :
  (0 <= shr_m mrs)%Z ->
  located (shr_m mrs) (loc_of_shr_record mrs) v ->
  let mrs' := SpecFloat.iter_pos shr_1 n mrs in
  (0 <= shr_m mrs')%Z /\
  located (shr_m mrs') (loc_of_shr_record mrs') (v * bpow (- Z.pos n)).
Proof.
  intros Hm Hv. cbv zeta. rewrite iter_pos_iter.
  induction n as [|n IH] using Pos.peano_ind.
  - cbn [Pos.iter]. split; [now apply shr_1_nonneg|].
    replace (v * bpow (- Z.pos 1)) with (v / 2) by (unfold bpow; simpl; lra).
    now apply shr_1_located.
  - rewrite Pos.iter_succ. destruct IH as [IH1 IH2].
    split; [now apply shr_1_nonneg|].
    replace (v * bpow (- Z.pos (Pos.succ n)))
      with (v * bpow (- Z.pos n) / 2).
    + now apply shr_1_located.
    + rewrite Pos2Z.inj_succ.
      replace (- Z.succ (Z.pos n))%Z with (- Z.pos n + - 1)%Z by lia.
      rewrite bpow_add. unfold bpow at 3. simpl. lra.
Qed.

Lemma located_bounds (m : Z) (l : location) (v : R) :
  located m l v -> IZR m <= v < IZR m + 1.
Proof. destruct l as [|[| |]]; cbn [located]; lra. Qed.

Lemma loc_of_shr_record_of_loc (m : Z) (l : location) :
  loc_of_shr_record (shr_record_of_loc m l) = l.
Proof. now destruct l as [|[| |]]. Qed.

Lemma shr_located (mrs : shr_record) (e n : Z) (v : R) :
  (0 <= n)%Z -> (0 <= shr_m mrs)%Z ->
  located (shr_m mrs) (loc_of_shr_record mrs) v ->
  let mrs' := fst (shr mrs e n) in
  snd (shr mrs e n) = (e + n)%Z /\
  (0 <= shr_m mrs')%Z /\
  located (shr_m mrs') (loc_of_shr_record mrs') (v * bpow (- n)).
Proof.
  intros Hn Hm Hv. unfold shr. destruct n as [|k|k]; try lia; cbn [fst snd].
  - split; [lia|]. split; [exact Hm|].
    replace (v * bpow (- 0)) with v by (unfold bpow; simpl; lra). exact Hv.
  - split; [reflexivity|]. now apply iter_shr_1_located.
Qed.

Lemma round_nearest_even_located (m : Z) (l : location) (v : R) :
  located m l v ->
  let m' := round_nearest_even m l in
  (m' = m \/ m' = (m + 1)%Z) /\ Rabs (IZR m' - v) <= / 2.
Proof.
  intros Hv. cbv zeta.
  destruct l as [|[| |]]; cbn [located round_nearest_even] in *.
  - split; [now left|]. rewrite Hv, Rminus_diag, Rabs_R0. lra.
  - destruct (Z.even m).
    + split; [now left|]. rewrite Hv. apply Rabs_le. lra.
    + split; [now right|]. rewrite plus_IZR, Hv. apply Rabs_le. lra.
  - split; [now left|]. apply Rabs_le. lra.
  - split; [now right|]. rewrite plus_IZR. apply Rabs_le. lra.
Qed.

Lemma bpow_m1 : bpow (-1) = / 2.
Proof. unfold bpow. simpl. lra. Qed.

Lemma bpow_0 : bpow 0 = 1.
Proof. reflexivity. Qed.

Lemma bpow_1 : bpow 1 = 2.
Proof. unfold bpow. simpl. lra. Qed.

Lemma digits_eq (p : positive) (n : Z) :
  (0 < n)%Z -> (2 ^ (n - 1) <= Z.pos p < 2 ^ n)%Z ->
  Z.pos (digits2_pos p) = n.
Proof.
  intros Hn [Hlo Hhi].
  pose proof (Reflect.digits_le p n ltac:(lia) Hhi).
  pose proof (Reflect.digits_gt p (n - 1) Hlo). lia.
Qed.

Lemma rnd_aux_R (s : bool) (m : positive) (e : Z) (l : location) (v : R) :
  located (Z.pos m) l v ->
  (53 <= Z.pos (digits2_pos m))%Z ->
  (-1074 <= Z.pos (digits2_pos m) + e - 53 <= 970)%Z ->
  exists (m' : positive) (e' : Z),
    rnd_aux s (Z.pos m) e l = S754_finite s m' e' /\
    Rabs (IZR (Z.pos m') * bpow e' - v * bpow e) <= bpow (-53) * (v * bpow e).
Proof.
  intros Hv Hd He.
  pose proof (digits2_pos_bounds m) as [Hlo Hhi].
  set (d := Z.pos (digits2_pos m)) in *.
  set (n := (d - 53)%Z).
  unfold rnd_aux, binary_round_aux, shr_fexp. cbn [Zdigits2]. fold d.
  rewrite fexp_normal by lia.
  replace (d + e - 53 - e)%Z with n by (unfold n; lia).
  destruct (shr_located (shr_record_of_loc (Z.pos m) l) e n v)
    as (He1 & Hm1 & Hv1).
  { unfold n; lia. }
  { rewrite shr_record_of_loc_m. lia. }
  { rewrite shr_record_of_loc_m, loc_of_shr_record_of_loc. exact Hv. }
  destruct (shr (shr_record_of_loc (Z.pos m) l) e n) as [mrs1 e1].
  cbn [fst snd] in *. subst e1.
  set (m1 := shr_m mrs1) in *. set (v1 := v * bpow (- n)) in *.
  apply located_bounds in Hv.
  assert (Hv1lo : bpow 52 <= v1).
  { replace 52%Z with ((d - 1) + - n)%Z by (unfold n; lia).
    rewrite bpow_add. unfold v1.
    apply Rmult_le_compat_r; [apply Rlt_le, bpow_pos|].
    rewrite bpow_IZR by lia. apply IZR_le in Hlo. lra. }
  assert (Hv1hi : v1 < bpow 53).
  { replace 53%Z with (d + - n)%Z by (unfold n; lia).
    rewrite bpow_add. unfold v1.
    apply Rmult_lt_compat_r; [apply bpow_pos|].
    rewrite bpow_IZR by lia.
    assert (IZR (Z.pos m + 1) <= IZR (2 ^ d)) by (apply IZR_le; lia).
    rewrite plus_IZR in H. lra. }
  destruct (round_nearest_even_located m1 _ v1 Hv1) as [Hm2 Hr].
  apply located_bounds in Hv1.
  assert (Hm1lo : (2 ^ 52 <= m1)%Z).
  { assert (IZR (2 ^ 52) < IZR (m1 + 1)).
    { rewrite plus_IZR, <- bpow_IZR by lia. lra. }
    apply lt_IZR in H. lia. }
  assert (Hm1hi : (m1 < 2 ^ 53)%Z).
  { apply lt_IZR. rewrite <- bpow_IZR by lia. lra. }
  set (m2 := round_nearest_even m1 (loc_of_shr_record mrs1)) in *.
  assert (Hval : v * bpow e = v1 * bpow (e + n)).
  { unfold v1. rewrite Rmult_assoc, <- bpow_add. f_equal. f_equal. lia. }
  assert (Hfin : Rabs (IZR m2 * bpow (e + n) - v * bpow e)
                 <= bpow (-53) * (v * bpow e)).
  { rewrite Hval, <- Rmult_minus_distr_r, Rabs_mult.
    rewrite (Rabs_pos_eq (bpow _)) by apply Rlt_le, bpow_pos.
    rewrite <- Rmult_assoc.
    apply Rmult_le_compat_r; [apply Rlt_le, bpow_pos|].
    assert (/ 2 <= bpow (-53) * v1); [|lra].
    rewrite <- bpow_m1. replace (-1)%Z with (-53 + 52)%Z by lia.
    rewrite bpow_add.
    apply Rmult_le_compat_l; [apply Rlt_le, bpow_pos|exact Hv1lo]. }
  destruct m2 as [|p|p] eqn:Ep; try lia.
  cbn [Zdigits2].
  destruct (Z_lt_le_dec (Z.pos p) (2 ^ 53)) as [Hp|Hp].
  - rewrite (digits_eq p 53) by lia.
    rewrite fexp_normal by lia.
    replace (53 + (e + n) - 53 - (e + n))%Z with 0%Z by lia.
    cbn [shr shr_record_of_loc shr_m].
    replace (e + n <=? emax - prec)%Z with true
      by (symmetry; apply Z.leb_le; unfold emax, prec, n; lia).
    exists p, (e + n)%Z. split; [reflexivity|exact Hfin].
  - rewrite (digits_eq p 54) by lia.
    rewrite fexp_normal by lia.
    replace (54 + (e + n) - 53 - (e + n))%Z with 1%Z by lia.
    cbn [shr shr_record_of_loc SpecFloat.iter_pos].
    assert (Hp2 : Z.pos p = (2 ^ 53)%Z) by lia.
    destruct p as [q|q|];
      [rewrite Pos2Z.inj_xI in Hp2; lia| |discriminate Hp2].
    cbn [shr_1 shr_m orb].
    replace (e + n + 1 <=? emax - prec)%Z with true
      by (symmetry; apply Z.leb_le; unfold emax, prec, n; lia).
    exists q, (e + n + 1)%Z. split; [reflexivity|].
    replace (IZR (Z.pos q) * bpow (e + n + 1))
      with (IZR (Z.pos q~0) * bpow (e + n)); [exact Hfin|].
    rewrite (IZR_xO q), (bpow_add (e + n) 1), bpow_1. lra.
Qed.

Lemma mantissa_lt_bpow (m : positive) :
  IZR (Z.pos m) < bpow (Z.pos (digits2_pos m)).
Proof.
  rewrite bpow_IZR by lia. apply IZR_lt. apply digits2_pos_bounds.
Qed.

Lemma mantissa_ge_bpow (m : positive) :
  bpow (Z.pos (digits2_pos m) - 1) <= IZR (Z.pos m).
Proof.
  rewrite bpow_IZR by lia. apply IZR_le. apply digits2_pos_bounds.
Qed.

Lemma mantissa_pos (m : positive) : 0 < IZR (Z.pos m).
Proof. apply IZR_lt. lia. Qed.

(** Among canonical representations the one with the smaller exponent is
    the smaller magnitude. *)
Lemma canonical_exponent_lt (m1 m2 : positive) (e1 e2 : Z) :
  SpecFloat.bounded prec emax m1 e1 = true -> SpecFloat.bounded prec emax m2 e2 = true ->
  (e1 < e2)%Z ->
  IZR (Z.pos m1) * bpow e1 < IZR (Z.pos m2) * bpow e2.
Proof.
  intros H1 H2 He.
  destruct (bounded_canonical m1 e1 H1) as [C1 _].
  destruct (bounded_canonical m2 e2 H2) as [C2 _].
  set (d1 := Z.pos (digits2_pos m1)) in *.
  set (d2 := Z.pos (digits2_pos m2)) in *.
  assert (Hd : (d1 + e1 <= d2 + e2 - 1)%Z).
  { revert C1 C2. unfold fexp, emin, prec, emax. lia. }
  pose proof (mantissa_lt_bpow m1) as Hm1. fold d1 in Hm1.
  pose proof (mantissa_ge_bpow m2) as Hm2. fold d2 in Hm2.
  pose proof (bpow_pos e1). pose proof (bpow_pos e2).
  apply Rlt_le_trans with (bpow (d1 + e1)).
  - rewrite bpow_add. now apply Rmult_lt_compat_r.
  - apply Rle_trans with (bpow (d2 - 1 + e2)).
    + apply bpow_le. lia.
    + rewrite bpow_add. apply Rmult_le_compat_r; lra.
Qed.

Lemma SFcompare_magnitude (m1 m2 : positive) (e1 e2 : Z) :
  SpecFloat.bounded prec emax m1 e1 = true -> SpecFloat.bounded prec emax m2 e2 = true ->
  match (match (e1 ?= e2)%Z with
         | Lt => Lt | Gt => Gt | Eq => Pos.compare_cont Eq m1 m2 end) with
  | Lt => IZR (Z.pos m1) * bpow e1 < IZR (Z.pos m2) * bpow e2
  | Eq => IZR (Z.pos m1) * bpow e1 = IZR (Z.pos m2) * bpow e2
  | Gt => IZR (Z.pos m2) * bpow e2 < IZR (Z.pos m1) * bpow e1
  end.
Proof.
  intros H1 H2. destruct (Z.compare_spec e1 e2) as [E|E|E].
  - subst e2. rewrite Reflect.compare_cont_Z.
    pose proof (bpow_pos e1).
    destruct (Z.compare_spec (Z.pos m1) (Z.pos m2)) as [M|M|M].
    + now rewrite M.
    + apply Rmult_lt_compat_r; [assumption|now apply IZR_lt].
    + apply Rmult_lt_compat_r; [assumption|now apply IZR_lt].
  - now apply canonical_exponent_lt.
  - now apply canonical_exponent_lt.
Qed.

Lemma SFcompare_R (x y : spec_float) :
  SFvalid_finite x -> SFvalid_finite y ->
  match SFcompare x y with
  | Some Lt => SF2R x < SF2R y
  | Some Eq => SF2R x = SF2R y
  | Some Gt => SF2R y < SF2R x
  | None => False
  end.
Proof.
  intros [Fx Vx] [Fy Vy].
  destruct x as [sx| |  |sx mx ex]; try discriminate Fx;
    destruct y as [sy| | |sy my ey]; try discriminate Fy;
    unfold valid_binary in Vx, Vy; cbn [SFcompare SF2R signed_R SpecFloat.valid_binary] in *.
  - reflexivity.
  - pose proof (mantissa_pos my). pose proof (bpow_pos ey).
    destruct sy; cbn [signed_R]; nra.
  - pose proof (mantissa_pos mx). pose proof (bpow_pos ex).
    destruct sx; cbn [signed_R]; nra.
  - pose proof (mantissa_pos mx). pose proof (bpow_pos ex).
    pose proof (mantissa_pos my). pose proof (bpow_pos ey).
    pose proof (SFcompare_magnitude mx my ex ey Vx Vy) as H3.
    destruct (ex ?= ey)%Z; [destruct (Pos.compare_cont Eq mx my)| |];
      destruct sx, sy; cbn [CompOpp signed_R]; nra.
Qed.

Lemma finite_valid (x : float) : finite x -> SFvalid_finite (Prim2SF x).
Proof. intros H. split; [exact H|apply Prim2SF_valid]. Qed.

Lemma ltb_R (x y : float) :
  finite x -> finite y -> ((x <? y)%float = true <-> B2R x < B2R y).
Proof.
  intros Hx Hy. rewrite ltb_spec. unfold SFltb, B2R.
  pose proof (SFcompare_R _ _ (finite_valid x Hx) (finite_valid y Hy)) as H.
  destruct (SFcompare (Prim2SF x) (Prim2SF y)) as [[| |]|];
    split; intros H'; try reflexivity; try discriminate H'; try lra;
    try contradiction.
Qed.

Lemma leb_R (x y : float) :
  finite x -> finite y -> ((x <=? y)%float = true <-> B2R x <= B2R y).
Proof.
  intros Hx Hy. rewrite leb_spec. unfold SFleb, B2R.
  pose proof (SFcompare_R _ _ (finite_valid x Hx) (finite_valid y Hy)) as H.
  destruct (SFcompare (Prim2SF x) (Prim2SF y)) as [[| |]|];
    split; intros H'; try reflexivity; try discriminate H'; try lra;
    try contradiction.
Qed.

Lemma between_finite (lo x hi : float) :
  finite lo -> finite hi ->
  (lo <=? x)%float = true -> (x <=? hi)%float = true -> finite x.
Proof.
  unfold finite. rewrite !leb_spec. unfold SFleb.
  destruct (Prim2SF lo) as [sl| | |sl ml el]; try discriminate;
    destruct (Prim2SF hi) as [sh| | |sh mh eh]; try discriminate;
    destruct (Prim2SF x) as [s|[|]| |s m e]; cbn; try discriminate;
    reflexivity.
Qed.

Lemma B2R_opp (x : float) : B2R (- x) = - B2R x.
Proof.
  unfold B2R. rewrite opp_spec.
  destruct (Prim2SF x) as [s|s| |[|] m e]; cbn [SFopp SF2R signed_R negb]; lra.
Qed.

Lemma B2R_abs (x : float) : B2R (abs x) = Rabs (B2R x).
Proof.
  unfold B2R. rewrite abs_spec.
  destruct (Prim2SF x) as [s|s| |s m e]; cbn [SFabs SF2R signed_R];
    rewrite ?Rabs_R0; try reflexivity.
  pose proof (mantissa_pos m). pose proof (bpow_pos e).
  destruct s; cbn [signed_R].
  - rewrite Rabs_left by nra. lra.
  - rewrite Rabs_pos_eq by nra. reflexivity.
Qed.

Lemma finite_opp (x : float) : finite x -> finite (- x).
Proof.
  unfold finite. rewrite opp_spec. now destruct (Prim2SF x).
Qed.

Lemma finite_abs (x : float) : finite x -> finite (abs x).
Proof.
  unfold finite. rewrite abs_spec. now destruct (Prim2SF x).
Qed.

Lemma SF2R_abs (s : bool) (m : positive) (e : Z) :
  Rabs (SF2R (S754_finite s m e)) = IZR (Z.pos m) * bpow e.
Proof.
  cbn [SF2R signed_R]. pose proof (mantissa_pos m). pose proof (bpow_pos e).
  destruct s; cbn [signed_R];
    [rewrite Rabs_left by nra|rewrite Rabs_pos_eq by nra]; lra.
Qed.

Lemma bpow_lt_inv (a b : Z) : bpow a < bpow b -> (a < b)%Z.
Proof.
  intros H. destruct (Z_lt_le_dec a b) as [L|L]; [exact L|].
  apply bpow_le in L. lra.
Qed.

Lemma nice_inv (x : float) :
  nice x ->
  exists s m e,
    Prim2SF x = S754_finite s m e /\
    Z.pos (digits2_pos m) = 53%Z /\ (-552 <= e <= 447)%Z.
Proof.
  unfold nice, B2R. intros [Hlo Hhi].
  pose proof (Prim2SF_valid x) as V.
  pose proof (bpow_pos (-499)).
  destruct (Prim2SF x) as [s|s| |s m e];
    try (cbn [SF2R signed_R] in Hlo; rewrite Rabs_R0 in Hlo; lra).
  exists s, m, e. split; [reflexivity|].
  rewrite SF2R_abs in Hlo, Hhi.
  unfold valid_binary in V. cbn [SpecFloat.valid_binary] in V.
  pose proof (bounded_lt_2p53 m e V) as Hm.
  pose proof (bpow_pos e).
  assert (He : (-552 <= e)%Z).
  { assert (bpow (-499) < bpow (53 + e)); [|apply bpow_lt_inv in H1; lia].
    rewrite bpow_add, (bpow_IZR 53) by lia.
    apply IZR_lt in Hm. nra. }
  pose proof (bounded_normal m e V ltac:(lia)) as Hm'.
  split.
  - apply digits_eq; [lia|]. split; [exact Hm'|exact Hm].
  - split; [exact He|].
    assert (bpow (52 + e) < bpow 500); [|apply bpow_lt_inv in H1; lia].
    rewrite bpow_add, (bpow_IZR 52) by lia.
    apply IZR_le in Hm'.
    assert (bpow 499 < bpow 500) by (apply bpow_lt; lia). nra.
Qed.

Lemma SF2R_signed (s : bool) (m : positive) (e : Z) :
  SF2R (S754_finite s m e) = signed_R s (IZR (Z.pos m) * bpow e).
Proof. reflexivity. Qed.

Lemma signed_R_mul (s1 s2 : bool) (a b : R) :
  signed_R s1 a * signed_R s2 b = signed_R (xorb s1 s2) (a * b).
Proof. destruct s1, s2; cbn [signed_R xorb]; lra. Qed.

Lemma Rabs_signed (s : bool) (v : R) : 0 <= v -> Rabs (signed_R s v) = v.
Proof.
  intros H. destruct s; cbn [signed_R].
  - rewrite Rabs_Ropp. now apply Rabs_pos_eq.
  - now apply Rabs_pos_eq.
Qed.

(** The rounded value is within half a unit in the last place, relative
    to the value rounded. *)
Lemma rnd_aux_SF2R (s : bool) (m : positive) (e : Z) (l : location) (v : R) :
  located (Z.pos m) l v ->
  (53 <= Z.pos (digits2_pos m))%Z ->
  (-1074 <= Z.pos (digits2_pos m) + e - 53 <= 970)%Z ->
  let r := rnd_aux s (Z.pos m) e l in
  SFfinite r = true /\
  Rabs (SF2R r - signed_R s (v * bpow e))
  <= bpow (-53) * Rabs (signed_R s (v * bpow e)).
Proof.
  intros Hv Hd He r.
  destruct (rnd_aux_R s m e l v Hv Hd He) as (m' & e' & E & H).
  subst r. rewrite E. split; [reflexivity|].
  assert (0 <= v * bpow e).
  { apply located_bounds in Hv. pose proof (mantissa_pos m).
    pose proof (bpow_pos e). nra. }
  rewrite Rabs_signed by assumption. rewrite SF2R_signed.
  destruct s; cbn [signed_R]; [|exact H].
  replace (- (IZR (Z.pos m') * bpow e') - - (v * bpow e))
    with (- (IZR (Z.pos m') * bpow e' - v * bpow e)) by lra.
  now rewrite Rabs_Ropp.
Qed.

Lemma digits_mul (mx my : positive) :
  Z.pos (digits2_pos mx) = 53%Z -> Z.pos (digits2_pos my) = 53%Z ->
  (105 <= Z.pos (digits2_pos (mx * my)) <= 106)%Z.
Proof.
  intros Hx Hy.
  pose proof (digits2_pos_bounds mx) as [Lx Ux].
  pose proof (digits2_pos_bounds my) as [Ly Uy].
  rewrite Hx in Lx, Ux. rewrite Hy in Ly, Uy.
  split.
  - assert (104 < Z.pos (digits2_pos (mx * my)))%Z; [|lia].
    apply Reflect.digits_gt. rewrite Pos2Z.inj_mul.
    change (2 ^ 104)%Z with (2 ^ 52 * 2 ^ 52)%Z.
    apply Z.mul_le_mono_nonneg; lia.
  - apply Reflect.digits_le; [lia|]. rewrite Pos2Z.inj_mul.
    change (2 ^ 106)%Z with (2 ^ 53 * 2 ^ 53)%Z.
    apply Z.mul_lt_mono_nonneg; lia.
Qed.

Lemma mul_R (x y : float) :
  nice x -> nice y ->
  finite (x * y) /\
  Rabs (B2R (x * y) - B2R x * B2R y) <= bpow (-53) * Rabs (B2R x * B2R y).
Proof.
  intros Hx Hy.
  destruct (nice_inv x Hx) as (sx & mx & ex & Ex & Dx & Rx).
  destruct (nice_inv y Hy) as (sy & my & ey & Ey & Dy & Ry).
  unfold finite, B2R. rewrite mul_spec, Ex, Ey.
  unfold SF64mul. cbn [SFmul]. rewrite !SF2R_signed, signed_R_mul.
  pose proof (digits_mul mx my Dx Dy) as Hd.
  replace (IZR (Z.pos mx) * bpow ex * (IZR (Z.pos my) * bpow ey))
    with (IZR (Z.pos (mx * my)) * bpow (ex + ey))
    by (rewrite Pos2Z.inj_mul, mult_IZR, bpow_add; ring).
  apply (rnd_aux_SF2R (xorb sx sy) (mx * my) (ex + ey) loc_Exact);
    [reflexivity|lia|lia].
Qed.

Lemma binary_round_R (s : bool) (m : positive) (e : Z) :
  (-1074 <= Z.pos (digits2_pos m) + e - 53 <= 970)%Z ->
  let r := binary_round prec emax s m e in
  SFfinite r = true /\
  Rabs (SF2R r - signed_R s (IZR (Z.pos m) * bpow e))
  <= bpow (-53) * Rabs (signed_R s (IZR (Z.pos m) * bpow e)).
Proof.
  intros He r. subst r.
  set (d := Z.pos (digits2_pos m)) in *.
  destruct (Z_lt_le_dec d 53) as [Hd|Hd].
  - destruct (Reflect.binary_round_short s m e) as (m' & E & Hm & _);
      [fold d; lia|fold d; lia|].
    rewrite E. split; [reflexivity|]. fold d in E, Hm.
    rewrite SF2R_signed, Hm, mult_IZR, <- bpow_IZR by lia. fold d.
    replace (IZR (Z.pos m) * bpow (53 - d) * bpow (d + e - 53))
      with (IZR (Z.pos m) * bpow e).
    + rewrite Rminus_diag, Rabs_R0.
      apply Rmult_le_pos; [apply Rlt_le, bpow_pos|apply Rabs_pos].
    + rewrite Rmult_assoc, <- bpow_add. do 2 f_equal. lia.
  - unfold binary_round, shl_align. fold d.
    rewrite fexp_normal by lia.
    destruct (d + e - 53 - e)%Z as [|k|k] eqn:Ek; try lia;
      apply (rnd_aux_SF2R s m e loc_Exact); try reflexivity; fold d; lia.
Qed.

Lemma binary_normalize_R (M e : Z) (z : bool) :
  (M = 0 \/ -1074 <= Z.pos (digits2_pos (Z.to_pos (Z.abs M))) + e - 53 <= 970)%Z ->
  let r := binary_normalize prec emax M e z in
  SFfinite r = true /\
  Rabs (SF2R r - IZR M * bpow e) <= bpow (-53) * Rabs (IZR M * bpow e).
Proof.
  intros H r. subst r. destruct M as [|m|m]; cbn [binary_normalize].
  - split; [reflexivity|]. cbn [SF2R signed_R].
    rewrite Rmult_0_l, Rminus_diag, Rabs_R0. lra.
  - destruct H as [H|H]; [discriminate H|].
    apply (binary_round_R false m e H).
  - destruct H as [H|H]; [discriminate H|].
    replace (IZR (Z.neg m) * bpow e)
      with (signed_R true (IZR (Z.pos m) * bpow e)).
    + apply (binary_round_R true m e H).
    + cbn [signed_R]. change (Z.neg m) with (- Z.pos m)%Z.
      rewrite opp_IZR. lra.
Qed.

Lemma shl_align_value (m : positive) (e e' : Z) :
  (e' <= e)%Z ->
  Z.pos (fst (shl_align m e e')) = (Z.pos m * 2 ^ (e - e'))%Z.
Proof.
  intros H. unfold shl_align.
  destruct (e' - e)%Z as [|k|k] eqn:Ek; try lia; cbn [fst].
  - replace (e - e')%Z with 0%Z by lia. lia.
  - rewrite iter_xO_value. do 2 f_equal. lia.
Qed.

Lemma aligned_R (s : bool) (m : positive) (e e' : Z) :
  (e' <= e)%Z ->
  IZR (cond_Zopp s (Z.pos (fst (shl_align m e e')))) * bpow e'
  = SF2R (S754_finite s m e).
Proof.
  intros H. rewrite shl_align_value by exact H. cbn [SF2R signed_R].
  replace (bpow e) with (bpow (e - e') * bpow e')
    by (rewrite <- bpow_add; f_equal; lia).
  rewrite (bpow_IZR (e - e')) by lia.
  destruct s; cbn [cond_Zopp signed_R]; rewrite ?opp_IZR, mult_IZR; ring.
Qed.

Lemma aligned_bound (s : bool) (m : positive) (e e' k : Z) :
  (e' <= e)%Z -> (e - e' <= k)%Z -> Z.pos (digits2_pos m) = 53%Z ->
  (Z.abs (cond_Zopp s (Z.pos (fst (shl_align m e e')))) < 2 ^ (53 + k))%Z.
Proof.
  intros H Hk Hd. rewrite shl_align_value by exact H.
  pose proof (digits2_pos_bounds m) as [_ Hm]. rewrite Hd in Hm.
  assert (0 < 2 ^ (e - e'))%Z by (apply Z.pow_pos_nonneg; lia).
  assert (2 ^ (e - e') <= 2 ^ k)%Z by (apply Z.pow_le_mono_r; lia).
  rewrite Z.pow_add_r by lia.
  destruct s; cbn [cond_Zopp]; nia.
Qed.

Lemma sum_range (a b e k : Z) :
  (0 <= k <= 999)%Z -> (-552 <= e)%Z -> (e + k <= 447)%Z ->
  (Z.abs a < 2 ^ (53 + k))%Z -> (Z.abs b < 2 ^ (53 + k))%Z ->
  forall M : Z, (Z.abs M <= Z.abs a + Z.abs b)%Z ->
  (M = 0 \/ -1074 <= Z.pos (digits2_pos (Z.to_pos (Z.abs M))) + e - 53 <= 970)%Z.
Proof.
  intros Hk He Hek Ha Hb M HM.
  destruct (Z.eq_dec M 0) as [E|E]; [now left|right].
  assert (Hd : (Z.pos (digits2_pos (Z.to_pos (Z.abs M))) <= 54 + k)%Z).
  { apply Reflect.digits_le; [lia|]. rewrite Z2Pos.id by lia.
    replace (54 + k)%Z with (1 + (53 + k))%Z by lia.
    rewrite Z.pow_add_r by lia. lia. }
  lia.
Qed.

Lemma add_R (x y : float) :
  nice x -> nice y ->
  finite (x + y) /\
  Rabs (B2R (x + y) - (B2R x + B2R y)) <= bpow (-53) * Rabs (B2R x + B2R y).
Proof.
  intros Hx Hy.
  destruct (nice_inv x Hx) as (sx & mx & ex & Ex & Dx & Rx).
  destruct (nice_inv y Hy) as (sy & my & ey & Ey & Dy & Ry).
  unfold finite, B2R. rewrite add_spec, Ex, Ey.
  unfold SF64add. cbn [SFadd]. cbv zeta.
  set (ez := Z.min ex ey).
  rewrite <- (aligned_R sx mx ex ez), <- (aligned_R sy my ey ez)
    by (unfold ez; lia).
  set (a := cond_Zopp sx _). set (b := cond_Zopp sy _).
  rewrite <- Rmult_plus_distr_r, <- plus_IZR.
  apply binary_normalize_R.
  apply (sum_range a b ez (Z.max ex ey - ez)); try (unfold ez; lia).
  - apply aligned_bound; try assumption; unfold ez; lia.
  - apply aligned_bound; try assumption; unfold ez; lia.
Qed.

Lemma sub_R (x y : float) :
  nice x -> nice y ->
  finite (x - y) /\
  Rabs (B2R (x - y) - (B2R x - B2R y)) <= bpow (-53) * Rabs (B2R x - B2R y).
Proof.
  intros Hx Hy.
  destruct (nice_inv x Hx) as (sx & mx & ex & Ex & Dx & Rx).
  destruct (nice_inv y Hy) as (sy & my & ey & Ey & Dy & Ry).
  unfold finite, B2R. rewrite sub_spec, Ex, Ey.
  unfold SF64sub. cbn [SFsub]. cbv zeta.
  set (ez := Z.min ex ey).
  rewrite <- (aligned_R sx mx ex ez), <- (aligned_R sy my ey ez)
    by (unfold ez; lia).
  set (a := cond_Zopp sx _). set (b := cond_Zopp sy _).
  rewrite <- Rmult_minus_distr_r, <- minus_IZR.
  apply binary_normalize_R.
  apply (sum_range a b ez (Z.max ex ey - ez)); try (unfold ez; lia).
  - apply aligned_bound; try assumption; unfold ez; lia.
  - apply aligned_bound; try assumption; unfold ez; lia.
Qed.

Lemma new_location_located (q nb k : Z) :
  (0 <= k < nb)%Z ->
  located q (new_location nb k) (IZR q + IZR k / IZR nb).
Proof.
  intros Hk. assert (Hnb : 0 < IZR nb) by (apply IZR_lt; lia).
  assert (Hk0 : 0 <= IZR k) by (apply IZR_le; lia).
  assert (Hdiv : forall c : R, c * IZR nb = IZR k -> IZR k / IZR nb = c).
  { intros c Hc. rewrite <- Hc. field. lra. }
  assert (Hlt : forall c : R, IZR k < c * IZR nb -> IZR k / IZR nb < c).
  { intros c Hc. apply Rmult_lt_reg_r with (IZR nb); [exact Hnb|].
    unfold Rdiv. rewrite Rmult_assoc, Rinv_l by lra. lra. }
  assert (Hgt : forall c : R, c * IZR nb < IZR k -> c < IZR k / IZR nb).
  { intros c Hc. apply Rmult_lt_reg_r with (IZR nb); [exact Hnb|].
    unfold Rdiv. rewrite Rmult_assoc, Rinv_l by lra. lra. }
  assert (Hin : forall c1 c2 : R,
             c1 * IZR nb < IZR k -> IZR k < c2 * IZR nb ->
             IZR q + c1 < IZR q + IZR k / IZR nb < IZR q + c2).
  { intros c1 c2 H1 H2. pose proof (Hgt c1 H1). pose proof (Hlt c2 H2). lra. }
  unfold new_location, new_location_even, new_location_odd.
  destruct (Z.even nb) eqn:Ev; destruct (Z.eqb_spec k 0) as [E|E];
    try (subst k; cbn [located]; unfold Rdiv; rewrite Rmult_0_l; lra).
  - assert (0 < IZR k) by (apply IZR_lt; lia).
    assert (IZR k < IZR nb) by (apply IZR_lt; lia).
    destruct (Z.compare_spec (2 * k) nb) as [C|C|C]; cbn [located].
    + rewrite (Hdiv (/ 2)); [reflexivity|]. rewrite <- C, mult_IZR. lra.
    + apply IZR_lt in C. rewrite mult_IZR in C.
      replace (IZR q) with (IZR q + 0) at 1 by lra. apply Hin; lra.
    + apply IZR_lt in C. rewrite mult_IZR in C. apply Hin; lra.
  - assert (0 < IZR k) by (apply IZR_lt; lia).
    assert (IZR k < IZR nb) by (apply IZR_lt; lia).
    assert (Hodd : (2 * k <> nb)%Z).
    { intros C. rewrite <- C, Z.even_mul in Ev. discriminate Ev. }
    destruct (Z.compare_spec (2 * k + 1) nb) as [C|C|C]; cbn [located].
    + assert (C' : (2 * k < nb)%Z) by lia.
      apply IZR_lt in C'. rewrite mult_IZR in C'.
      replace (IZR q) with (IZR q + 0) at 1 by lra. apply Hin; lra.
    + assert (C' : (2 * k < nb)%Z) by lia.
      apply IZR_lt in C'. rewrite mult_IZR in C'.
      replace (IZR q) with (IZR q + 0) at 1 by lra. apply Hin; lra.
    + assert (C' : (nb < 2 * k)%Z) by lia.
      apply IZR_lt in C'. rewrite mult_IZR in C'. apply Hin; lra.
Qed.

Lemma signed_R_div (s1 s2 : bool) (a b : R) :
  b <> 0 -> signed_R s1 a / signed_R s2 b = signed_R (xorb s1 s2) (a / b).
Proof. intros Hb. destruct s1, s2; cbn [signed_R xorb]; field; lra. Qed.

Lemma quotient_digits (mx my q r : Z) :
  (2 ^ 52 <= mx < 2 ^ 53)%Z -> (2 ^ 52 <= my < 2 ^ 53)%Z ->
  (mx * 2 ^ 53 = my * q + r)%Z -> (0 <= r < my)%Z ->
  (2 ^ 52 <= q < 2 ^ 54)%Z.
Proof.
  intros Hx Hy E Hr. split.
  - destruct (Z_le_gt_dec (2 ^ 52) q) as [H|H]; [exact H|exfalso].
    assert (my * q + r < my * 2 ^ 52)%Z by nia.
    assert (my * 2 ^ 52 <= 2 ^ 52 * 2 ^ 53)%Z by nia. nia.
  - destruct (Z_lt_le_dec q (2 ^ 54)) as [H|H]; [exact H|exfalso].
    assert (my * 2 ^ 54 <= my * q)%Z by nia.
    assert (2 ^ 52 * 2 ^ 54 <= my * 2 ^ 54)%Z by nia. nia.
Qed.

Lemma div_R (x y : float) :
  nice x -> nice y ->
  finite (x / y) /\
  Rabs (B2R (x / y) - B2R x / B2R y) <= bpow (-53) * Rabs (B2R x / B2R y).
Proof.
  intros Hx Hy.
  destruct (nice_inv x Hx) as (sx & mx & ex & Ex & Dx & Rx).
  destruct (nice_inv y Hy) as (sy & my & ey & Ey & Dy & Ry).
  unfold finite, B2R. rewrite div_spec, Ex, Ey.
  unfold SF64div. cbn [SFdiv]. unfold SFdiv_core_binary.
  cbn [Zdigits2]. rewrite Dx, Dy. cbv zeta.
  rewrite fexp_normal by lia.
  replace (Z.min (53 + ex - (53 + ey) - 53) (ex - ey))%Z
    with (ex - ey - 53)%Z by lia.
  replace (ex - ey - (ex - ey - 53))%Z with 53%Z by lia.
  cbv iota. rewrite Z.shiftl_mul_pow2 by lia.
  pose proof (Z_div_mod (Z.pos mx * 2 ^ 53) (Z.pos my) ltac:(lia)) as Hdm.
  destruct (Z.div_eucl (Z.pos mx * 2 ^ 53) (Z.pos my)) as [q r].
  destruct Hdm as [Hq Hr].
  pose proof (digits2_pos_bounds mx) as Bx. rewrite Dx in Bx.
  pose proof (digits2_pos_bounds my) as By. rewrite Dy in By.
  pose proof (quotient_digits _ _ q r Bx By Hq Hr) as Bq.
  destruct q as [|q|q]; try lia.
  pose proof (mantissa_pos mx). pose proof (mantissa_pos my).
  pose proof (bpow_pos ex). pose proof (bpow_pos ey).
  rewrite !SF2R_signed, signed_R_div by nra.
  replace (IZR (Z.pos mx) * bpow ex / (IZR (Z.pos my) * bpow ey))
    with ((IZR (Z.pos q) + IZR r / IZR (Z.pos my)) * bpow (ex - ey - 53)).
  - assert (Hd : (53 <= Z.pos (digits2_pos q) <= 54)%Z).
    { split.
      - assert (52 < Z.pos (digits2_pos q))%Z; [|lia].
        apply Reflect.digits_gt. lia.
      - apply Reflect.digits_le; lia. }
    apply (rnd_aux_SF2R (xorb sx sy) q (ex - ey - 53)
             (new_location (Z.pos my) r)); [|lia|lia].
    now apply new_location_located.
  - replace (bpow ex) with (bpow 53 * bpow (ex - ey - 53) * bpow ey)
      by (rewrite <- !bpow_add; f_equal; lia).
    apply (f_equal IZR) in Hq.
    rewrite plus_IZR, !mult_IZR, <- bpow_IZR in Hq by lia.
    field_simplify_eq; [|nra]. nra.
Qed.

Lemma sqrt_above (a M : R) : 0 <= a -> a * a < M -> a < R_sqrt.sqrt M.
Proof.
  intros Ha H. rewrite <- (sqrt_square a Ha) at 1.
  apply sqrt_lt_1_alt. split; nra.
Qed.

Lemma sqrt_below (a M : R) :
  0 <= a -> 0 <= M -> M < a * a -> R_sqrt.sqrt M < a.
Proof.
  intros Ha HM H. rewrite <- (sqrt_square a Ha) at 1.
  apply sqrt_lt_1_alt. split; nra.
Qed.

Lemma sqrtrem_located (n q r : Z) :
  (0 <= q)%Z -> (n = q * q + r)%Z -> (0 <= r <= 2 * q)%Z ->
  located q (if (r =? 0)%Z then loc_Exact
             else loc_Inexact (if (r <=? q)%Z then Lt else Gt))
    (R_sqrt.sqrt (IZR n)).
Proof.
  intros Hq Hn Hr. assert (Hq' : 0 <= IZR q) by now apply IZR_le.
  assert (En : IZR n = IZR q * IZR q + IZR r)
    by (rewrite Hn, plus_IZR, mult_IZR; reflexivity).
  assert (Hr0 : 0 <= IZR r) by (apply IZR_le; lia).
  assert (Hr2 : IZR r <= 2 * IZR q)
    by (rewrite <- mult_IZR; apply IZR_le; lia).
  destruct (Z.eqb_spec r 0) as [E|E].
  - cbn [located]. subst r. rewrite En. simpl (IZR 0).
    rewrite Rplus_0_r. now apply sqrt_square.
  - assert (Hr1 : 1 <= IZR r) by (apply IZR_le; lia).
    destruct (Z.leb_spec r q) as [L|L]; cbn [located].
    + apply IZR_le in L. split.
      * apply sqrt_above; nra.
      * apply sqrt_below; nra.
    + assert (L' : IZR q + 1 <= IZR r)
        by (rewrite <- plus_IZR; apply IZR_le; lia).
      split.
      * apply sqrt_above; nra.
      * apply sqrt_below; nra.
Qed.

Lemma sqrt_digits (m q r s : Z) :
  (2 ^ 52 <= m < 2 ^ 53)%Z -> (52 <= s <= 53)%Z ->
  (m * 2 ^ s = q * q + r)%Z -> (0 <= r <= 2 * q)%Z -> (0 <= q)%Z ->
  (2 ^ 52 <= q < 2 ^ 53)%Z.
Proof.
  intros Hm Hs E Hr Hq.
  assert (Hlo : (2 ^ 52 <= 2 ^ s)%Z) by (apply Z.pow_le_mono_r; lia).
  assert (Hhi : (2 ^ s <= 2 ^ 53)%Z) by (apply Z.pow_le_mono_r; lia).
  assert (H1 : (2 ^ 52 * 2 ^ 52 <= m * 2 ^ s)%Z) by nia.
  assert (H2 : (m * 2 ^ s < 2 ^ 53 * 2 ^ 53)%Z) by nia.
  split.
  - destruct (Z_le_gt_dec (2 ^ 52) q) as [H|H]; [exact H|exfalso]. nia.
  - destruct (Z_lt_le_dec q (2 ^ 53)) as [H|H]; [exact H|exfalso]. nia.
Qed.

Lemma sqrt_R (x : float) :
  nice x -> (0 < B2R x) ->
  finite (PrimFloat.sqrt x) /\
  Rabs (B2R (PrimFloat.sqrt x) - R_sqrt.sqrt (B2R x))
  <= bpow (-53) * Rabs (R_sqrt.sqrt (B2R x)).
Proof.
  intros Hx Hpos.
  destruct (nice_inv x Hx) as (sx & mx & ex & Ex & Dx & Rx).
  unfold finite, B2R in *. rewrite sqrt_spec, Ex in *.
  pose proof (mantissa_pos mx). pose proof (bpow_pos ex).
  destruct sx; [cbn [SF2R signed_R] in Hpos; nra|].
  unfold SF64sqrt. cbn [SFsqrt]. unfold SFsqrt_core_binary.
  cbn [Zdigits2]. rewrite Dx. cbv zeta.
  rewrite !Z.div2_div.
  rewrite fexp_normal by (Z.div_mod_to_equations; lia).
  set (e' := Z.min ((53 + ex + 1) / 2 - 53) (ex / 2)).
  assert (He' : (-302 <= e' <= 197)%Z)
    by (unfold e'; Z.div_mod_to_equations; lia).
  set (s := (ex - 2 * e')%Z).
  assert (Hs : (52 <= s <= 53)%Z)
    by (unfold s, e'; Z.div_mod_to_equations; lia).
  destruct s as [|k|k] eqn:Es; try lia. rewrite <- Es.
  rewrite Z.shiftl_mul_pow2 by lia.
  pose proof (Z.sqrtrem_spec (Z.pos mx * 2 ^ s)) as Hsq.
  assert (0 < 2 ^ s)%Z by (apply Z.pow_pos_nonneg; lia).
  specialize (Hsq ltac:(lia)).
  destruct (Z.sqrtrem (Z.pos mx * 2 ^ s)) as [q r].
  destruct Hsq as [Hq Hr].
  pose proof (digits2_pos_bounds mx) as Bx. rewrite Dx in Bx.
  assert (Hq0 : (0 <= q)%Z) by lia.
  pose proof (sqrt_digits _ q r s Bx ltac:(lia) Hq Hr Hq0) as Bq.
  destruct q as [|q|q]; try lia.
  replace (SF2R (S754_finite false mx ex))
    with (IZR (Z.pos mx * 2 ^ s) * (bpow e' * bpow e')).
  - rewrite sqrt_mult, sqrt_square;
      [|apply Rlt_le, bpow_pos|apply IZR_le; lia
       |apply Rlt_le, Rmult_lt_0_compat; apply bpow_pos].
    apply (rnd_aux_SF2R false q e' _ (R_sqrt.sqrt (IZR (Z.pos mx * 2 ^ s)))).
    + now apply sqrtrem_located.
    + rewrite (digits_eq q 53); lia.
    + rewrite (digits_eq q 53); lia.
  - cbn [SF2R signed_R]. rewrite mult_IZR, <- bpow_IZR, <- bpow_add, Rmult_assoc,
      <- bpow_add by lia.
    do 2 f_equal. unfold s. lia.
Qed.

End Rounded.
(** ** The stability check is sound *)

Module Sound.

Import Reals Lra.
Import F64 Real Rounded Stability.
#[local] Open Scope R_scope.

(** *** The constants *)

Lemma Rabs_le_inv (x a : R) : Rabs x <= a -> - a <= x <= a.
Proof. unfold Rabs. destruct (Rcase_abs x); lra. Qed.

Lemma u_small : 0 < u <= / 1024.
Proof.
  unfold u. split; [apply bpow_pos|].
  apply Rle_trans with (bpow (-10)); [apply bpow_le; lia|].
  unfold bpow. simpl. lra.
Qed.

Lemma bpow_succ (e : Z) : bpow (e + 1) = 2 * bpow e.
Proof. rewrite bpow_add, bpow_1. lra. Qed.

Lemma B2R_pow2 (x : float) (e : Z) :
  Prim2SF x = S754_finite false 4503599627370496 e ->
  B2R x = bpow (52 + e).
Proof.
  intros E. unfold B2R. rewrite E. cbn [SF2R signed_R].
  change 4503599627370496%Z with (2 ^ 52)%Z.
  rewrite <- bpow_IZR, <- bpow_add by lia. reflexivity.
Qed.

Lemma B2R_tiny : B2R tiny = bpow (-249).
Proof. now rewrite (B2R_pow2 tiny (-301)). Qed.

Lemma B2R_huge : B2R huge = bpow 249.
Proof. now rewrite (B2R_pow2 huge 197). Qed.

Lemma B2R_c_2u : B2R c_2u = 2 * u.
Proof.
  rewrite (B2R_pow2 c_2u (-104)) by reflexivity.
  unfold u. now rewrite <- bpow_succ.
Qed.

Lemma B2R_c_eps : B2R c_eps = bpow (-100).
Proof. now rewrite (B2R_pow2 c_eps (-152)). Qed.

Lemma B2R_c_up : B2R c_up = 1 + 4 * u.
Proof.
  unfold B2R.
  replace (Prim2SF c_up) with (S754_finite false 4503599627370498 (-52))
    by reflexivity.
  cbn [SF2R signed_R].
  change 4503599627370498%Z with (2 ^ 52 + 2)%Z.
  rewrite plus_IZR, <- bpow_IZR by lia.
  rewrite Rmult_plus_distr_r, <- bpow_add.
  change (52 + -52)%Z with 0%Z. rewrite bpow_0.
  change (-52)%Z with (-53 + 1)%Z. rewrite bpow_succ. unfold u. lra.
Qed.

Lemma B2R_c_dn : B2R c_dn = 1 - 4 * u.
Proof.
  unfold B2R.
  replace (Prim2SF c_dn) with (S754_finite false 9007199254740988 (-53))
    by reflexivity.
  cbn [SF2R signed_R].
  change 9007199254740988%Z with (2 ^ 53 - 4)%Z.
  rewrite minus_IZR, <- bpow_IZR by lia.
  rewrite Rmult_minus_distr_r, <- bpow_add.
  change (53 + -53)%Z with 0%Z. rewrite bpow_0. unfold u. lra.
Qed.

Lemma finite_of_repr (x : float) (s : bool) (m : positive) (e : Z) :
  Prim2SF x = S754_finite s m e -> finite x.
Proof. intros E. unfold finite. now rewrite E. Qed.

(** *** Checked numbers *)

Lemma ok_R (f : float) :
  ok f = true -> finite f /\ bpow (-249) <= B2R f <= bpow 249.
Proof.
  unfold ok. rewrite andb_true_iff. intros [Hlo Hhi].
  assert (Ft : finite tiny) by reflexivity.
  assert (Fh : finite huge) by reflexivity.
  pose proof (between_finite tiny f huge Ft Fh Hlo Hhi) as Ff.
  split; [exact Ff|].
  apply (leb_R tiny f Ft Ff) in Hlo. apply (leb_R f huge Ff Fh) in Hhi.
  now rewrite B2R_tiny in Hlo; rewrite B2R_huge in Hhi.
Qed.

Lemma ok_pos (f : float) : ok f = true -> 0 < B2R f.
Proof.
  intros H. destruct (ok_R f H) as [_ [Hlo _]].
  pose proof (bpow_pos (-249)). lra.
Qed.

Lemma nice_of_bounds (f : float) :
  bpow (-499) <= B2R f <= bpow 499 -> nice f.
Proof.
  intros H. unfold nice. pose proof (bpow_pos (-499)).
  rewrite Rabs_pos_eq by lra. exact H.
Qed.

Lemma ok_nice (f : float) : ok f = true -> nice f.
Proof.
  intros H. destruct (ok_R f H) as [_ [Hlo Hhi]].
  apply nice_of_bounds. split.
  - apply Rle_trans with (bpow (-249)); [apply bpow_le; lia|exact Hlo].
  - apply Rle_trans with (bpow 249); [exact Hhi|apply bpow_le; lia].
Qed.

Lemma chk_Some (f g : float) : chk f = Some g -> g = f /\ ok f = true.
Proof.
  unfold chk. destruct (ok f); [|discriminate].
  intros H. injection H as <-. now split.
Qed.

Lemma nice_c_up : nice c_up.
Proof.
  apply nice_of_bounds. rewrite B2R_c_up. pose proof u_small.
  pose proof (bpow_le (-499) 0 ltac:(lia)). pose proof (bpow_le 1 499 ltac:(lia)).
  rewrite bpow_0 in *. rewrite bpow_1 in *. lra.
Qed.

Lemma nice_c_dn : nice c_dn.
Proof.
  apply nice_of_bounds. rewrite B2R_c_dn. pose proof u_small.
  pose proof (bpow_le (-499) (-1) ltac:(lia)).
  pose proof (bpow_le 0 499 ltac:(lia)).
  rewrite bpow_0 in *. rewrite bpow_m1 in *. lra.
Qed.

Lemma up_R (f g : float) :
  ok f = true -> up f = Some g ->
  ok g = true /\ B2R f * (1 + 2 * u) <= B2R g.
Proof.
  intros Hf Hg. apply chk_Some in Hg. destruct Hg as [-> Hg].
  split; [exact Hg|].
  destruct (mul_R f c_up (ok_nice f Hf) nice_c_up) as [_ H].
  rewrite B2R_c_up in H. fold u in H.
  pose proof (ok_pos f Hf). pose proof u_small.
  rewrite (Rabs_pos_eq (B2R f * _)) in H by nra.
  apply Rabs_le_inv in H. nra.
Qed.

Lemma dn_R (f g : float) :
  ok f = true -> dn f = Some g ->
  ok g = true /\ B2R g <= B2R f * (1 - 2 * u).
Proof.
  intros Hf Hg. apply chk_Some in Hg. destruct Hg as [-> Hg].
  split; [exact Hg|].
  destruct (mul_R f c_dn (ok_nice f Hf) nice_c_dn) as [_ H].
  rewrite B2R_c_dn in H. fold u in H.
  pose proof (ok_pos f Hf). pose proof u_small.
  rewrite (Rabs_pos_eq (B2R f * _)) in H by nra.
  apply Rabs_le_inv in H. nra.
Qed.

Lemma bind_Some {A B : Type} (x : option A) (f : A -> option B) (b : B) :
  bind x f = Some b -> exists a, x = Some a /\ f a = Some b.
Proof. destruct x as [a|]; [|discriminate]. intros H. now exists a. Qed.

(** A result within [u] of [t], relatively, then rounded up: above [t]. *)
Lemma roundU (f g : float) (t : R) :
  Rabs (B2R f - t) <= u * Rabs t ->
  (f' <- chk f ;; up f') = Some g ->
  ok g = true /\ t <= B2R g.
Proof.
  intros Ht Hg. apply bind_Some in Hg. destruct Hg as (f' & Hf & Hg).
  apply chk_Some in Hf. destruct Hf as [-> Hf].
  destruct (up_R f g Hf Hg) as [Hok Hup]. split; [exact Hok|].
  pose proof (ok_pos f Hf). pose proof u_small.
  destruct (Rle_lt_dec t 0) as [Hn|Hp]; [nra|].
  rewrite (Rabs_pos_eq t) in Ht by lra. apply Rabs_le_inv in Ht. nra.
Qed.

(** Rounded down: below [t]. *)
Lemma roundD (f g : float) (t : R) :
  Rabs (B2R f - t) <= u * Rabs t ->
  (f' <- chk f ;; dn f') = Some g ->
  ok g = true /\ B2R g <= t.
Proof.
  intros Ht Hg. apply bind_Some in Hg. destruct Hg as (f' & Hf & Hg).
  apply chk_Some in Hf. destruct Hf as [-> Hf].
  destruct (dn_R f g Hf Hg) as [Hok Hdn]. split; [exact Hok|].
  pose proof (ok_pos f Hf). pose proof u_small.
  destruct (Rle_lt_dec t 0) as [Hn|Hp].
  - exfalso. rewrite (Rabs_left1 t) in Ht by lra.
    apply Rabs_le_inv in Ht. nra.
  - rewrite (Rabs_pos_eq t) in Ht by lra. apply Rabs_le_inv in Ht. nra.
Qed.

Lemma mulU_R (a b g : float) :
  ok a = true -> ok b = true -> mulU a b = Some g ->
  ok g = true /\ B2R a * B2R b <= B2R g.
Proof.
  intros Ha Hb. apply roundU, (mul_R a b (ok_nice a Ha) (ok_nice b Hb)).
Qed.

Lemma mulD_R (a b g : float) :
  ok a = true -> ok b = true -> mulD a b = Some g ->
  ok g = true /\ B2R g <= B2R a * B2R b.
Proof.
  intros Ha Hb. apply roundD, (mul_R a b (ok_nice a Ha) (ok_nice b Hb)).
Qed.

Lemma addU_R (a b g : float) :
  ok a = true -> ok b = true -> addU a b = Some g ->
  ok g = true /\ B2R a + B2R b <= B2R g.
Proof.
  intros Ha Hb. apply roundU, (add_R a b (ok_nice a Ha) (ok_nice b Hb)).
Qed.

Lemma addD_R (a b g : float) :
  ok a = true -> ok b = true -> addD a b = Some g ->
  ok g = true /\ B2R g <= B2R a + B2R b.
Proof.
  intros Ha Hb. apply roundD, (add_R a b (ok_nice a Ha) (ok_nice b Hb)).
Qed.

Lemma subU_R (a b g : float) :
  ok a = true -> ok b = true -> subU a b = Some g ->
  ok g = true /\ B2R a - B2R b <= B2R g.
Proof.
  intros Ha Hb. apply roundU, (sub_R a b (ok_nice a Ha) (ok_nice b Hb)).
Qed.

Lemma subD_R (a b g : float) :
  ok a = true -> ok b = true -> subD a b = Some g ->
  ok g = true /\ B2R g <= B2R a - B2R b.
Proof.
  intros Ha Hb. apply roundD, (sub_R a b (ok_nice a Ha) (ok_nice b Hb)).
Qed.

Lemma divU_R (a b g : float) :
  ok a = true -> ok b = true -> divU a b = Some g ->
  ok g = true /\ B2R a / B2R b <= B2R g.
Proof.
  intros Ha Hb. apply roundU, (div_R a b (ok_nice a Ha) (ok_nice b Hb)).
Qed.

Lemma divD_R (a b g : float) :
  ok a = true -> ok b = true -> divD a b = Some g ->
  ok g = true /\ B2R g <= B2R a / B2R b.
Proof.
  intros Ha Hb. apply roundD, (div_R a b (ok_nice a Ha) (ok_nice b Hb)).
Qed.

Lemma sqrtU_R (a g : float) :
  ok a = true -> sqrtU a = Some g ->
  ok g = true /\ sqrt (B2R a) <= B2R g.
Proof.
  intros Ha. apply roundU, (sqrt_R a (ok_nice a Ha) (ok_pos a Ha)).
Qed.

Lemma sqrtD_R (a g : float) :
  ok a = true -> sqrtD a = Some g ->
  ok g = true /\ B2R g <= sqrt (B2R a).
Proof.
  intros Ha. apply roundD, (sqrt_R a (ok_nice a Ha) (ok_pos a Ha)).
Qed.

End Sound.
(** ** The description follows the two runs *)

Module Transfer.

Import Reals Lra.
Import F64 Real Rounded Stability Described Sound.
#[local] Open Scope R_scope.

Lemma signed_R_opp (s : bool) (v : R) : signed_R (negb s) v = - signed_R s v.
Proof. destruct s; cbn [signed_R negb]; lra. Qed.

Lemma signed_R_plus (s : bool) (a b : R) :
  signed_R s (a + b) = signed_R s a + signed_R s b.
Proof. destruct s; cbn [signed_R]; lra. Qed.

Lemma signed_R_abs (s : bool) (v : R) :
  0 <= signed_R s v -> Rabs v = signed_R s v.
Proof.
  destruct s; cbn [signed_R]; intros H.
  - rewrite Rabs_left1 by lra. reflexivity.
  - now apply Rabs_pos_eq.
Qed.

Lemma mag_in_abs (a : av) (X : R) :
  wf a -> mag_in a X ->
  Rabs X = signed_R (neg a) X /\
  0 < B2R (mlo a) /\ B2R (mlo a) <= Rabs X <= B2R (mhi a).
Proof.
  intros (Hlo & Hhi & Hd) [H1 H2].
  pose proof (ok_pos _ Hlo) as Hp.
  rewrite (signed_R_abs (neg a) X) by lra. repeat split; lra.
Qed.

Lemma rel_nice (a : av) (x x' : float) : rel a x x' -> nice x /\ nice x'.
Proof.
  intros (W & M & M' & D).
  destruct (mag_in_abs a _ W M) as (_ & _ & B).
  destruct (mag_in_abs a _ W M') as (_ & _ & B').
  destruct W as (Hlo & Hhi & _).
  destruct (ok_R _ Hlo) as [_ [L _]]. destruct (ok_R _ Hhi) as [_ [_ H]].
  pose proof (bpow_le (-499) (-249) ltac:(lia)).
  pose proof (bpow_le 249 499 ltac:(lia)).
  split; unfold nice; lra.
Qed.

Lemma ok_c_2u : ok c_2u = true.
Proof. reflexivity. Qed.

Lemma ok_c_eps : ok c_eps = true.
Proof. reflexivity. Qed.

(** The rounded results of an operation, from its exact results. *)
Lemma rounded_R (s : bool) (lo hi d : float) (r : av) (f f' : float)
    (t t' : R) :
  ok lo = true -> ok hi = true -> ok d = true ->
  rounded s lo hi d = Some r ->
  Rabs (B2R f - t) <= u * Rabs t -> Rabs (B2R f' - t') <= u * Rabs t' ->
  B2R lo <= signed_R s t <= B2R hi -> B2R lo <= signed_R s t' <= B2R hi ->
  Rabs (t - t') <= B2R d ->
  rel r f f'.
Proof.
  intros Hlo Hhi Hd Hr Hf Hf' Ht Ht' Hdd. unfold rounded in Hr.
  apply bind_Some in Hr. destruct Hr as (lo' & E1 & Hr).
  apply bind_Some in Hr. destruct Hr as (hi' & E2 & Hr).
  apply bind_Some in Hr. destruct Hr as (e & E3 & Hr).
  apply bind_Some in Hr. destruct Hr as (d' & E4 & Hr).
  injection Hr as <-.
  destruct (dn_R lo lo' Hlo E1) as [Olo Rlo].
  destruct (up_R hi hi' Hhi E2) as [Ohi Rhi].
  destruct (mulU_R hi c_2u e Hhi ok_c_2u E3) as [Oe Re].
  destruct (addU_R d e d' Hd Oe E4) as [Od Rd].
  rewrite B2R_c_2u in Re.
  pose proof (ok_pos lo Hlo) as Plo. pose proof u_small as Hu.
  rewrite (signed_R_abs s t) in Hf by lra.
  rewrite (signed_R_abs s t') in Hf' by lra.
  apply Rabs_le_inv in Hf, Hf', Hdd.
  unfold rel, wf, mag_in. cbn [neg mlo mhi dd].
  repeat split; try assumption; try apply Rabs_le;
    destruct s; cbn [signed_R] in *; try split; nra.
Qed.

Lemma amul_R (a b r : av) (x x' y y' : float) :
  rel a x x' -> rel b y y' -> amul a b = Some r ->
  rel r (x * y) (x' * y').
Proof.
  intros Ha Hb Hr.
  destruct (rel_nice a x x' Ha) as [Nx Nx'].
  destruct (rel_nice b y y' Hb) as [Ny Ny'].
  destruct Ha as (Wa & Ma & Ma' & Da). destruct Hb as (Wb & Mb & Mb' & Db).
  destruct (mag_in_abs a _ Wa Ma) as (Ea & Pa & Ba).
  destruct (mag_in_abs a _ Wa Ma') as (Ea' & _ & Ba').
  destruct (mag_in_abs b _ Wb Mb) as (Eb & Pb & Bb).
  destruct (mag_in_abs b _ Wb Mb') as (Eb' & _ & Bb').
  destruct Wa as (Oal & Oah & Oad). destruct Wb as (Obl & Obh & Obd).
  unfold amul in Hr.
  apply bind_Some in Hr. destruct Hr as (lo & E1 & Hr).
  apply bind_Some in Hr. destruct Hr as (hi & E2 & Hr).
  apply bind_Some in Hr. destruct Hr as (d1 & E3 & Hr).
  apply bind_Some in Hr. destruct Hr as (d2 & E4 & Hr).
  apply bind_Some in Hr. destruct Hr as (d & E5 & Hr).
  destruct (mulD_R _ _ _ Oal Obl E1) as [Olo Rlo].
  destruct (mulU_R _ _ _ Oah Obh E2) as [Ohi Rhi].
  destruct (mulU_R _ _ _ Oah Obd E3) as [Od1 Rd1].
  destruct (mulU_R _ _ _ Obh Oad E4) as [Od2 Rd2].
  destruct (addU_R _ _ _ Od1 Od2 E5) as [Od Rd].
  apply (rounded_R _ lo hi d r _ _ (B2R x * B2R y) (B2R x' * B2R y')
           Olo Ohi Od Hr).
  - apply (mul_R x y Nx Ny).
  - apply (mul_R x' y' Nx' Ny').
  - rewrite <- signed_R_mul, <- Ea, <- Eb. split.
    + apply Rle_trans with (1 := Rlo). apply Rmult_le_compat; lra.
    + apply Rle_trans with (2 := Rhi). apply Rmult_le_compat; lra.
  - rewrite <- signed_R_mul, <- Ea', <- Eb'. split.
    + apply Rle_trans with (1 := Rlo). apply Rmult_le_compat; lra.
    + apply Rle_trans with (2 := Rhi). apply Rmult_le_compat; lra.
  - replace (B2R x * B2R y - B2R x' * B2R y')
      with (B2R x * (B2R y - B2R y') + B2R y' * (B2R x - B2R x')) by ring.
    apply Rle_trans with (2 := Rd).
    apply Rle_trans with (1 := Rabs_triang _ _). rewrite !Rabs_mult.
    pose proof (Rabs_pos (B2R y - B2R y')). pose proof (Rabs_pos (B2R x - B2R x')).
    apply Rplus_le_compat.
    + apply Rle_trans with (2 := Rd1). apply Rmult_le_compat; lra.
    + apply Rle_trans with (2 := Rd2). apply Rmult_le_compat; lra.
Qed.


Lemma div_le_div (a b c d : R) :
  0 <= a <= c -> 0 < d <= b -> a / b <= c / d.
Proof.
  intros [Ha Hac] [Hd Hdb]. unfold Rdiv.
  apply Rmult_le_compat; try lra.
  - apply Rlt_le, Rinv_0_lt_compat. lra.
  - apply Rinv_le_contravar; lra.
Qed.

Lemma adiv_R (a b r : av) (x x' y y' : float) :
  rel a x x' -> rel b y y' -> adiv a b = Some r ->
  rel r (x / y) (x' / y').
Proof.
  intros Ha Hb Hr.
  destruct (rel_nice a x x' Ha) as [Nx Nx'].
  destruct (rel_nice b y y' Hb) as [Ny Ny'].
  destruct Ha as (Wa & Ma & Ma' & Da). destruct Hb as (Wb & Mb & Mb' & Db).
  destruct (mag_in_abs a _ Wa Ma) as (Ea & Pa & Ba).
  destruct (mag_in_abs a _ Wa Ma') as (Ea' & _ & Ba').
  destruct (mag_in_abs b _ Wb Mb) as (Eb & Pb & Bb).
  destruct (mag_in_abs b _ Wb Mb') as (Eb' & _ & Bb').
  destruct Wa as (Oal & Oah & Oad). destruct Wb as (Obl & Obh & Obd).
  unfold adiv in Hr.
  apply bind_Some in Hr. destruct Hr as (lo & E1 & Hr).
  apply bind_Some in Hr. destruct Hr as (hi & E2 & Hr).
  apply bind_Some in Hr. destruct Hr as (d1 & E3 & Hr).
  apply bind_Some in Hr. destruct Hr as (d2 & E4 & Hr).
  apply bind_Some in Hr. destruct Hr as (n & E5 & Hr).
  apply bind_Some in Hr. destruct Hr as (bb & E6 & Hr).
  apply bind_Some in Hr. destruct Hr as (d & E7 & Hr).
  destruct (divD_R _ _ _ Oal Obh E1) as [Olo Rlo].
  destruct (divU_R _ _ _ Oah Obl E2) as [Ohi Rhi].
  destruct (mulU_R _ _ _ Oah Obd E3) as [Od1 Rd1].
  destruct (mulU_R _ _ _ Obh Oad E4) as [Od2 Rd2].
  destruct (addU_R _ _ _ Od1 Od2 E5) as [On Rn].
  destruct (mulD_R _ _ _ Obl Obl E6) as [Obb Rbb].
  destruct (divU_R _ _ _ On Obb E7) as [Od Rd].
  assert (Hy : B2R y <> 0) by (intros E; rewrite E, Rabs_R0 in Bb; lra).
  assert (Hy' : B2R y' <> 0) by (intros E; rewrite E, Rabs_R0 in Bb'; lra).
  apply (rounded_R _ lo hi d r _ _ (B2R x / B2R y) (B2R x' / B2R y')
           Olo Ohi Od Hr).
  - apply (div_R x y Nx Ny).
  - apply (div_R x' y' Nx' Ny').
  - rewrite <- signed_R_div, <- Ea, <- Eb by exact Hy. split.
    + apply Rle_trans with (1 := Rlo). apply div_le_div; lra.
    + apply Rle_trans with (2 := Rhi). apply div_le_div; lra.
  - rewrite <- signed_R_div, <- Ea', <- Eb' by exact Hy'. split.
    + apply Rle_trans with (1 := Rlo). apply div_le_div; lra.
    + apply Rle_trans with (2 := Rhi). apply div_le_div; lra.
  - replace (B2R x / B2R y - B2R x' / B2R y')
      with ((B2R x * (B2R y' - B2R y) + B2R y * (B2R x - B2R x'))
            / (B2R y * B2R y')) by (field; split; assumption).
    apply Rle_trans with (2 := Rd).
    pose proof (ok_pos bb Obb) as Pbb.
    unfold Rdiv at 1. rewrite Rabs_mult, Rabs_inv, Rabs_mult.
    apply Rmult_le_compat.
    + apply Rabs_pos.
    + apply Rlt_le, Rinv_0_lt_compat. nra.
    + apply Rle_trans with (2 := Rn).
      apply Rle_trans with (1 := Rabs_triang _ _). rewrite !Rabs_mult.
      pose proof (Rabs_pos (B2R y' - B2R y)).
      pose proof (Rabs_pos (B2R x - B2R x')).
      rewrite (Rabs_minus_sym (B2R y') (B2R y)) in *.
      apply Rplus_le_compat.
      * apply Rle_trans with (2 := Rd1). apply Rmult_le_compat; lra.
      * apply Rle_trans with (2 := Rd2). apply Rmult_le_compat; lra.
    + apply Rinv_le_contravar; [exact Pbb|].
      apply Rle_trans with (1 := Rbb). apply Rmult_le_compat; lra.
Qed.

(** The sum of two results of opposite signs, the first the larger. *)
Lemma aadd_opposite (a b r : av) (lo hi d : float) (x x' y y' : float) :
  rel a x x' -> rel b y y' -> neg b = negb (neg a) ->
  ok d = true -> B2R (dd a) + B2R (dd b) <= B2R d ->
  subD (mlo a) (mhi b) = Some lo -> subU (mhi a) (mlo b) = Some hi ->
  rounded (neg a) lo hi d = Some r ->
  rel r (x + y) (x' + y').
Proof.
  intros Ha Hb Hs Od Rd E1 E2 Hr.
  destruct (rel_nice a x x' Ha) as [Nx Nx'].
  destruct (rel_nice b y y' Hb) as [Ny Ny'].
  destruct Ha as (Wa & Ma & Ma' & Da). destruct Hb as (Wb & Mb & Mb' & Db).
  destruct Wa as (Oal & Oah & Oad). destruct Wb as (Obl & Obh & Obd).
  destruct (subD_R _ _ _ Oal Obh E1) as [Olo Rlo].
  destruct (subU_R _ _ _ Oah Obl E2) as [Ohi Rhi].
  unfold mag_in in *. rewrite Hs, signed_R_opp in Mb, Mb'.
  apply (rounded_R _ lo hi d r _ _ (B2R x + B2R y) (B2R x' + B2R y')
           Olo Ohi Od Hr).
  - apply (add_R x y Nx Ny).
  - apply (add_R x' y' Nx' Ny').
  - rewrite signed_R_plus. lra.
  - rewrite signed_R_plus. lra.
  - replace (B2R x + B2R y - (B2R x' + B2R y'))
      with ((B2R x - B2R x') + (B2R y - B2R y')) by ring.
    apply Rle_trans with (1 := Rabs_triang _ _). lra.
Qed.

Lemma add_comm_R (x y : float) : B2R (x + y) = B2R (y + x).
Proof.
  unfold B2R. rewrite !add_spec.
  destruct (Prim2SF x) as [sx|sx| |sx mx ex];
    destruct (Prim2SF y) as [sy|sy| |sy my ey];
    try reflexivity; try (destruct sx, sy; reflexivity).
  unfold SF64add. cbn [SFadd]. cbv zeta.
  now rewrite (Z.min_comm ex ey), Z.add_comm.
Qed.

Lemma rel_ext (r : av) (f f' g g' : float) :
  B2R f = B2R g -> B2R f' = B2R g' -> rel r g g' -> rel r f f'.
Proof. intros E E'. unfold rel. now rewrite E, E'. Qed.

Lemma aadd_R (a b r : av) (x x' y y' : float) :
  rel a x x' -> rel b y y' -> aadd a b = Some r ->
  rel r (x + y) (x' + y').
Proof.
  intros Ha Hb Hr. unfold aadd in Hr.
  apply bind_Some in Hr. destruct Hr as (d & E0 & Hr).
  assert (Oad : ok (dd a) = true) by apply Ha.
  assert (Obd : ok (dd b) = true) by apply Hb.
  destruct (addU_R _ _ _ Oad Obd E0) as [Od Rd].
  destruct (Bool.eqb (neg a) (neg b)) eqn:Es.
  - apply eqb_prop in Es.
    apply bind_Some in Hr. destruct Hr as (lo & E1 & Hr).
    apply bind_Some in Hr. destruct Hr as (hi & E2 & Hr).
    destruct (rel_nice a x x' Ha) as [Nx Nx'].
    destruct (rel_nice b y y' Hb) as [Ny Ny'].
    destruct Ha as (Wa & Ma & Ma' & Da).
    destruct Hb as (Wb & Mb & Mb' & Db).
    destruct Wa as (Oal & Oah & _). destruct Wb as (Obl & Obh & _).
    destruct (addD_R _ _ _ Oal Obl E1) as [Olo Rlo].
    destruct (addU_R _ _ _ Oah Obh E2) as [Ohi Rhi].
    unfold mag_in in *. rewrite <- Es in Mb, Mb'.
    apply (rounded_R _ lo hi d r _ _ (B2R x + B2R y) (B2R x' + B2R y')
             Olo Ohi Od Hr).
    + apply (add_R x y Nx Ny).
    + apply (add_R x' y' Nx' Ny').
    + rewrite signed_R_plus. lra.
    + rewrite signed_R_plus. lra.
    + replace (B2R x + B2R y - (B2R x' + B2R y'))
        with ((B2R x - B2R x') + (B2R y - B2R y')) by ring.
      apply Rle_trans with (1 := Rabs_triang _ _). lra.
  - assert (Hs : neg b = negb (neg a))
      by (destruct (neg a), (neg b); try reflexivity; discriminate Es).
    destruct (mhi b <? mlo a)%float.
    + apply bind_Some in Hr. destruct Hr as (lo & E1 & Hr).
      apply bind_Some in Hr. destruct Hr as (hi & E2 & Hr).
      now apply (aadd_opposite a b r lo hi d).
    + apply bind_Some in Hr. destruct Hr as (lo & E1 & Hr).
      apply bind_Some in Hr. destruct Hr as (hi & E2 & Hr).
      apply (rel_ext r _ _ (y + x)%float (y' + x')%float);
        try apply add_comm_R.
      apply (aadd_opposite b a r lo hi d); try assumption; [|lra].
      rewrite Hs. now rewrite negb_involutive.
Qed.


Lemma asqrt_R (a r : av) (x x' : float) :
  rel a x x' -> asqrt a = Some r ->
  rel r (Math_sqrt x) (Math_sqrt x').
Proof.
  intros Ha Hr.
  destruct (rel_nice a x x' Ha) as [Nx Nx'].
  destruct Ha as (Wa & Ma & Ma' & Da).
  destruct Wa as (Oal & Oah & Oad).
  unfold asqrt in Hr. unfold mag_in in *.
  destruct (neg a); [discriminate Hr|]. cbn [signed_R] in *.
  apply bind_Some in Hr. destruct Hr as (lo & E1 & Hr).
  apply bind_Some in Hr. destruct Hr as (hi & E2 & Hr).
  apply bind_Some in Hr. destruct Hr as (l2 & E3 & Hr).
  apply bind_Some in Hr. destruct Hr as (d & E4 & Hr).
  destruct (sqrtD_R _ _ Oal E1) as [Olo Rlo].
  destruct (sqrtU_R _ _ Oah E2) as [Ohi Rhi].
  destruct (addD_R _ _ _ Olo Olo E3) as [Ol2 Rl2].
  destruct (divU_R _ _ _ Oad Ol2 E4) as [Od Rd].
  pose proof (ok_pos _ Oal) as Pal. pose proof (ok_pos _ Olo) as Plo.
  pose proof (ok_pos _ Ol2) as Pl2.
  assert (Sx : sqrt (B2R (mlo a)) <= sqrt (B2R x) <= sqrt (B2R (mhi a)))
    by (split; apply sqrt_le_1_alt; lra).
  assert (Sx' : sqrt (B2R (mlo a)) <= sqrt (B2R x') <= sqrt (B2R (mhi a)))
    by (split; apply sqrt_le_1_alt; lra).
  apply (rounded_R _ lo hi d r _ _ (sqrt (B2R x)) (sqrt (B2R x'))
           Olo Ohi Od Hr).
  - apply (sqrt_R x Nx). lra.
  - apply (sqrt_R x' Nx'). lra.
  - cbn [signed_R]. lra.
  - cbn [signed_R]. lra.
  - apply Rle_trans with (2 := Rd).
    apply Rmult_le_reg_r with (B2R l2); [exact Pl2|].
    unfold Rdiv. rewrite Rmult_assoc, Rinv_l, Rmult_1_r by lra.
    apply Rle_trans with (2 := Da).
    replace (B2R x - B2R x')
      with ((sqrt (B2R x) - sqrt (B2R x')) * (sqrt (B2R x) + sqrt (B2R x'))).
    + rewrite Rabs_mult.
      rewrite (Rabs_pos_eq (sqrt (B2R x) + sqrt (B2R x'))) by lra.
      apply Rmult_le_compat_l; [apply Rabs_pos|lra].
    + replace (B2R x) with (sqrt (B2R x) * sqrt (B2R x)) at 3
        by (apply sqrt_sqrt; lra).
      replace (B2R x') with (sqrt (B2R x') * sqrt (B2R x')) at 3
        by (apply sqrt_sqrt; lra).
      ring.
Qed.

Lemma aopp_R (a : av) (x x' : float) :
  rel a x x' -> rel (aopp a) (- x) (- x').
Proof.
  intros (W & M & M' & D). unfold rel, wf, mag_in, aopp in *.
  cbn [neg mlo mhi dd]. rewrite !B2R_opp, !signed_R_opp.
  repeat split; try apply W; destruct (neg a); cbn [signed_R] in *; try lra.
  - replace (- B2R x - - B2R x') with (- (B2R x - B2R x')) by ring.
    now rewrite Rabs_Ropp.
  - replace (- B2R x - - B2R x') with (- (B2R x - B2R x')) by ring.
    now rewrite Rabs_Ropp.
Qed.

Lemma finite_of_nonzero (x : float) : B2R x <> 0 -> finite x.
Proof.
  unfold B2R, finite. destruct (Prim2SF x); cbn [SF2R SFfinite]; intros H;
    try reflexivity; now contradiction H.
Qed.

Lemma B2R_zero : B2R 0 = 0.
Proof. reflexivity. Qed.

Lemma aconst_R (c : float) (r : av) : aconst c = Some r -> rel r c c.
Proof.
  unfold aconst. intros Hr.
  apply bind_Some in Hr. destruct Hr as (m & E & Hr). injection Hr as <-.
  apply chk_Some in E. destruct E as [-> Hm].
  pose proof (ok_pos _ Hm) as Pm. rewrite B2R_abs in Pm.
  assert (Hc : B2R c <> 0) by (intros E; rewrite E, Rabs_R0 in Pm; lra).
  pose proof (ltb_R c 0 (finite_of_nonzero c Hc) eq_refl) as Hlt.
  rewrite B2R_zero in Hlt.
  assert (Hs : signed_R (c <? 0)%float (B2R c) = Rabs (B2R c)).
  { destruct (c <? 0)%float; cbn [signed_R].
    - rewrite Rabs_left; [reflexivity|]. now apply Hlt.
    - rewrite Rabs_pos_eq; [reflexivity|].
      destruct (Rle_lt_dec 0 (B2R c)) as [H|H]; [exact H|].
      apply Hlt in H. discriminate H. }
  unfold rel, wf, mag_in. cbn [neg mlo mhi dd].
  rewrite Hs, B2R_abs, Rminus_diag, Rabs_R0.
  repeat split; try exact Hm; try exact ok_c_eps; try lra.
  apply Rlt_le, (ok_pos _ ok_c_eps).
Qed.

Lemma avar_R (s : bool) (ca cb lo hi : float) (a : av) (x x' : float) :
  avar s ca cb lo hi = Some a ->
  B2R lo <= signed_R s (B2R x) <= B2R hi ->
  Rabs (B2R x - B2R x') <= B2R ca + B2R cb * signed_R s (B2R x) ->
  rel a x x'.
Proof.
  unfold avar. intros Ha Hx Hd.
  apply bind_Some in Ha. destruct Ha as (ca' & E1 & Ha).
  apply bind_Some in Ha. destruct Ha as (cb' & E2 & Ha).
  apply bind_Some in Ha. destruct Ha as (lo0 & E3 & Ha).
  apply bind_Some in Ha. destruct Ha as (hi0 & E4 & Ha).
  apply chk_Some in E1, E2, E3, E4.
  destruct E1 as [-> Oca]. destruct E2 as [-> Ocb].
  destruct E3 as [-> Olo]. destruct E4 as [-> Ohi].
  apply bind_Some in Ha. destruct Ha as (t & E5 & Ha).
  apply bind_Some in Ha. destruct Ha as (d & E6 & Ha).
  apply bind_Some in Ha. destruct Ha as (lo' & E7 & Ha).
  apply bind_Some in Ha. destruct Ha as (hi' & E8 & Ha).
  injection Ha as <-.
  destruct (mulU_R _ _ _ Ocb Ohi E5) as [Ot Rt].
  destruct (addU_R _ _ _ Oca Ot E6) as [Od Rd].
  destruct (subD_R _ _ _ Olo Od E7) as [Olo' Rlo].
  destruct (addU_R _ _ _ Ohi Od E8) as [Ohi' Rhi].
  pose proof (ok_pos _ Ocb) as Pcb. pose proof (ok_pos _ Olo) as Plo.
  assert (Hd' : Rabs (B2R x - B2R x') <= B2R d) by nra.
  unfold rel, wf, mag_in. cbn [neg mlo mhi dd].
  apply Rabs_le_inv in Hd'.
  repeat split; try assumption; try apply Rabs_le;
    destruct s; cbn [signed_R] in *; try split; lra.
Qed.

Lemma aeval_R (e : expr) :
  forall (a r : av) (x x' : float),
    rel a x x' -> aeval e a = Some r -> rel r (eval e x) (eval e x').
Proof.
  induction e as [|c|e1 IH1 e2 IH2|e1 IH1 e2 IH2|e1 IH1 e2 IH2|e IH|e IH];
    intros a r x x' Ha Hr; cbn [aeval eval] in *.
  - now injection Hr as <-.
  - now apply aconst_R.
  - apply bind_Some in Hr. destruct Hr as (v1 & E1 & Hr).
    apply bind_Some in Hr. destruct Hr as (v2 & E2 & Hr).
    apply (aadd_R v1 v2); [eapply IH1|eapply IH2|]; eassumption.
  - apply bind_Some in Hr. destruct Hr as (v1 & E1 & Hr).
    apply bind_Some in Hr. destruct Hr as (v2 & E2 & Hr).
    apply (amul_R v1 v2); [eapply IH1|eapply IH2|]; eassumption.
  - apply bind_Some in Hr. destruct Hr as (v1 & E1 & Hr).
    apply bind_Some in Hr. destruct Hr as (v2 & E2 & Hr).
    apply (adiv_R v1 v2); [eapply IH1|eapply IH2|]; eassumption.
  - apply bind_Some in Hr. destruct Hr as (v & E & Hr).
    injection Hr as <-. apply aopp_R. eapply IH; eassumption.
  - apply bind_Some in Hr. destruct Hr as (v & E & Hr).
    apply (asqrt_R v); [eapply IH|]; eassumption.
Qed.

End Transfer.
(** ** What a passed check says *)

Module Covered.

Import Reals Lra.
Import F64 Real Rounded Stability Described Sound Transfer.
#[local] Open Scope R_scope.

Lemma agrees_R (tol : float) (r : av) (f f' : float) :
  rel r f f' -> agrees tol r = Some true ->
  within_relative tol f f' = true.
Proof.
  intros Hr Ha.
  destruct (rel_nice r f f' Hr) as [Nf Nf'].
  destruct Hr as (W & M & M' & D).
  destruct (mag_in_abs r _ W M) as (_ & Plo & B).
  destruct (mag_in_abs r _ W M') as (_ & _ & B').
  destruct W as (Olo & Ohi & Od).
  unfold agrees in Ha.
  apply bind_Some in Ha. destruct Ha as (tol' & E1 & Ha).
  apply chk_Some in E1. destruct E1 as [-> Otol].
  apply bind_Some in Ha. destruct Ha as (d & E2 & Ha).
  apply bind_Some in Ha. destruct Ha as (t & E3 & Ha).
  apply bind_Some in Ha. destruct Ha as (t' & E4 & Ha).
  injection Ha as Hle.
  destruct (up_R _ _ Od E2) as [Od' Rd].
  destruct (mulD_R _ _ _ Otol Olo E3) as [Ot Rt].
  destruct (dn_R _ _ Ot E4) as [Ot' Rt'].
  destruct (ok_R _ Od') as [Fd _]. destruct (ok_R _ Ot') as [Ft' _].
  apply (leb_R d t' Fd Ft') in Hle.
  pose proof (ok_pos _ Otol) as Ptol. pose proof (ok_pos _ Od) as Pd.
  pose proof (ok_pos _ Ot) as Pt. pose proof u_small as Hu.
  destruct (sub_R f f' Nf Nf') as [Fs Rs].
  apply Rabs_le_inv in Rs. fold u in Rs.
  assert (Hl : Rabs (B2R (f - f')) <= B2R d).
  { apply Rle_trans with (2 := Rd). apply Rabs_le.
    pose proof (Rabs_pos (B2R f - B2R f')) as P0.
    pose proof (Rle_abs (B2R f - B2R f')) as P1.
    pose proof (Rle_abs (- (B2R f - B2R f'))) as P2.
    rewrite Rabs_Ropp in P2.
    assert (u * Rabs (B2R f - B2R f') <= u * B2R (dd r))
      by (apply Rmult_le_compat_l; lra).
    split; nra. }
  assert (Hscale : forall g : float,
             nice g -> B2R (mlo r) <= B2R g ->
             (abs (f - f') <=? tol * g)%float = true).
  { intros g Ng Bg.
    destruct (mul_R tol g (ok_nice _ Otol) Ng) as [Fm Rm].
    apply (leb_R _ _ (finite_abs _ Fs) Fm). rewrite B2R_abs.
    apply Rabs_le_inv in Rm. fold u in Rm.
    rewrite (Rabs_pos_eq (B2R tol * B2R g)) in Rm by nra.
    nra. }
  unfold within_relative. cbv zeta.
  destruct (abs f <? abs f')%float.
  - apply Hscale.
    + unfold nice. rewrite B2R_abs, Rabs_Rabsolu. exact Nf'.
    + rewrite B2R_abs. lra.
  - apply Hscale.
    + unfold nice. rewrite B2R_abs, Rabs_Rabsolu. exact Nf.
    + rewrite B2R_abs. lra.
Qed.

Lemma leaf_R (e : expr) (tol : float) (s : bool) (ca cb lo hi : float)
    (x x' : float) :
  leaf e tol s ca cb lo hi = true ->
  B2R lo <= signed_R s (B2R x) <= B2R hi ->
  Rabs (B2R x - B2R x') <= B2R ca + B2R cb * signed_R s (B2R x) ->
  within_relative tol (eval e x) (eval e x') = true.
Proof.
  unfold leaf. intros H Hx Hd.
  destruct (a <- avar s ca cb lo hi ;; r <- aeval e a ;; agrees tol r)
    as [b|] eqn:E; [|discriminate H]. subst b.
  apply bind_Some in E. destruct E as (a & E1 & E).
  apply bind_Some in E. destruct E as (r & E2 & E).
  apply (agrees_R tol r); [|exact E].
  apply (aeval_R e a r x x'); [|exact E2].
  now apply (avar_R s ca cb lo hi).
Qed.

(** With the check passed on [lo, hi]: for every first run whose variable
    has the sign [s] and a magnitude in [lo, hi], and every second run
    whose variable is at most [ca + cb * magnitude] away from it, the two
    results agree within [tol]. *)
Lemma cover_R (n : nat) (e : expr) (tol : float) (s : bool) (ca cb : float) :
  forall (lo hi x x' : float),
    cover n e tol s ca cb lo hi = true ->
    B2R lo <= signed_R s (B2R x) <= B2R hi ->
    Rabs (B2R x - B2R x') <= B2R ca + B2R cb * signed_R s (B2R x) ->
    within_relative tol (eval e x) (eval e x') = true.
Proof.
  induction n as [|n IH]; intros lo hi x x' H Hx Hd; cbn [cover] in H;
    destruct (leaf e tol s ca cb lo hi) eqn:El;
    try (now apply (leaf_R e tol s ca cb lo hi)).
  cbv zeta in H.
  destruct (cover n e tol s ca cb lo ((lo + hi) / 2)) eqn:H1;
    [|discriminate H].
  destruct (Rle_lt_dec (signed_R s (B2R x)) (B2R ((lo + hi) / 2)))
    as [L|L].
  - apply (IH lo ((lo + hi) / 2)%float); [exact H1|lra|exact Hd].
  - apply (IH ((lo + hi) / 2)%float hi); [exact H|lra|exact Hd].
Qed.

End Covered.
(** ** The arguments of the stability check, from [p] *)

Module Offsets.

Import Reals Lra.
Import F64 Real Rounded Stability Described Sound Transfer Covered Ranges.
#[local] Open Scope R_scope.

(** A result within [u] of [t], relatively, is [t * (1 + e)]. *)
Lemma rel_eps (F t : R) :
  Rabs (F - t) <= bpow (-53) * Rabs t ->
  exists e : R, - u <= e <= u /\ F = t * (1 + e).
Proof.
  fold u. intros H. pose proof u_small as Hu.
  destruct (Req_dec t 0) as [E|E].
  - subst t. rewrite Rabs_R0, Rmult_0_r, Rminus_0_r in H.
    exists 0. split; [lra|].
    pose proof (Rabs_pos F). unfold Rabs in *.
    destruct (Rcase_abs F); lra.
  - exists ((F - t) / t). split; [|field; exact E].
    apply Rabs_le_inv. unfold Rdiv. rewrite Rabs_mult, Rabs_inv.
    apply Rmult_le_reg_r with (Rabs t); [now apply Rabs_pos_lt|].
    rewrite Rmult_assoc, Rinv_l by now apply Rabs_no_R0. lra.
Qed.

Lemma B2R_repr (x : float) (m : positive) (e k n : Z) :
  Prim2SF x = S754_finite false m e ->
  Z.pos m = (k * 2 ^ n)%Z -> (0 <= n)%Z ->
  B2R x = IZR k * bpow (n + e).
Proof.
  intros E Hm Hn. unfold B2R. rewrite E. cbn [SF2R signed_R].
  rewrite Hm, mult_IZR, <- bpow_IZR, bpow_add by exact Hn. ring.
Qed.

Lemma B2R_half : B2R 0.5 = / 2.
Proof. rewrite (B2R_pow2 0.5 (-53)) by reflexivity. apply bpow_m1. Qed.

Lemma B2R_one : B2R 1 = 1.
Proof. now rewrite (B2R_pow2 1 (-52)). Qed.

Lemma u_16 : bpow (-57) = u / 16.
Proof.
  change (-57)%Z with (-53 + -4)%Z. rewrite bpow_add. fold u.
  unfold bpow. simpl. lra.
Qed.

Lemma B2R_lower_ca : B2R lower_ca = 0.5625 * u.
Proof.
  rewrite (B2R_repr lower_ca 5066549580791808 (-106) 9 49)
    by (reflexivity || lia).
  change (49 + -106)%Z with (-57)%Z. rewrite u_16. lra.
Qed.

Lemma B2R_lower_cb : B2R lower_cb = 3.5 * u.
Proof.
  rewrite (B2R_repr lower_cb 7881299347898368 (-104) 56 47)
    by (reflexivity || lia).
  change (47 + -104)%Z with (-57)%Z. rewrite u_16. lra.
Qed.

Lemma leb_between (lo x hi : float) :
  finite lo -> finite hi ->
  (lo <=? x)%float = true -> (x <=? hi)%float = true ->
  finite x /\ B2R lo <= B2R x <= B2R hi.
Proof.
  intros Fl Fh Hl Hh.
  pose proof (between_finite lo x hi Fl Fh Hl Hh) as Fx.
  split; [exact Fx|]. split.
  - now apply (leb_R lo x Fl Fx).
  - now apply (leb_R x hi Fx Fh).
Qed.

Lemma bpow_bounds :
  bpow (-499) <= bpow (-249) /\ bpow (-249) <= / 4 /\ 2 <= bpow 499.
Proof.
  split; [apply bpow_le; lia|]. split.
  - apply Rle_trans with (bpow (-2)); [apply bpow_le; lia|].
    unfold bpow. simpl. lra.
  - rewrite <- bpow_1. apply bpow_le. lia.
Qed.

Lemma lower_lo_eq : (f <- subD 0.5 below_half ;; dn f) = Some lower_lo.
Proof. reflexivity. Qed.

Lemma lower_hi_eq : (f <- subU 0.5 pLow ;; up f) = Some lower_hi.
Proof. reflexivity. Qed.

Lemma upper_hi_eq : (f <- subU pHigh 0.5 ;; up f) = Some upper_hi.
Proof. reflexivity. Qed.

(** For [pLow <= p <= below_half]: [q = p - 0.5] is in the range of the
    check, and the offset of [1 - p], negated, is as close to it as the
    check assumes. *)
Lemma lower_half_offsets (p : float) :
  (pLow <=? p)%float = true -> (p <=? below_half)%float = true ->
  B2R lower_lo <= signed_R true (B2R (p - 0.5)) <= B2R lower_hi /\
  Rabs (B2R (p - 0.5) - B2R (- ((1 - p) - 0.5)))
  <= B2R lower_ca + B2R lower_cb * signed_R true (B2R (p - 0.5)).
Proof.
  intros Hlo Hhi.
  destruct (leb_between pLow p below_half eq_refl eq_refl Hlo Hhi)
    as (Fp & Blo & Bhi).
  pose proof u_small as Hu. destruct bpow_bounds as (K1 & K2 & K3).
  assert (Ohalf : ok 0.5 = true) by reflexivity.
  assert (Oone : ok 1 = true) by reflexivity.
  assert (OpLow : ok pLow = true) by reflexivity.
  assert (Obh : ok below_half = true) by reflexivity.
  pose proof (ok_pos _ OpLow) as PpLow.
  destruct (ok_R _ OpLow) as [_ [LpLow _]].
  (* the ends of the range *)
  pose proof lower_lo_eq as E1. apply bind_Some in E1.
  destruct E1 as (g1 & E1 & E1').
  destruct (subD_R _ _ _ Ohalf Obh E1) as [Og1 Rg1].
  destruct (dn_R _ _ Og1 E1') as [_ Rlo]. pose proof (ok_pos _ Og1) as Pg1.
  pose proof lower_hi_eq as E2. apply bind_Some in E2.
  destruct E2 as (g2 & E2 & E2').
  destruct (subU_R _ _ _ Ohalf OpLow E2) as [Og2 Rg2].
  destruct (up_R _ _ Og2 E2') as [_ Rhi]. pose proof (ok_pos _ Og2) as Pg2.
  rewrite B2R_half in *.
  (* the three subtractions *)
  assert (Np : nice p) by (apply nice_of_bounds; lra).
  destruct (sub_R p 0.5 Np (ok_nice _ Ohalf)) as [_ Hq].
  apply rel_eps in Hq. destruct Hq as (e1 & He1 & Hq).
  destruct (sub_R 1 p (ok_nice _ Oone) Np) as [_ Hw].
  apply rel_eps in Hw. destruct Hw as (e2 & He2 & Hw).
  rewrite B2R_one in Hw. rewrite B2R_half in Hq.
  assert (Nw : nice (1 - p)) by (apply nice_of_bounds; rewrite Hw; nra).
  destruct (sub_R (1 - p) 0.5 Nw (ok_nice _ Ohalf)) as [_ Hq'].
  apply rel_eps in Hq'. destruct Hq' as (e3 & He3 & Hq').
  rewrite B2R_half, Hw in Hq'.
  rewrite B2R_opp, Hq, Hq', B2R_lower_ca, B2R_lower_cb. cbn [signed_R].
  set (P := B2R p) in *. set (D := / 2 - P).
  assert (HD : 0 < D < / 2) by (unfold D; lra).
  replace (P - / 2) with (- D) by (unfold D; ring).
  replace ((1 - P) * (1 + e2) - / 2) with (D + (/ 2 + D) * e2)
    by (unfold D; field).
  assert (Hg1 : B2R g1 <= D) by (unfold D; lra).
  assert (Hg2 : D <= B2R g2) by (unfold D; lra).
  assert (T1 : D * (1 - u) <= D * (1 + e1) <= D * (1 + u))
    by (split; apply Rmult_le_compat_l; lra).
  assert (T2 : B2R g1 * (1 - 2 * u) <= D * (1 - u))
    by (apply Rmult_le_compat; lra).
  assert (T3 : D * (1 + u) <= B2R g2 * (1 + 2 * u))
    by (apply Rmult_le_compat; lra).
  split; [lra|].
  replace (- D * (1 + e1) - - ((D + (/ 2 + D) * e2) * (1 + e3)))
    with (D * e3 - D * e1 + (/ 2 + D) * (e2 * (1 + e3))) by ring.
  replace (- (- D * (1 + e1))) with (D * (1 + e1)) by ring.
  assert (Hde3 : - (u * D) <= D * e3 <= u * D) by (split; nra).
  assert (Hde1 : - (u * D) <= D * e1 <= u * D) by (split; nra).
  assert (HB : - (u * (1 + u)) <= e2 * (1 + e3) <= u * (1 + u))
    by (split; nra).
  assert (HC : - ((/ 2 + D) * (u * (1 + u)))
               <= (/ 2 + D) * (e2 * (1 + e3))
               <= (/ 2 + D) * (u * (1 + u)))
    by (split; [rewrite Ropp_mult_distr_r|];
        apply Rmult_le_compat_l; lra).
  replace ((/ 2 + D) * (u * (1 + u)))
    with (u / 2 + u * u / 2 + u * D + u * u * D) in HC by field.
  assert (HR : 0.5625 * u + 3.5 * (u * D) - 3.5 * (u * u * D)
               <= 0.5625 * u + 3.5 * u * (D * (1 + e1))).
  { replace (3.5 * u * (D * (1 + e1)))
      with (3.5 * (u * D) + 3.5 * (u * (D * e1))) by ring.
    assert (- (u * (u * D)) <= u * (D * e1)) by nra.
    lra. }
  assert (Hud : 0 <= u * D) by nra.
  assert (Huu : 0 <= u * u <= u / 1024) by nra.
  assert (Huud : 0 <= u * u * D <= u * D / 1024) by nra.
  assert (Hud' : u * D <= u / 2) by nra.
  apply Rabs_le. lra.
Qed.


Lemma ltb_leb (x y : float) : (x <? y)%float = true -> (x <=? y)%float = true.
Proof.
  rewrite ltb_spec, leb_spec. unfold SFltb, SFleb.
  now destruct (SFcompare (Prim2SF x) (Prim2SF y)) as [[| |]|].
Qed.

Lemma B2R_upper_lo : B2R upper_lo = u / 2.
Proof.
  rewrite (B2R_pow2 upper_lo (-106)) by reflexivity.
  change (52 + -106)%Z with (-53 + -1)%Z. rewrite bpow_add, bpow_m1.
  fold u. lra.
Qed.

(** For [0.5 < p <= pHigh]: [q = p - 0.5] is in the range of the check. *)
Lemma upper_half_offsets (p : float) :
  (0.5 <? p)%float = true -> (p <=? pHigh)%float = true ->
  (p <? 1)%float = true /\
  B2R upper_lo <= signed_R false (B2R (p - 0.5)) <= B2R upper_hi.
Proof.
  intros Hlo Hhi.
  destruct (leb_between 0.5 p pHigh eq_refl eq_refl (ltb_leb _ _ Hlo) Hhi)
    as (Fp & Blo & Bhi).
  pose proof u_small as Hu. destruct bpow_bounds as (K1 & K2 & K3).
  assert (Ohalf : ok 0.5 = true) by reflexivity.
  assert (OpHigh : ok pHigh = true) by reflexivity.
  assert (H1 : B2R pHigh < B2R 1)
    by now apply (ltb_R pHigh 1 eq_refl eq_refl).
  rewrite B2R_one in H1. rewrite B2R_half in Blo.
  assert (Hp1 : (p <? 1)%float = true).
  { apply (ltb_R p 1 Fp eq_refl). rewrite B2R_one. lra. }
  split; [exact Hp1|].
  destruct (Reflect.between_half_and_one p Hlo Hp1) as (m & E & Hm & _).
  assert (Hm' : (2 ^ 52 + 1 <= Z.pos m)%Z) by lia.
  assert (HP : / 2 + u <= B2R p).
  { unfold B2R. rewrite E. cbn [SF2R signed_R].
    apply IZR_le in Hm'. rewrite plus_IZR, <- bpow_IZR in Hm' by lia.
    fold u. pose proof (bpow_pos (-53)) as Pu. fold u in Pu.
    replace (/ 2 + u) with ((bpow 52 + 1) * u).
    - apply Rmult_le_compat_r; lra.
    - rewrite Rmult_plus_distr_r. unfold u. rewrite <- bpow_add.
      change (52 + -53)%Z with (-1)%Z. rewrite bpow_m1. lra. }
  pose proof upper_hi_eq as E2. apply bind_Some in E2.
  destruct E2 as (g2 & E2 & E2').
  destruct (subU_R _ _ _ OpHigh Ohalf E2) as [Og2 Rg2].
  destruct (up_R _ _ Og2 E2') as [_ Rhi]. pose proof (ok_pos _ Og2) as Pg2.
  rewrite B2R_half in Rg2.
  assert (Np : nice p) by (apply nice_of_bounds; lra).
  destruct (sub_R p 0.5 Np (ok_nice _ Ohalf)) as [_ Hq].
  apply rel_eps in Hq. destruct Hq as (e1 & He1 & Hq).
  rewrite B2R_half in Hq. rewrite Hq, B2R_upper_lo. cbn [signed_R].
  set (D := B2R p - / 2) in *.
  assert (HD : u <= D <= B2R g2) by (unfold D; lra).
  assert (T1 : D * (1 - u) <= D * (1 + e1) <= D * (1 + u))
    by (split; apply Rmult_le_compat_l; lra).
  assert (T2 : u * (1 - u) <= D * (1 - u))
    by (apply Rmult_le_compat_r; lra).
  assert (T3 : D * (1 + u) <= B2R g2 * (1 + 2 * u))
    by (apply Rmult_le_compat; lra).
  assert (T4 : 0 <= u * u <= u / 2) by nra.
  lra.
Qed.

(** *** The logarithms of a tail *)

Lemma B2R_tail_lo : B2R (-3.7) = - B2R tail_lo.
Proof. now rewrite <- B2R_opp. Qed.

Lemma B2R_tail_hi : B2R (-745) = - B2R tail_hi.
Proof. now rewrite <- B2R_opp. Qed.

Lemma log_range (l : float) :
  log_in_range l = true ->
  nice l /\ B2R tail_lo <= signed_R true (B2R l) <= B2R tail_hi.
Proof.
  unfold log_in_range. rewrite andb_true_iff. intros [Hlo Hhi].
  destruct (leb_between (-745) l (-3.7) eq_refl eq_refl Hlo Hhi)
    as (Fl & Blo & Bhi).
  rewrite B2R_tail_hi in Blo. rewrite B2R_tail_lo in Bhi.
  assert (Olo : ok tail_lo = true) by reflexivity.
  assert (Ohi : ok tail_hi = true) by reflexivity.
  destruct (ok_R _ Olo) as [_ [L1 _]]. destruct (ok_R _ Ohi) as [_ [_ L2]].
  pose proof (bpow_le (-499) (-249) ltac:(lia)).
  pose proof (bpow_le 249 499 ltac:(lia)).
  pose proof (bpow_pos (-499)).
  cbn [signed_R]. split; [|lra].
  unfold nice. rewrite Rabs_left by lra. lra.
Qed.

Lemma tail_cb_eq : mulU log_tolerance 0x1.00001p+0 = Some tail_cb.
Proof. reflexivity. Qed.

Lemma bpow_m20 : bpow (-20) = / 1048576.
Proof. unfold bpow. simpl. lra. Qed.

Lemma bpow_m30 : bpow (-30) = / 1073741824.
Proof. unfold bpow. simpl. lra. Qed.

Lemma u_tiny : u <= / 1073741824.
Proof. rewrite <- bpow_m30. apply bpow_le. lia. Qed.

Lemma tail_cb_bound :
  0 < B2R log_tolerance <= / 1073741824 /\
  B2R log_tolerance * (1 + / 1048576) <= B2R tail_cb.
Proof.
  assert (Ot : ok log_tolerance = true) by reflexivity.
  assert (Oc : ok 0x1.00001p+0 = true) by reflexivity.
  split.
  - split; [apply (ok_pos _ Ot)|].
    rewrite <- bpow_m30. change (-30)%Z with (52 + -82)%Z.
    rewrite <- (B2R_pow2 0x1p-30 (-82)) by reflexivity.
    now apply (leb_R log_tolerance 0x1p-30).
  - destruct (mulU_R _ _ _ Ot Oc tail_cb_eq) as [_ H].
    rewrite (B2R_repr 0x1.00001p+0 4503603922337792 (-52) 1048577 32)
      in H by (reflexivity || lia).
    change (32 + -52)%Z with (-20)%Z in H. rewrite bpow_m20 in H. lra.
Qed.

(** Two logarithms in range that agree within [log_tolerance] are as close
    as the check of the lower tail assumes. *)
Lemma log_agreement (l l' : float) :
  log_in_range l = true -> log_in_range l' = true ->
  within_relative log_tolerance l l' = true ->
  Rabs (B2R l - B2R l')
  <= B2R c_eps + B2R tail_cb * signed_R true (B2R l).
Proof.
  intros Hl Hl' Hw.
  destruct (log_range l Hl) as [Nl Bl].
  destruct (log_range l' Hl') as [Nl' Bl'].
  cbn [signed_R] in *.
  assert (Olo : ok tail_lo = true) by reflexivity.
  pose proof (ok_pos _ Olo) as Plo. pose proof (ok_pos _ ok_c_eps) as Pe.
  destruct tail_cb_bound as ([PH BH] & Bcb).
  pose proof u_small as Hu. pose proof u_tiny as Hu'.
  assert (Ot : ok log_tolerance = true) by reflexivity.
  destruct (sub_R l l' Nl Nl') as [Fs Hs].
  apply rel_eps in Hs. destruct Hs as (e1 & He1 & Hs).
  set (A := - B2R l) in *. set (X := Rabs (B2R l - B2R l')).
  assert (HX : 0 <= X) by apply Rabs_pos.
  assert (HS : forall g : float,
             nice g -> B2R g <= A + X ->
             (abs (l - l') <=? log_tolerance * g)%float = true ->
             X * (1 - u) <= B2R log_tolerance * (1 + u) * (A + X)).
  { intros g Ng Bg Hle.
    destruct (mul_R log_tolerance g (ok_nice _ Ot) Ng) as [Fm Hm].
    apply rel_eps in Hm. destruct Hm as (e2 & He2 & Hm).
    apply (leb_R _ _ (finite_abs _ Fs) Fm) in Hle.
    rewrite B2R_abs, Hs, Hm, Rabs_mult in Hle. fold X in Hle.
    rewrite (Rabs_pos_eq (1 + e1)) in Hle by lra.
    assert (X * (1 - u) <= X * (1 + e1))
      by (apply Rmult_le_compat_l; lra).
    assert (0 <= B2R g).
    { destruct (Rle_lt_dec 0 (B2R g)) as [P|P]; [exact P|exfalso].
      assert (B2R log_tolerance * B2R g * (1 + e2) < 0); [|nra].
      apply Ropp_lt_cancel. rewrite Ropp_0.
      replace (- (B2R log_tolerance * B2R g * (1 + e2)))
        with (B2R log_tolerance * (- B2R g) * (1 + e2)) by ring.
      apply Rmult_lt_0_compat; [apply Rmult_lt_0_compat|]; lra. }
    assert (B2R log_tolerance * B2R g * (1 + e2)
            <= B2R log_tolerance * (A + X) * (1 + u)).
    { apply Rmult_le_compat; try lra.
      - apply Rmult_le_pos; lra.
      - apply Rmult_le_compat_l; lra. }
    lra. }
  assert (HXA : X * (1 - u) <= B2R log_tolerance * (1 + u) * (A + X)).
  { pose proof (Rle_abs (B2R l - B2R l')) as P1.
    pose proof (Rle_abs (- (B2R l - B2R l'))) as P2.
    rewrite Rabs_Ropp in P2. fold X in P1, P2.
    unfold within_relative in Hw. cbv zeta in Hw.
    destruct (abs l <? abs l')%float.
    - apply (HS (abs l')); [|rewrite B2R_abs|exact Hw].
      + unfold nice. rewrite B2R_abs, Rabs_Rabsolu. exact Nl'.
      + rewrite Rabs_left by lra. unfold A. lra.
    - apply (HS (abs l)); [|rewrite B2R_abs|exact Hw].
      + unfold nice. rewrite B2R_abs, Rabs_Rabsolu. exact Nl.
      + unfold A in *. rewrite Rabs_left by lra. lra. }
  set (H := B2R log_tolerance) in *.
  assert (HA : 0 < A) by lra.
  assert (Hc : 1 + u <= (1 + / 1048576) * (1 - u - H * (1 + u))).
  { assert (0 <= H * u <= u) by nra. lra. }
  assert (Hc0 : 0 < 1 - u - H * (1 + u)).
  { assert (0 <= H * u <= u) by nra. lra. }
  assert (HG : X <= H * (1 + / 1048576) * A).
  { apply Rmult_le_reg_r with (1 - u - H * (1 + u)); [exact Hc0|].
    apply Rle_trans with (H * (1 + u) * A); [lra|].
    replace (H * (1 + / 1048576) * A * (1 - u - H * (1 + u)))
      with (H * A * ((1 + / 1048576) * (1 - u - H * (1 + u)))) by ring.
    replace (H * (1 + u) * A) with (H * A * (1 + u)) by ring.
    apply Rmult_le_compat_l; [apply Rmult_le_pos; lra|exact Hc]. }
  assert (H * (1 + / 1048576) * A <= B2R tail_cb * A)
    by (apply Rmult_le_compat_r; lra).
  lra.
Qed.


(** A run is as close to itself as any check assumes. *)
Lemma same_run (s : bool) (lo x : float) :
  ok lo = true -> B2R lo <= signed_R s (B2R x) ->
  Rabs (B2R x - B2R x) <= B2R c_eps + B2R c_eps * signed_R s (B2R x).
Proof.
  intros Hlo Hx. rewrite Rminus_diag, Rabs_R0.
  pose proof (ok_pos _ Hlo). pose proof (ok_pos _ ok_c_eps). nra.
Qed.

End Offsets.
(** ** Properties of the calculator *)

(** *** The engine of the examples meets the facts the properties name *)

Lemma eqb_0_cases (x : float) :
  (x =? 0) = true -> exists s, Prim2SF x = S754_zero s.
Proof.
  rewrite eqb_spec, F64.Prim2SF_zero.
  destruct (Prim2SF x) as [s|s| |s m e]; cbn; try discriminate.
  - now exists s.
  - destruct s; discriminate.
  - destruct s; discriminate.
Qed.

Lemma Engine_log_negative (x : float) :
  (x <? 0) = true -> Engine.Math_log x = nan.
Proof. intros H. unfold Engine.Math_log. now rewrite H. Qed.

Lemma Engine_log_zero (x : float) :
  (x =? 0) = true -> Engine.Math_log x = neg_infinity.
Proof.
  intros H. unfold Engine.Math_log. rewrite H.
  destruct (eqb_0_cases x H) as [s E].
  rewrite ltb_spec, E. reflexivity.
Qed.

Lemma Engine_pow_square (x : float) : Engine.Math_pow x 2 = x * x.
Proof. reflexivity. Qed.

Section Calculator.

Variable Math_log : float -> float.
Variable Math_pow : float -> float -> float.

(** *** What the body does once the checks pass, and only then *)

Lemma accepted_checks (bcr mde alpha power splitRatio : float) :
  accepted bcr mde alpha power splitRatio = true ->
  let p1 := bcr / 100 in
  let p2 := p1 * (1 + mde / 100) in
  (p1 <=? 0) || (p1 >=? 1) = false /\
  (p2 <=? 0) || (p2 >? 1) = false /\
  (alpha <=? 0) || (alpha >=? 1) = false /\
  (power <=? 0) || (power >=? 1) = false /\
  (splitRatio <=? 0) || (splitRatio >=? 1) = false.
Proof.
  unfold accepted. cbv zeta.
  rewrite !andb_true_iff, !negb_true_iff. tauto.
Qed.

Lemma calculateSampleSize_accepted
    (bcr mde alpha power : float) (twoSided : bool) (splitRatio : float) :
  accepted bcr mde alpha power splitRatio = true ->
  calculateSampleSize Math_log Math_pow bcr mde alpha power twoSided splitRatio
  = Returned
      (sizes_from_z Math_pow (bcr / 100) (bcr / 100 * (1 + mde / 100))
         splitRatio
         (if twoSided then normalInverse Math_log (1 - alpha / 2)
          else normalInverse Math_log (1 - alpha))
         (normalInverse Math_log power)).
Proof.
  intros H. apply accepted_checks in H. cbv zeta in H.
  destruct H as (H1 & H2 & H3 & H4 & H5).
  unfold calculateSampleSize. cbv zeta.
  rewrite H1, H2, H3, H4, H5. reflexivity.
Qed.

Lemma calculateSampleSize_returned
    (bcr mde alpha power : float) (twoSided : bool) (splitRatio : float)
    (r : SampleSizes) :
  calculateSampleSize Math_log Math_pow bcr mde alpha power twoSided splitRatio
  = Returned r ->
  accepted bcr mde alpha power splitRatio = true.
Proof.
  unfold calculateSampleSize, accepted, throw_if. cbv zeta.
  destruct (_ || _); [discriminate|].
  destruct (_ || _); [discriminate|].
  destruct (_ || _); [discriminate|].
  destruct (_ || _); [discriminate|].
  destruct (_ || _); [discriminate|].
  reflexivity.
Qed.

(** *** The sample-size formula *)

(** C1: for every input that passes the five checks (and has a positive
    effect size [delta = |p2 - p1|]), the sizes returned are those computed
    from [nEqual = 2 * (zAlpha + zBeta)^2 * p1 * (1 - p1) / delta^2]: the
    variance term is [p1 * (1 - p1)], the baseline proportion only; [p2]
    enters through [delta] alone. *)
Theorem nEqual_uses_baseline_variance
    (bcr mde alpha power : float) (twoSided : bool) (splitRatio : float) :
  accepted bcr mde alpha power splitRatio = true ->
  (0 <? Math_abs (bcr / 100 * (1 + mde / 100) - bcr / 100)) = true ->
  let p1 := bcr / 100 in
  let p2 := p1 * (1 + mde / 100) in
  let zAlpha :=
    if twoSided then normalInverse Math_log (1 - alpha / 2)
    else normalInverse Math_log (1 - alpha) in
  let zBeta := normalInverse Math_log power in
  let delta := Math_abs (p2 - p1) in
  let nEqual :=
    2 * Math_pow (zAlpha + zBeta) 2 * p1 * (1 - p1) / Math_pow delta 2 in
  calculateSampleSize Math_log Math_pow bcr mde alpha power twoSided splitRatio
  = Returned (sizes_from_nEqual splitRatio nEqual).
Proof.
  intros Hacc _. cbv zeta.
  now rewrite calculateSampleSize_accepted.
Qed.

(** C5: for every input that passes the five checks, the sizes returned
    are those computed from the z-scores [zAlpha = normalInverse (1 - alpha/2)]
    for a two-sided test, [zAlpha = normalInverse (1 - alpha)] for a
    one-sided one, and [zBeta = normalInverse power]. *)
Theorem z_scores_from_normalInverse
    (bcr mde alpha power splitRatio : float) :
  accepted bcr mde alpha power splitRatio = true ->
  let p1 := bcr / 100 in
  let p2 := p1 * (1 + mde / 100) in
  let zBeta := normalInverse Math_log power in
  calculateSampleSize Math_log Math_pow bcr mde alpha power true splitRatio
  = Returned
      (sizes_from_z Math_pow p1 p2 splitRatio
         (normalInverse Math_log (1 - alpha / 2)) zBeta) /\
  calculateSampleSize Math_log Math_pow bcr mde alpha power false splitRatio
  = Returned
      (sizes_from_z Math_pow p1 p2 splitRatio
         (normalInverse Math_log (1 - alpha)) zBeta).
Proof.
  intros Hacc. cbv zeta.
  split; now rewrite calculateSampleSize_accepted.
Qed.

(** C6: for every input that passes the five checks (and has a positive
    effect size), with [k = splitRatio / (1 - splitRatio)] the function
    returns [controlSize = ceil (nEqual * (1 + 1/k) / 2)], then
    [testSize = ceil (controlSize * k)], then
    [totalSize = controlSize + testSize]. *)
Theorem unequal_split_adjustment
    (bcr mde alpha power : float) (twoSided : bool) (splitRatio : float) :
  accepted bcr mde alpha power splitRatio = true ->
  (0 <? Math_abs (bcr / 100 * (1 + mde / 100) - bcr / 100)) = true ->
  let nEqual := nEqual_of Math_log Math_pow bcr mde alpha power twoSided in
  let k := splitRatio / (1 - splitRatio) in
  let control := Math_ceil (nEqual * (1 + 1 / k) / 2) in
  let test := Math_ceil (control * k) in
  let total := control + test in
  calculateSampleSize Math_log Math_pow bcr mde alpha power twoSided splitRatio
  = Returned {| controlSize := control; testSize := test; totalSize := total |}.
Proof.
  intros Hacc _. cbv zeta.
  now rewrite calculateSampleSize_accepted.
Qed.

(** *** The sizes returned *)

(** C9: whenever the function returns with [splitRatio = 0.5], the test
    size it returns is the control size it returns: then [k] is exactly 1,
    and the ceiling of a ceiling is that ceiling. *)
Theorem equal_split_same_sizes
    (bcr mde alpha power : float) (twoSided : bool) (r : SampleSizes) :
  calculateSampleSize Math_log Math_pow bcr mde alpha power twoSided 0.5
  = Returned r ->
  testSize r = controlSize r.
Proof.
  intros H. pose proof (calculateSampleSize_returned _ _ _ _ _ _ _ H) as Hacc.
  rewrite (calculateSampleSize_accepted _ _ _ _ _ _ Hacc) in H.
  injection H as <-.
  unfold sizes_from_z, sizes_from_nEqual. cbn [testSize controlSize].
  replace (0.5 / (1 - 0.5)) with 1 by reflexivity.
  now rewrite F64.mul_1_r, F64.Math_ceil_idempotent.
Qed.

(** C4, as the code has it: for every input that passes the five checks
    the function returns, with [totalSize = controlSize + testSize]; the
    control size is at least 1 when the quantity rounded up to it,
    [nEqual * (1 + 1/k) / 2], is positive, and the test size is at least 1
    when [controlSize * k] is positive. *)
Theorem sizes_consistent
    (bcr mde alpha power : float) (twoSided : bool) (splitRatio : float) :
  accepted bcr mde alpha power splitRatio = true ->
  exists r : SampleSizes,
    calculateSampleSize Math_log Math_pow bcr mde alpha power twoSided
      splitRatio = Returned r /\
    totalSize r = controlSize r + testSize r /\
    let nEqual := nEqual_of Math_log Math_pow bcr mde alpha power twoSided in
    let k := splitRatio / (1 - splitRatio) in
    ((0 <? nEqual * (1 + 1 / k) / 2) = true -> (controlSize r >=? 1) = true) /\
    ((0 <? controlSize r * k) = true -> (testSize r >=? 1) = true).
Proof.
  intros Hacc. eexists. split; [now apply calculateSampleSize_accepted|].
  split; [reflexivity|]. cbv zeta.
  unfold sizes_from_z, sizes_from_nEqual, geb.
  cbn [testSize controlSize]. split; apply F64.Math_ceil_positive.
Qed.

(** *** Rejections *)

(** C8, as the code has it: with [alpha = 1.5], an input whose baseline
    rate and test rate pass their checks is rejected with the
    significance-level message, whatever the power, the sidedness and the
    split ratio. *)
Theorem alpha_above_one_rejected
    (bcr mde power : float) (twoSided : bool) (splitRatio : float) :
  let p1 := bcr / 100 in
  let p2 := p1 * (1 + mde / 100) in
  (p1 <=? 0) || (p1 >=? 1) = false ->
  (p2 <=? 0) || (p2 >? 1) = false ->
  calculateSampleSize Math_log Math_pow bcr mde 1.5 power twoSided splitRatio
  = Thrown SignificanceOutOfRange.
Proof.
  cbv zeta. intros H1 H2. unfold calculateSampleSize. cbv zeta.
  rewrite H1, H2. reflexivity.
Qed.

(** C2, what the code does: an input that passes the five checks and has
    effect size zero is not rejected.  The function returns, and none of
    the three sizes is a finite number.  ([Math.pow] of zero to the power 2
    is the zero ECMAScript prescribes.) *)
Theorem zero_effect_returns_non_finite
    (bcr mde alpha power : float) (twoSided : bool) (splitRatio : float) :
  Math_pow 0 2 = 0 ->
  accepted bcr mde alpha power splitRatio = true ->
  Math_abs (bcr / 100 * (1 + mde / 100) - bcr / 100) = 0 ->
  exists r : SampleSizes,
    calculateSampleSize Math_log Math_pow bcr mde alpha power twoSided
      splitRatio = Returned r /\
    is_finite (controlSize r) = false /\
    is_finite (testSize r) = false /\
    is_finite (totalSize r) = false.
Proof.
  intros Hpow Hacc Hdelta.
  eexists. split; [now apply calculateSampleSize_accepted|].
  unfold sizes_from_z, sizes_from_nEqual.
  cbn [testSize controlSize totalSize]. rewrite Hdelta, Hpow.
  set (k := splitRatio / (1 - splitRatio)).
  set (x := _ / 0 * (1 + 1 / k) / 2).
  assert (Hx : is_finite x = false).
  { apply F64.div_nonfinite_l, F64.mul_nonfinite_l,
      F64.div_by_zero_nonfinite. }
  rewrite (F64.Math_ceil_nonfinite x Hx).
  assert (Hy : is_finite (x * k) = false) by now apply F64.mul_nonfinite_l.
  rewrite (F64.Math_ceil_nonfinite _ Hy).
  repeat split; auto using F64.add_nonfinite_l.
Qed.

End Calculator.

(** *** The order of the checks *)

Lemma Prim2SF_100 : Prim2SF 100 = S754_finite false 7036874417766400 (-46).
Proof. reflexivity. Qed.

(** The test of the source, [x <= 0 || x >= 1], rejects a number exactly
    when it violates [0 < x < 1]; likewise [x <= 0 || x > 1] and
    [0 < x <= 1]. *)
Lemma rejects_outside_unit (x : float) :
  is_nan x = false ->
  (x <=? 0) || (x >=? 1) = negb (strictly_inside_unit x).
Proof.
  intros Hx. unfold geb, strictly_inside_unit.
  rewrite (F64.leb_negb_ltb x 0 Hx eq_refl), (F64.leb_negb_ltb 1 x eq_refl Hx).
  now rewrite negb_andb.
Qed.

Lemma rejects_outside_unit_or_one (x : float) :
  is_nan x = false ->
  (x <=? 0) || (x >? 1) = negb (inside_unit_or_one x).
Proof.
  intros Hx. unfold gtb, inside_unit_or_one.
  rewrite (F64.leb_negb_ltb x 0 Hx eq_refl), (F64.leb_negb_ltb x 1 Hx eq_refl).
  now rewrite negb_andb, negb_involutive.
Qed.

Lemma p1_not_nan (bcr : float) :
  is_nan bcr = false -> is_nan (bcr / 100) = false.
Proof. apply (F64.div_finite_not_nan _ _ _ _ _ Prim2SF_100). Qed.

Lemma p2_not_nan (p1 mde : float) :
  strictly_inside_unit p1 = true -> is_nan mde = false ->
  is_nan (p1 * (1 + mde / 100)) = false.
Proof.
  intros H1 Hm.
  destruct (F64.strictly_inside_unit_finite p1 H1) as (m & e & E).
  apply (F64.mul_finite_not_nan _ _ _ _ _ E).
  apply (F64.add_finite_not_nan _ _ _ _ _ F64.Prim2SF_one).
  apply (F64.div_finite_not_nan _ _ _ _ _ Prim2SF_100), Hm.
Qed.

Lemma messages_distinct :
  NoDup [BaselineRateOutOfRange; TestRateInvalid; SignificanceOutOfRange;
         PowerOutOfRange; SplitRatioOutOfRange].
Proof.
  repeat constructor; cbn; intros H;
    repeat (destruct H as [H|H]; [discriminate H|]); exact H.
Qed.

Section Validation.

Variable Math_log : float -> float.
Variable Math_pow : float -> float -> float.

(** C3: on numbers (no argument is NaN) the function checks [0 < p1 < 1],
    then [0 < p2 <= 1], then [0 < alpha < 1], then [0 < power < 1], then
    [0 < splitRatio < 1]; it throws the message of the first condition that
    is violated, one message, and the five messages are pairwise distinct.
    Which message is thrown is settled before the engine is used: it is the
    same for every [Math.log] and [Math.pow].  With no condition violated the
    function returns. *)
Theorem validation_order
    (bcr mde alpha power : float) (twoSided : bool) (splitRatio : float) :
  is_nan bcr = false -> is_nan mde = false -> is_nan alpha = false ->
  is_nan power = false -> is_nan splitRatio = false ->
  let p1 := bcr / 100 in
  let p2 := p1 * (1 + mde / 100) in
  NoDup [BaselineRateOutOfRange; TestRateInvalid; SignificanceOutOfRange;
         PowerOutOfRange; SplitRatioOutOfRange] /\
  match first_violation p1 p2 alpha power splitRatio with
  | Some message =>
      calculateSampleSize Math_log Math_pow bcr mde alpha power twoSided
        splitRatio = Thrown message
  | None =>
      exists r : SampleSizes,
        calculateSampleSize Math_log Math_pow bcr mde alpha power twoSided
          splitRatio = Returned r
  end.
Proof.
  intros Hb Hm Ha Hp Hs p1 p2. split; [exact messages_distinct|].
  pose proof (p1_not_nan bcr Hb) as Hp1. fold p1 in Hp1.
  unfold first_violation, calculateSampleSize. cbv zeta. fold p1 p2.
  rewrite (rejects_outside_unit p1 Hp1),
    (rejects_outside_unit alpha Ha), (rejects_outside_unit power Hp),
    (rejects_outside_unit splitRatio Hs).
  destruct (strictly_inside_unit p1) eqn:E1; [|reflexivity].
  pose proof (p2_not_nan p1 mde E1 Hm) as Hp2. fold p2 in Hp2.
  rewrite (rejects_outside_unit_or_one p2 Hp2).
  destruct (inside_unit_or_one p2); [|reflexivity].
  destruct (strictly_inside_unit alpha); [|reflexivity].
  destruct (strictly_inside_unit power); [|reflexivity].
  destruct (strictly_inside_unit splitRatio); [|reflexivity].
  eexists. reflexivity.
Qed.

End Validation.

(** ** Properties of [normalInverse] *)

Lemma within_relative_nan_r (tol a : float) : within_relative tol a nan = false.
Proof.
  unfold within_relative. rewrite F64.sub_nan_r.
  change (abs nan) with nan at 1. apply F64.leb_nan_l.
Qed.

Section Quantile.

Variable Math_log : float -> float.

(** *** Outside the open unit interval *)

(** What ECMAScript prescribes for [Math.log] below and at zero. *)
Hypothesis log_negative : forall x, (x <? 0) = true -> Math_log x = nan.
Hypothesis log_zero : forall x, (x =? 0) = true -> Math_log x = neg_infinity.

Lemma tail_of_log_nonpositive (x : float) :
  nonpositive (Prim2SF x) ->
  let q := Math_sqrt (-2 * Math_log x) in
  tail_num q / tail_den q = nan /\ - tail_num q / tail_den q = nan.
Proof.
  intros H. cbv zeta.
  destruct (F64.nonpositive_cases x H) as [Hx|Hx].
  - rewrite (log_negative x Hx). split; reflexivity.
  - rewrite (log_zero x Hx). split; reflexivity.
Qed.

(** C10: [normalInverse] is a total function of its argument.  For every
    [p <= 0] it takes the lower-tail branch and for every [p >= 1] the
    upper-tail branch, and in both cases the value it returns is NaN. *)
Theorem normalInverse_outside_unit_interval (p : float) :
  ((p <=? 0) = true ->
     region_of p = Lower /\ normalInverse Math_log p = nan) /\
  ((p >=? 1) = true ->
     region_of p = Upper /\ normalInverse Math_log p = nan).
Proof.
  split; intros H.
  - apply F64.leb_0_nonpositive in H.
    pose proof (F64.nonpositive_ltb_pLow p H) as Hlow.
    unfold region_of, normalInverse. rewrite Hlow. split; [reflexivity|].
    apply (tail_of_log_nonpositive p H).
  - unfold geb in H.
    destruct (F64.one_leb_above_breakpoints p H) as [Hlow Hhigh].
    unfold region_of, normalInverse. rewrite Hlow, Hhigh.
    split; [reflexivity|].
    apply (tail_of_log_nonpositive (1 - p)).
    now apply F64.one_minus_nonpositive.
Qed.

End Quantile.

Section Symmetry.

Variable Math_log : float -> float.

(** *** Symmetry *)

(** Where the reflection loses nothing to rounding the symmetry is exact:
    when [1 - p] falls in the region that mirrors the region of [p] and
    [reflects_exactly p] holds, [normalInverse (1 - p)] is the negation of
    [normalInverse p]. *)
Lemma normalInverse_symmetry_exact (p : float) :
  region_of (1 - p) = mirror (region_of p) ->
  reflects_exactly p = true ->
  normalInverse Math_log (1 - p) = - normalInverse Math_log p.
Proof.
  unfold reflects_exactly, region_of, normalInverse.
  destruct (p <? pLow); [|destruct (p <=? pHigh)]; cbn [mirror];
    (destruct (1 - p <? pLow); [|destruct (1 - p <=? pHigh)]);
    try discriminate; intros _ H; cbv zeta.
  - apply F64.same_value_eq in H. rewrite H. apply F64.div_opp_l.
  - apply F64.same_value_eq in H. rewrite H.
    now rewrite F64.mul_opp_opp, F64.mul_opp_r, F64.div_opp_l.
  - now rewrite F64.div_opp_l, F64.opp_involutive.
Qed.

End Symmetry.
(** *** Symmetry within the tolerance *)

Lemma central_lower_passes : Ranges.central_lower = true.
Proof. vm_compute. reflexivity. Qed.

Lemma central_upper_passes : Ranges.central_upper = true.
Proof. vm_compute. reflexivity. Qed.

Lemma tail_lower_passes : Ranges.tail_lower = true.
Proof. vm_compute. reflexivity. Qed.

Lemma tail_upper_passes : Ranges.tail_upper = true.
Proof. vm_compute. reflexivity. Qed.

(** The number the comparisons find equal to a finite [c] is [c]. *)
Lemma leb_not_ltb_eq (c x : float) (m : positive) (e : Z) :
  Prim2SF c = S754_finite false m e ->
  (c <=? x) = true -> (c <? x) = false -> x = c.
Proof.
  intros E. rewrite leb_spec, ltb_spec, E. unfold SFleb, SFltb.
  intros H1 H2. apply Prim2SF_inj. rewrite E.
  destruct (Prim2SF x) as [s|s| |s mx ex];
    cbn -[Z.compare Pos.compare_cont] in H1, H2; try discriminate;
    try (destruct s; discriminate).
  destruct s; [discriminate|].
  rewrite Reflect.compare_cont_Z in H1, H2.
  destruct (Z.compare_spec e ex) as [He|He|He]; try discriminate.
  destruct (Z.compare_spec (Z.pos m) (Z.pos mx)) as [Hm|Hm|Hm];
    try discriminate.
  injection Hm as ->. now subst ex.
Qed.

Lemma leb_not_nan (x y : float) : (x <=? y) = true -> is_nan x = false.
Proof.
  intros H. destruct (is_nan x) eqn:E; [|reflexivity].
  apply NaN.is_nan_eq in E. subst x. now rewrite F64.leb_nan_l in H.
Qed.

Section Tolerance.

Variable Math_log : float -> float.

Lemma region_central (p : float) :
  region_of p = Central ->
  (p <? pLow) = false /\ (p <=? pHigh) = true /\ (pLow <=? p) = true.
Proof.
  unfold region_of. destruct (p <? pLow) eqn:A; [discriminate|].
  destruct (p <=? pHigh) eqn:B; [|discriminate]. intros _.
  repeat split.
  rewrite (F64.leb_negb_ltb pLow p eq_refl (leb_not_nan p pHigh B)).
  now rewrite A.
Qed.

Lemma normalInverse_central (p : float) :
  region_of p = Central ->
  normalInverse Math_log p = Stability.eval Stability.centralE (p - 0.5).
Proof.
  intros H. destruct (region_central p H) as (A & B & _).
  unfold normalInverse. now rewrite A, B.
Qed.

Lemma normalInverse_lower (p : float) :
  region_of p = Lower ->
  normalInverse Math_log p = Stability.eval Stability.tailE (Math_log p).
Proof.
  unfold region_of, normalInverse. destruct (p <? pLow); [reflexivity|].
  destruct (p <=? pHigh); discriminate.
Qed.

Lemma normalInverse_upper (p : float) :
  region_of p = Upper ->
  normalInverse Math_log p
  = - Stability.eval Stability.tailE (Math_log (1 - p)).
Proof.
  unfold region_of, normalInverse. destruct (p <? pLow); [discriminate|].
  destruct (p <=? pHigh); [discriminate|]. intros _. cbv zeta.
  now rewrite F64.div_opp_l.
Qed.

Lemma central_odd (q : float) :
  Stability.eval Stability.centralE (- q)
  = - Stability.eval Stability.centralE q.
Proof.
  change (Stability.eval Stability.centralE (- q))
    with (central_num (- q * - q) * - q / central_den (- q * - q)).
  now rewrite F64.mul_opp_opp, F64.mul_opp_r, F64.div_opp_l.
Qed.

(** C7, with the three places left out where the code cannot meet it: the
    break-points (where [1 - p] is not in the region that mirrors the
    region of [p]), the numbers strictly between [below_half] and one
    half, and the arguments at which [Math.log] itself does not agree
    with its value at [1 - (1 - p)] within [log_tolerance], which are the
    tiny ones.  Elsewhere [normalInverse p] and [- normalInverse (1 - p)]
    agree within the relative tolerance [1e-9]. *)
Theorem normalInverse_symmetry_within_tolerance (p : float) :
  region_of (1 - p) = mirror (region_of p) ->
  symmetric_at Math_log p = true ->
  within_relative 1e-9
    (normalInverse Math_log p) (- normalInverse Math_log (1 - p)) = true.
Proof.
  unfold symmetric_at. destruct (region_of p) eqn:Rp; cbn [mirror];
    intros Rq Hs.
  - (* lower tail *)
    apply andb_true_iff in Hs. destruct Hs as [Hs Hw].
    apply andb_true_iff in Hs. destruct Hs as [Hl Hl'].
    rewrite (normalInverse_lower p Rp), (normalInverse_upper _ Rq),
      F64.opp_involutive.
    apply (Covered.cover_R _ _ _ _ _ _ _ _ _ _ tail_lower_passes).
    + apply (Offsets.log_range _ Hl).
    + now apply Offsets.log_agreement.
  - (* central region *)
    rewrite (normalInverse_central p Rp), (normalInverse_central _ Rq).
    destruct (region_central p Rp) as (_ & Hhi & Hlo).
    destruct (p <=? below_half) eqn:Hb.
    + rewrite <- central_odd.
      destruct (Offsets.lower_half_offsets p Hlo Hb) as [Hx Hd].
      now apply (Covered.cover_R _ _ _ _ _ _ _ _ _ _ central_lower_passes).
    + cbn [orb] in Hs. destruct (0.5 <? p) eqn:Hh.
      * destruct (Offsets.upper_half_offsets p Hh Hhi) as [H1 Hx].
        rewrite (Reflect.reflect_offset_upper_half p Hh H1), central_odd,
          F64.opp_involutive.
        apply (Covered.cover_R _ _ _ _ _ _ _ _ _ _ central_upper_passes);
          [exact Hx|].
        now apply (Offsets.same_run false Ranges.upper_lo).
      * rewrite (leb_not_ltb_eq 0.5 p _ _ Reflect.Prim2SF_half Hs Hh).
        reflexivity.
  - (* upper tail *)
    rewrite (normalInverse_upper p Rp), (normalInverse_lower _ Rq).
    destruct (Offsets.log_range _ Hs) as [_ Hx].
    apply (Covered.cover_R _ (Stability.Opp Stability.tailE) _ _ _ _ _ _
             (Math_log (1 - p)) (Math_log (1 - p)) tail_upper_passes Hx).
    now apply (Offsets.same_run true Ranges.tail_lo).
Qed.

End Tolerance.

(** ** The properties at concrete inputs

    Scenario A of the specification is [bcr = 5], [mde = 30],
    [alpha = 0.05], [power = 0.8], two-sided, [splitRatio = 0.5]. *)

(** C1 at scenario A. *)
Lemma nEqual_uses_baseline_variance_witness :
  accepted 5 30 0.05 0.8 0.5 = true /\
  (0 <? Math_abs (5 / 100 * (1 + 30 / 100) - 5 / 100)) = true /\
  calculateSampleSize Engine.Math_log Engine.Math_pow 5 30 0.05 0.8 true 0.5
  = Returned (sizes_from_nEqual 0.5 3313.9714451279565).
Proof.
  split; [reflexivity|]. split; [reflexivity|].
  etransitivity.
  - apply (nEqual_uses_baseline_variance
             Engine.Math_log Engine.Math_pow 5 30 0.05 0.8 true 0.5);
      reflexivity.
  - reflexivity.
Defined.

(** At scenario A the pooled-variance variant of the formula would give
    other sizes than the function returns. *)
Lemma baseline_variance_is_not_pooled :
  let zAlpha := normalInverse Engine.Math_log (1 - 0.05 / 2) in
  let zBeta := normalInverse Engine.Math_log 0.8 in
  let p1 := 5 / 100 in
  let p2 := p1 * (1 + 30 / 100) in
  calculateSampleSize Engine.Math_log Engine.Math_pow 5 30 0.05 0.8 true 0.5
  = Returned {| controlSize := 3314; testSize := 3314; totalSize := 6628 |} /\
  sizes_from_nEqual 0.5 (nEqual_pooled zAlpha zBeta p1 p2)
  = {| controlSize := 3781; testSize := 3781; totalSize := 7562 |}.
Proof. split; reflexivity. Qed.

(** C5 at scenario A, two-sided and one-sided. *)
Lemma z_scores_from_normalInverse_witness :
  accepted 5 30 0.05 0.8 0.5 = true /\
  calculateSampleSize Engine.Math_log Engine.Math_pow 5 30 0.05 0.8 true 0.5
  = Returned
      (sizes_from_z Engine.Math_pow (5 / 100) (5 / 100 * (1 + 30 / 100)) 0.5
         1.959963986120195 0.8416212327266186) /\
  calculateSampleSize Engine.Math_log Engine.Math_pow 5 30 0.05 0.8 false 0.5
  = Returned
      (sizes_from_z Engine.Math_pow (5 / 100) (5 / 100 * (1 + 30 / 100)) 0.5
         1.6448536251336989 0.8416212327266186).
Proof.
  split; [reflexivity|].
  destruct (z_scores_from_normalInverse
              Engine.Math_log Engine.Math_pow 5 30 0.05 0.8 0.5 eq_refl)
    as [H2 H1].
  split; (etransitivity; [eassumption|reflexivity]).
Defined.

(** C6 at scenario D of the specification: scenario A with
    [splitRatio = 0.8], so that [k] is 4 up to rounding. *)
Lemma unequal_split_adjustment_witness :
  accepted 5 30 0.05 0.8 0.8 = true /\
  (0 <? Math_abs (5 / 100 * (1 + 30 / 100) - 5 / 100)) = true /\
  calculateSampleSize Engine.Math_log Engine.Math_pow 5 30 0.05 0.8 true 0.8
  = Returned {| controlSize := 2072; testSize := 8289; totalSize := 10361 |}.
Proof.
  split; [reflexivity|]. split; [reflexivity|].
  etransitivity.
  - apply (unequal_split_adjustment
             Engine.Math_log Engine.Math_pow 5 30 0.05 0.8 true 0.8);
      reflexivity.
  - reflexivity.
Defined.

(** C9 at scenario A. *)
Lemma equal_split_same_sizes_witness :
  calculateSampleSize Engine.Math_log Engine.Math_pow 5 30 0.05 0.8 true 0.5
  = Returned {| controlSize := 3314; testSize := 3314; totalSize := 6628 |} /\
  testSize {| controlSize := 3314; testSize := 3314; totalSize := 6628 |}
  = controlSize {| controlSize := 3314; testSize := 3314; totalSize := 6628 |}.
Proof.
  split; [reflexivity|].
  apply (equal_split_same_sizes
           Engine.Math_log Engine.Math_pow 5 30 0.05 0.8 true).
  reflexivity.
Defined.

(** C4: a one-sided test with [alpha = power = 0.5] passes the five checks
    and has a non-zero effect size, yet both z-scores are [normalInverse 0.5],
    which is zero; [nEqual] is zero and so are the three sizes returned. *)
Lemma sizes_zero_when_z_scores_cancel :
  accepted 5 30 0.5 0.5 0.5 = true /\
  (0 <? Math_abs (5 / 100 * (1 + 30 / 100) - 5 / 100)) = true /\
  calculateSampleSize Engine.Math_log Engine.Math_pow 5 30 0.5 0.5 false 0.5
  = Returned {| controlSize := 0; testSize := 0; totalSize := 0 |} /\
  (0 >=? 1) = false.
Proof. repeat split. Qed.

(** C4 as amended, at scenario A. *)
Lemma sizes_consistent_witness :
  accepted 5 30 0.05 0.8 0.5 = true /\
  exists r : SampleSizes,
    calculateSampleSize Engine.Math_log Engine.Math_pow 5 30 0.05 0.8 true 0.5
    = Returned r /\
    totalSize r = controlSize r + testSize r /\
    ((0 <? nEqual_of Engine.Math_log Engine.Math_pow 5 30 0.05 0.8 true
           * (1 + 1 / (0.5 / (1 - 0.5))) / 2) = true ->
     (controlSize r >=? 1) = true) /\
    ((0 <? controlSize r * (0.5 / (1 - 0.5))) = true ->
     (testSize r >=? 1) = true).
Proof.
  split; [reflexivity|].
  apply (sizes_consistent
           Engine.Math_log Engine.Math_pow 5 30 0.05 0.8 true 0.5).
  reflexivity.
Defined.

(** C8: with [alpha = 1.5], a baseline rate of zero is what gets reported,
    and so is the test rate of scenario B ([bcr = 80], [mde = 50]). *)
Lemma alpha_above_one_masked_by_earlier_checks :
  calculateSampleSize Engine.Math_log Engine.Math_pow 0 30 1.5 0.8 true 0.5
  = Thrown BaselineRateOutOfRange /\
  calculateSampleSize Engine.Math_log Engine.Math_pow 80 50 1.5 0.8 true 0.5
  = Thrown TestRateInvalid /\
  BaselineRateOutOfRange <> SignificanceOutOfRange /\
  TestRateInvalid <> SignificanceOutOfRange.
Proof. repeat split; discriminate. Qed.

(** C8 as amended, at scenario A with [alpha = 1.5]. *)
Lemma alpha_above_one_rejected_witness :
  (5 / 100 <=? 0) || (5 / 100 >=? 1) = false /\
  (5 / 100 * (1 + 30 / 100) <=? 0) || (5 / 100 * (1 + 30 / 100) >? 1) = false /\
  calculateSampleSize Engine.Math_log Engine.Math_pow 5 30 1.5 0.8 true 0.5
  = Thrown SignificanceOutOfRange.
Proof.
  split; [reflexivity|]. split; [reflexivity|].
  apply (alpha_above_one_rejected
           Engine.Math_log Engine.Math_pow 5 30 0.8 true 0.5);
    reflexivity.
Defined.

(** C2 at scenario A with [mde = 0]. *)
Lemma zero_effect_returns_non_finite_witness :
  Engine.Math_pow 0 2 = 0 /\
  accepted 5 0 0.05 0.8 0.5 = true /\
  Math_abs (5 / 100 * (1 + 0 / 100) - 5 / 100) = 0 /\
  exists r : SampleSizes,
    calculateSampleSize Engine.Math_log Engine.Math_pow 5 0 0.05 0.8 true 0.5
    = Returned r /\
    is_finite (controlSize r) = false /\
    is_finite (testSize r) = false /\
    is_finite (totalSize r) = false.
Proof.
  split; [reflexivity|]. split; [reflexivity|]. split; [reflexivity|].
  apply (zero_effect_returns_non_finite
           Engine.Math_log Engine.Math_pow 5 0 0.05 0.8 true 0.5);
    reflexivity.
Defined.

(** There the three sizes are plus infinity. *)
Lemma zero_effect_example :
  calculateSampleSize Engine.Math_log Engine.Math_pow 5 0 0.05 0.8 true 0.5
  = Returned {| controlSize := infinity;
                testSize := infinity;
                totalSize := infinity |}.
Proof. reflexivity. Qed.

(** C3 at scenario B of the specification: the baseline rate passes, the
    test rate [0.8 * 1.5] does not. *)
Lemma validation_order_witness :
  first_violation (80 / 100) (80 / 100 * (1 + 50 / 100)) 0.05 0.8 0.5
  = Some TestRateInvalid /\
  calculateSampleSize Engine.Math_log Engine.Math_pow 80 50 0.05 0.8 true 0.5
  = Thrown TestRateInvalid.
Proof.
  split; [reflexivity|].
  exact (proj2 (validation_order Engine.Math_log Engine.Math_pow
                  80 50 0.05 0.8 true 0.5
                  eq_refl eq_refl eq_refl eq_refl eq_refl)).
Defined.

(** C10 at zero and at one and a half. *)
Lemma normalInverse_outside_unit_interval_witness :
  ((0 <=? 0) = true /\ region_of 0 = Lower /\
   normalInverse Engine.Math_log 0 = nan) /\
  ((1.5 >=? 1) = true /\ region_of 1.5 = Upper /\
   normalInverse Engine.Math_log 1.5 = nan).
Proof.
  split; (split; [reflexivity|]).
  - apply (normalInverse_outside_unit_interval
             Engine.Math_log Engine_log_negative Engine_log_zero 0).
    reflexivity.
  - apply (normalInverse_outside_unit_interval
             Engine.Math_log Engine_log_negative Engine_log_zero 1.5).
    reflexivity.
Defined.

(** C7: just below one half the reflection [1 - p] rounds to one half, where
    [normalInverse] is zero, while [normalInverse p] is not; and for [p] as
    small as [1e-20] the reflection rounds to one, where [normalInverse] is
    NaN.  Neither pair agrees within the relative tolerance. *)
Lemma normalInverse_symmetry_fails :
  (strictly_inside_unit 0.49999999999999994 = true /\
   forall Math_log : float -> float,
     within_relative 1e-9
       (normalInverse Math_log 0.49999999999999994)
       (- normalInverse Math_log (1 - 0.49999999999999994)) = false) /\
  (strictly_inside_unit 1e-20 = true /\
   forall Math_log : float -> float,
     Math_log 0 = neg_infinity ->
     within_relative 1e-9
       (normalInverse Math_log 1e-20)
       (- normalInverse Math_log (1 - 1e-20)) = false).
Proof.
  split; (split; [reflexivity|]).
  - intros Math_log. reflexivity.
  - intros Math_log H0.
    replace (- normalInverse Math_log (1 - 1e-20)) with nan.
    + apply within_relative_nan_r.
    + unfold normalInverse.
      replace (1 - 1e-20 <? pLow) with false by reflexivity.
      replace (1 - 1e-20 <=? pHigh) with false by reflexivity.
      cbv zeta. replace (1 - (1 - 1e-20)) with 0 by reflexivity.
      rewrite H0. reflexivity.
Qed.

(** C3 does not extend to NaN: a check is two comparisons and NaN fails
    both.  With a NaN baseline rate and [alpha = 1.5] the first condition
    violated is [0 < p1 < 1], yet the message thrown is that of the
    significance level; with [alpha] NaN and everything else valid the
    condition [0 < alpha < 1] is violated, yet the function returns. *)
Lemma validation_order_fails_on_NaN :
  (first_violation (nan / 100) (nan / 100 * (1 + 30 / 100)) 1.5 0.8 0.5
   = Some BaselineRateOutOfRange /\
   forall (Math_log : float -> float) (Math_pow : float -> float -> float),
     calculateSampleSize Math_log Math_pow nan 30 1.5 0.8 true 0.5
     = Thrown SignificanceOutOfRange) /\
  (first_violation (5 / 100) (5 / 100 * (1 + 30 / 100)) nan 0.8 0.5
   = Some SignificanceOutOfRange /\
   forall (Math_log : float -> float) (Math_pow : float -> float -> float),
   exists r : SampleSizes,
     calculateSampleSize Math_log Math_pow 5 30 nan 0.8 true 0.5
     = Returned r).
Proof.
  split; (split; [reflexivity|]); intros Math_log Math_pow.
  - reflexivity.
  - eexists. reflexivity.
Qed.

(** C7 as amended: at [0.2] in the central region, where the reflection
    [1 - 0.2] is rounded; at [0.01] in the lower tail, where [1 - (1 - p)]
    is not [p]; and at [0.8] and [0.99] above one half. *)
Lemma normalInverse_symmetry_within_tolerance_witness :
  (reflects_exactly 0.2 = false /\
   region_of (1 - 0.2) = mirror (region_of 0.2) /\
   symmetric_at Engine.Math_log 0.2 = true /\
   within_relative 1e-9 (normalInverse Engine.Math_log 0.2)
     (- normalInverse Engine.Math_log (1 - 0.2)) = true) /\
  (reflects_exactly 0.01 = false /\
   region_of (1 - 0.01) = mirror (region_of 0.01) /\
   symmetric_at Engine.Math_log 0.01 = true /\
   within_relative 1e-9 (normalInverse Engine.Math_log 0.01)
     (- normalInverse Engine.Math_log (1 - 0.01)) = true) /\
  (region_of (1 - 0.8) = mirror (region_of 0.8) /\
   symmetric_at Engine.Math_log 0.8 = true /\
   within_relative 1e-9 (normalInverse Engine.Math_log 0.8)
     (- normalInverse Engine.Math_log (1 - 0.8)) = true) /\
  (region_of (1 - 0.99) = mirror (region_of 0.99) /\
   symmetric_at Engine.Math_log 0.99 = true /\
   within_relative 1e-9 (normalInverse Engine.Math_log 0.99)
     (- normalInverse Engine.Math_log (1 - 0.99)) = true).
Proof.
  split; [|split; [|split]].
  - split; [reflexivity|]. split; [reflexivity|]. split; [reflexivity|].
    apply (normalInverse_symmetry_within_tolerance Engine.Math_log 0.2);
      reflexivity.
  - split; [reflexivity|]. split; [reflexivity|]. split; [reflexivity|].
    apply (normalInverse_symmetry_within_tolerance Engine.Math_log 0.01);
      reflexivity.
  - split; [reflexivity|]. split; [reflexivity|].
    apply (normalInverse_symmetry_within_tolerance Engine.Math_log 0.8);
      reflexivity.
  - split; [reflexivity|]. split; [reflexivity|].
    apply (normalInverse_symmetry_within_tolerance Engine.Math_log 0.99);
      reflexivity.
Defined.

(** The places C7 as amended leaves out are places where the symmetry
    fails.  At [0.49999995], between [below_half] and one half, the two
    sides differ by more than the tolerance, whatever [Math.log] is; at the
    upper break-point [1 - p] falls in the lower tail while [p] is in the
    central region, and at [1e-10] the number [1 - (1 - p)] the upper tail
    takes the logarithm of is not [p]: with the example engine both pairs
    disagree. *)
Lemma symmetry_exceptions_are_needed :
  (symmetric_at Engine.Math_log 0.49999995 = false /\
   forall Math_log : float -> float,
     within_relative 1e-9 (normalInverse Math_log 0.49999995)
       (- normalInverse Math_log (1 - 0.49999995)) = false) /\
  (region_of pHigh = Central /\ region_of (1 - pHigh) = Lower /\
   within_relative 1e-9 (normalInverse Engine.Math_log pHigh)
     (- normalInverse Engine.Math_log (1 - pHigh)) = false) /\
  (symmetric_at Engine.Math_log 1e-10 = false /\
   within_relative 1e-9 (normalInverse Engine.Math_log 1e-10)
     (- normalInverse Engine.Math_log (1 - 1e-10)) = false).
Proof.
  split; [|split].
  - split; [reflexivity|]. intros Math_log. reflexivity.
  - repeat split.
  - repeat split.
Qed.

(** ** Further properties of the two functions *)

Section MoreOnTheCore.

Variable Math_log : float -> float.
Variable Math_pow : float -> float -> float.

(** *** Exact antisymmetry above one half *)

(** X1: for every [p] strictly between one half and one, other than the
    upper break-point itself, [normalInverse (1 - p)] is exactly the
    negation of [normalInverse p]: there [1 - p] is computed without
    rounding error and falls in the mirrored region. *)
Theorem normalInverse_antisymmetric_above_half (p : float) :
  (0.5 <? p) = true -> (p <? 1) = true -> (p =? pHigh) = false ->
  normalInverse Math_log (1 - p) = - normalInverse Math_log p.
Proof.
  intros H0 H1 Hne. unfold normalInverse.
  destruct (Reflect.upper_half_regions p H0 H1 Hne)
    as [(A & B & C & D)|(A & B & C)].
  - rewrite A, B, C, D. cbv zeta.
    rewrite (Reflect.reflect_offset_upper_half p H0 H1).
    now rewrite F64.mul_opp_opp, F64.mul_opp_r, F64.div_opp_l.
  - rewrite A, B, C. cbv zeta.
    now rewrite F64.div_opp_l, F64.opp_involutive.
Qed.

(** *** NaN arguments *)

Lemma normalInverse_nan :
  Math_log nan = nan -> normalInverse Math_log nan = nan.
Proof.
  intros H. unfold normalInverse.
  replace (nan <? pLow) with false by reflexivity.
  replace (nan <=? pHigh) with false by reflexivity.
  cbv zeta. replace (1 - nan) with nan by reflexivity.
  rewrite H. reflexivity.
Qed.

(** X2: whenever the function returns although one of its five numbers is
    NaN (a check is two comparisons, and NaN fails both), the three sizes it
    returns are NaN.  ([Math.log] and [Math.pow] give NaN at NaN, as
    ECMAScript prescribes.) *)
Theorem nan_argument_gives_nan_sizes
    (bcr mde alpha power : float) (twoSided : bool) (splitRatio : float)
    (r : SampleSizes) :
  Math_log nan = nan -> Math_pow nan 2 = nan ->
  is_nan bcr || is_nan mde || is_nan alpha || is_nan power
    || is_nan splitRatio = true ->
  calculateSampleSize Math_log Math_pow bcr mde alpha power twoSided splitRatio
  = Returned r ->
  controlSize r = nan /\ testSize r = nan /\ totalSize r = nan.
Proof.
  intros Hlog Hpow Hnan Hret.
  pose proof (calculateSampleSize_returned _ _ _ _ _ _ _ _ _ Hret) as Hacc.
  rewrite (calculateSampleSize_accepted _ _ _ _ _ _ _ _ Hacc) in Hret.
  injection Hret as <-.
  unfold sizes_from_z, sizes_from_nEqual.
  cbn [controlSize testSize totalSize].
  pose proof (normalInverse_nan Hlog) as Hinv.
  rewrite !orb_true_iff in Hnan.
  destruct Hnan as [[[[H|H]|H]|H]|H]; apply NaN.is_nan_eq in H; subst;
    autorewrite with nan_arith;
    rewrite ?Hpow, ?Hinv; autorewrite with nan_arith;
    try (destruct twoSided; rewrite ?Hinv);
    autorewrite with nan_arith; rewrite ?Hpow;
    autorewrite with nan_arith; repeat split; reflexivity.
Qed.

(** *** Sidedness *)

(** X3: a two-sided test at significance [alpha] asks for the sizes of a
    one-sided test at [alpha / 2], whenever both inputs pass the checks. *)
Theorem two_sided_is_one_sided_at_half_alpha
    (bcr mde alpha power splitRatio : float) :
  accepted bcr mde alpha power splitRatio = true ->
  accepted bcr mde (alpha / 2) power splitRatio = true ->
  calculateSampleSize Math_log Math_pow bcr mde alpha power true splitRatio
  = calculateSampleSize Math_log Math_pow bcr mde (alpha / 2) power false
      splitRatio.
Proof.
  intros H1 H2. now rewrite !calculateSampleSize_accepted.
Qed.

(** *** The sizes are ceilings *)

(** X4: the control size and the test size the function returns are never
    fractional: each is its own ceiling. *)
Theorem returned_sizes_are_integral
    (bcr mde alpha power : float) (twoSided : bool) (splitRatio : float)
    (r : SampleSizes) :
  calculateSampleSize Math_log Math_pow bcr mde alpha power twoSided splitRatio
  = Returned r ->
  Math_ceil (controlSize r) = controlSize r /\
  Math_ceil (testSize r) = testSize r.
Proof.
  intros Hret.
  pose proof (calculateSampleSize_returned _ _ _ _ _ _ _ _ _ Hret) as Hacc.
  rewrite (calculateSampleSize_accepted _ _ _ _ _ _ _ _ Hacc) in Hret.
  injection Hret as <-.
  unfold sizes_from_z, sizes_from_nEqual. cbn [controlSize testSize].
  split; apply F64.Math_ceil_idempotent.
Qed.

(** X5: the sizes never fall short of what the formula asks for: the
    control size is at least [nEqual * (1 + 1/k) / 2] and the test size at
    least [controlSize * k], whenever these are numbers. *)
Theorem returned_sizes_cover_the_requirement
    (bcr mde alpha power : float) (twoSided : bool) (splitRatio : float)
    (r : SampleSizes) :
  calculateSampleSize Math_log Math_pow bcr mde alpha power twoSided splitRatio
  = Returned r ->
  let nEqual := nEqual_of Math_log Math_pow bcr mde alpha power twoSided in
  let k := splitRatio / (1 - splitRatio) in
  (is_nan (nEqual * (1 + 1 / k) / 2) = false ->
   (nEqual * (1 + 1 / k) / 2 <=? controlSize r) = true) /\
  (is_nan (controlSize r * k) = false ->
   (controlSize r * k <=? testSize r) = true).
Proof.
  intros Hret.
  pose proof (calculateSampleSize_returned _ _ _ _ _ _ _ _ _ Hret) as Hacc.
  rewrite (calculateSampleSize_accepted _ _ _ _ _ _ _ _ Hacc) in Hret.
  injection Hret as <-. cbv zeta.
  unfold sizes_from_z, sizes_from_nEqual. cbn [controlSize testSize].
  split; apply Ceiling.Math_ceil_ge.
Qed.

End MoreOnTheCore.

(** ** Properties of the page handlers *)

Module PageFacts.

Import UI.
Import Display.

(** *** Class lists *)

Lemma contains_add (t : string) (l : list string) :
  contains t (add t l) = true.
Proof.
  unfold add. destruct (contains t l) eqn:E; [exact E|].
  unfold contains. rewrite existsb_app. cbn.
  now rewrite String.eqb_refl, orb_true_r.
Qed.

Lemma contains_remove (t : string) (l : list string) :
  contains t (remove t l) = false.
Proof.
  unfold contains, remove. induction l as [|x l IH]; [reflexivity|].
  cbn. destruct (String.eqb t x) eqn:E; cbn; [exact IH|].
  now rewrite E, IH.
Qed.

Lemma contains_remove_other (t u : string) (l : list string) :
  String.eqb t u = false -> contains t (remove u l) = contains t l.
Proof.
  intros Htu. unfold contains, remove.
  induction l as [|x l IH]; [reflexivity|].
  cbn. destruct (String.eqb u x) eqn:E; cbn.
  - apply String.eqb_eq in E. subst x. now rewrite Htu, IH.
  - now rewrite IH.
Qed.

Lemma contains_add_other (t u : string) (l : list string) :
  String.eqb t u = false -> contains t (add u l) = contains t l.
Proof.
  intros Htu. unfold add. destruct (contains u l); [reflexivity|].
  unfold contains. rewrite existsb_app. cbn.
  now rewrite Htu, !orb_false_r.
Qed.

Lemma add_when_contained (t : string) (l : list string) :
  contains t l = true -> add t l = l.
Proof. intros H. unfold add. now rewrite H. Qed.

Lemma remove_when_absent (t : string) (l : list string) :
  contains t l = false -> remove t l = l.
Proof.
  unfold contains, remove. induction l as [|x l IH]; [reflexivity|].
  cbn. destruct (String.eqb t x); cbn; [discriminate|].
  intros H. now rewrite IH.
Qed.

Lemma add_add (t : string) (l : list string) : add t (add t l) = add t l.
Proof. apply add_when_contained, contains_add. Qed.

Lemma remove_remove (t : string) (l : list string) :
  remove t (remove t l) = remove t l.
Proof. apply remove_when_absent, contains_remove. Qed.

(** *** Replacing one element of a list *)

Lemma nth_error_set_nth_eq (i : nat) (e x : element) (l : list element) :
  nth_error l i = Some x -> nth_error (set_nth i e l) i = Some e.
Proof.
  revert i. induction l as [|y l IH]; intros [|i]; cbn; try discriminate.
  - reflexivity.
  - apply IH.
Qed.

Lemma nth_error_set_nth_neq (i j : nat) (e : element) (l : list element) :
  i <> j -> nth_error (set_nth i e l) j = nth_error l j.
Proof.
  revert i j. induction l as [|y l IH]; intros [|i] [|j] H; cbn;
    try reflexivity; try congruence.
  apply IH. congruence.
Qed.

Lemma length_set_nth (i : nat) (e : element) (l : list element) :
  length (set_nth i e l) = length l.
Proof.
  revert i. induction l as [|y l IH]; intros [|i]; cbn; try reflexivity.
  now rewrite IH.
Qed.

(** *** Rounding hundredths *)

Lemma round_hundredths_table :
  forallb
    (fun n =>
       same_value (Math_round (of_Z (Z.of_nat n) / 100 * 100))
         (of_Z (Z.of_nat n)))
    (seq 0 101) = true.
Proof. vm_compute. reflexivity. Qed.

(** For [k] from 0 to 100, the product of [k / 100] and [100] rounds back to
    [k], although the product itself need not be [k]. *)
Lemma round_hundredths (k : Z) :
  (0 <= k <= 100)%Z -> Math_round (of_Z k / 100 * 100) = of_Z k.
Proof.
  intros Hk. pose proof round_hundredths_table as H.
  rewrite forallb_forall in H.
  specialize (H (Z.to_nat k)). rewrite Z2Nat.id in H by lia.
  apply F64.same_value_eq, H, in_seq. lia.
Qed.

(** *** The order of the checks, again

    [calculateSampleSize] on numbers: the first violated condition names
    what is thrown. *)
Lemma calculateSampleSize_first_violation
    (Math_log : float -> float) (Math_pow : float -> float -> float)
    (bcr mde alpha power : float) (twoSided : bool) (splitRatio : float) :
  is_nan bcr = false -> is_nan mde = false -> is_nan alpha = false ->
  is_nan power = false -> is_nan splitRatio = false ->
  match
    first_violation (bcr / 100) (bcr / 100 * (1 + mde / 100))
      alpha power splitRatio
  with
  | Some message =>
      calculateSampleSize Math_log Math_pow bcr mde alpha power twoSided
        splitRatio = Thrown message
  | None =>
      exists r : SampleSizes,
        calculateSampleSize Math_log Math_pow bcr mde alpha power twoSided
          splitRatio = Returned r
  end.
Proof.
  intros Hb Hm Ha Hp Hs.
  pose proof (p1_not_nan bcr Hb) as Hp1.
  unfold first_violation, calculateSampleSize. cbv zeta.
  rewrite (rejects_outside_unit _ Hp1),
    (rejects_outside_unit alpha Ha), (rejects_outside_unit power Hp),
    (rejects_outside_unit splitRatio Hs).
  destruct (strictly_inside_unit (bcr / 100)) eqn:E1; [|reflexivity].
  rewrite (rejects_outside_unit_or_one _ (p2_not_nan _ mde E1 Hm)).
  destruct (inside_unit_or_one _); [|reflexivity].
  destruct (strictly_inside_unit alpha); [|reflexivity].
  destruct (strictly_inside_unit power); [|reflexivity].
  destruct (strictly_inside_unit splitRatio); [|reflexivity].
  eexists. reflexivity.
Qed.

Section Handlers.

Variable P : platform.

(** *** [updateResults] *)

Lemma screen_is_some_field_is_NaN (values : FormValues) :
  existsb (fun v => isNaN v && negb (is_boolean v)) (Object_values values)
  = some_field_is_NaN values.
Proof.
  unfold Object_values, some_field_is_NaN. cbn.
  rewrite !andb_true_r, !orb_false_r. now rewrite !orb_assoc.
Qed.

Lemma shows_error_after_throw (message : string) (pg : page) :
  results_or_error P pg = Thrown message ->
  shows_error message (updateResults P pg).
Proof.
  intros H. unfold updateResults. rewrite H. unfold shows_error.
  cbn [set_results set_errorMessage errorMessage_textContent
         errorMessage_classList totalSampleSize_textContent
         controlSize_textContent testSize_textContent].
  repeat split. apply contains_add.
Qed.

Lemma shows_results_after_return (r : SampleSizes) (pg : page) :
  results_or_error P pg = Returned r ->
  shows_results P r (updateResults P pg).
Proof.
  intros H. unfold updateResults. rewrite H. unfold shows_results.
  cbn [set_results set_errorMessage errorMessage_textContent
         errorMessage_classList totalSampleSize_textContent
         controlSize_textContent testSize_textContent].
  repeat split. apply contains_remove.
Qed.

(** X6: what [updateResults] leaves on the page, for every content of the
    form.  If one of the five fields does not read as a number, the request
    to fill in all fields; otherwise, if one of the conditions of
    [calculateSampleSize] is violated, the message of the first such
    condition; in both cases with dashes for the three sizes.  Otherwise the
    three sizes, formatted, and no error. *)
Theorem updateResults_shows_the_outcome (pg : page) :
  let values := getFormValues P pg in
  let p1 := bcr values / 100 in
  let p2 := p1 * (1 + mde values / 100) in
  if some_field_is_NaN values then
    shows_error "Please fill in all fields with valid numbers"
      (updateResults P pg)
  else
    match
      first_violation p1 p2 (alpha values) (power values) (splitRatio values)
    with
    | Some message => shows_error message (updateResults P pg)
    | None =>
        exists r : SampleSizes,
          calculateSampleSize (Math_log P) (Math_pow P)
            (bcr values) (mde values) (alpha values) (power values)
            (twoSided values) (splitRatio values) = Returned r /\
          shows_results P r (updateResults P pg)
    end.
Proof.
  cbv zeta. set (values := getFormValues P pg).
  assert (Hroe : results_or_error P pg
                 = throw_if (some_field_is_NaN values)
                     "Please fill in all fields with valid numbers"
                     (calculateSampleSize (Math_log P) (Math_pow P)
                        (bcr values) (mde values) (alpha values)
                        (power values) (twoSided values)
                        (splitRatio values))).
  { unfold results_or_error. cbv zeta. fold values.
    now rewrite screen_is_some_field_is_NaN. }
  destruct (some_field_is_NaN values) eqn:Enan.
  - apply shows_error_after_throw. now rewrite Hroe.
  - cbn [throw_if] in Hroe. unfold some_field_is_NaN in Enan.
    rewrite !orb_false_iff in Enan.
    destruct Enan as ((((Hb & Hm) & Ha) & Hp) & Hs).
    pose proof (calculateSampleSize_first_violation
                  (Math_log P) (Math_pow P) _ _ _ _ (twoSided values) _
                  Hb Hm Ha Hp Hs) as H.
    destruct (first_violation _ _ _ _ _) as [message|].
    + apply shows_error_after_throw. now rewrite Hroe.
    + destruct H as [r Hr]. exists r. split; [exact Hr|].
      apply shows_results_after_return. now rewrite Hroe.
Qed.

(** The calculation reads the six inputs only. *)
Lemma results_or_error_set_results (total control test : string) (pg : page) :
  results_or_error P (set_results total control test pg)
  = results_or_error P pg.
Proof. reflexivity. Qed.

Lemma results_or_error_set_errorMessage
    (text : string) (classes : list string) (pg : page) :
  results_or_error P (set_errorMessage text classes pg)
  = results_or_error P pg.
Proof. reflexivity. Qed.

Lemma results_or_error_updateResults (pg : page) :
  results_or_error P (updateResults P pg) = results_or_error P pg.
Proof.
  unfold updateResults. destruct (results_or_error P pg) eqn:E;
    now rewrite ?results_or_error_set_results,
      ?results_or_error_set_errorMessage.
Qed.

(** Running [updateResults] on the page it has just written: the inputs
    are the same, and so is what gets written. *)
Ltac same_writes_again :=
  unfold updateResults at 1; rewrite results_or_error_updateResults;
  unfold updateResults;
  destruct (results_or_error P _) as [r|message];
  unfold set_errorMessage, set_results;
  cbn [bcr_value mde_value alpha_value power_value testType_value
       splitRatio_value errorMessage_textContent errorMessage_classList
       totalSampleSize_textContent controlSize_textContent
       testSize_textContent splitRatioValue_textContent elements];
  [now rewrite remove_remove|now rewrite add_add].

(** X7: [updateResults] is idempotent: run again on the page it has just
    written, it writes the same page. *)
Theorem updateResults_idempotent (pg : page) :
  updateResults P (updateResults P pg) = updateResults P pg.
Proof.
  same_writes_again.
Qed.

(** *** The session *)

Lemma in_sync_updateResults (pg : page) :
  splitRatioValue_textContent pg
  = ToString P (Math_round (ToNumber P (splitRatio_value pg) * 100)) ++ "%" ->
  in_sync P (updateResults P pg).
Proof.
  intros H. split; [same_writes_again|].
  unfold updateResults. destruct (results_or_error P pg); exact H.
Qed.

Lemma in_sync_dispatch (ev : event) (pg : page) :
  in_sync P pg -> in_sync P (dispatch P ev pg).
Proof.
  intros [Hfix Hlabel]. destruct ev as [id entered|target]; cbn [dispatch].
  - apply in_sync_updateResults. destruct id; try exact Hlabel. reflexivity.
  - unfold handleToggleClick.
    destruct (nth_error (elements pg) target) as [clicked|];
      [|now split].
    destruct (contains "toggle-btn" (classList clicked)); [|now split].
    apply in_sync_updateResults. exact Hlabel.
Qed.

(** X8: after the document has loaded, and after every [input] event and
    click that follows, the page is in step with its inputs: what is
    displayed is what [updateResults] gives for the current content of the
    form, and the label of the slider is the one for its current value. *)
Theorem session_in_sync (events : list event) (pg : page) :
  in_sync P (session P events pg).
Proof.
  unfold session.
  assert (H0 : in_sync P (DOMContentLoaded P pg)).
  { apply in_sync_updateResults. reflexivity. }
  revert H0. generalize (DOMContentLoaded P pg).
  induction events as [|ev events IH]; intros pg0 H0; cbn [fold_left].
  - exact H0.
  - apply IH, in_sync_dispatch, H0.
Qed.

(** *** The toggle buttons *)

Lemma elements_updateResults (pg : page) :
  elements (updateResults P pg) = elements pg.
Proof. unfold updateResults. now destruct (results_or_error P pg). Qed.

Lemma testType_updateResults (pg : page) :
  testType_value (updateResults P pg) = testType_value pg.
Proof. unfold updateResults. now destruct (results_or_error P pg). Qed.

(** X9: a click on an element that carries the class [toggle-btn] leaves
    that element as the one active toggle button: afterwards a toggle button
    is active exactly if it is the one clicked; the hidden input holds the
    clicked button's [data-value]; the elements that are no toggle buttons
    are as they were.  A click on an element without the class, such as a
    label inside a button, changes nothing. *)
Theorem handleToggleClick_selects_what_was_clicked
    (target : nat) (clicked : element) (pg : page) :
  nth_error (elements pg) target = Some clicked ->
  let after := handleToggleClick P target pg in
  if contains "toggle-btn" (classList clicked) then
    testType_value after = DOMString (dataset_value clicked) /\
    length (elements after) = length (elements pg) /\
    (forall (i : nat) (el : element),
       nth_error (elements after) i = Some el ->
       contains "toggle-btn" (classList el) = true ->
       (contains "active" (classList el) = true <-> i = target)) /\
    (forall (i : nat) (el : element),
       nth_error (elements pg) i = Some el ->
       contains "toggle-btn" (classList el) = false ->
       nth_error (elements after) i = Some el)
  else after = pg.
Proof.
  intros Hnth. cbv zeta. unfold handleToggleClick. rewrite Hnth.
  destruct (contains "toggle-btn" (classList clicked)) eqn:Etoggle;
    [|reflexivity].
  rewrite elements_updateResults, testType_updateResults.
  cbn [set_toggle elements testType_value].
  set (unmark := fun btn : element =>
                   if contains "toggle-btn" (classList btn)
                   then {| classList := remove "active" (classList btn);
                           dataset_value := dataset_value btn |}
                   else btn).
  split; [reflexivity|]. split; [now rewrite length_set_nth, length_map|].
  split.
  - intros i el Hel Htog. destruct (Nat.eq_dec target i) as [<-|Hne].
    + rewrite (nth_error_set_nth_eq target _ (unmark clicked)) in Hel
        by (now rewrite nth_error_map, Hnth).
      injection Hel as <-. cbn [classList].
      split; [reflexivity|]. intros _. apply contains_add.
    + rewrite nth_error_set_nth_neq, nth_error_map in Hel by exact Hne.
      destruct (nth_error (elements pg) i) as [x|]; [|discriminate].
      injection Hel as <-. unfold unmark in *.
      destruct (contains "toggle-btn" (classList x)) eqn:Ex.
      * cbn [classList]. rewrite contains_remove.
        split; [discriminate|]. intros ->. now elim Hne.
      * congruence.
  - intros i el Hel Htog. destruct (Nat.eq_dec target i) as [<-|Hne].
    + congruence.
    + rewrite nth_error_set_nth_neq, nth_error_map, Hel by exact Hne.
      cbn [option_map]. unfold unmark. now rewrite Htog.
Qed.

(** *** The slider *)

(** X10: when the slider stands on a hundredth, [k / 100] with [k] from 0
    to 100, its label shows [k] followed by the percent sign. *)
Theorem updateSliderValue_shows_the_hundredth (k : Z) (pg : page) :
  (0 <= k <= 100)%Z ->
  ToNumber P (splitRatio_value pg) = of_Z k / 100 ->
  splitRatioValue_textContent (updateSliderValue P pg)
  = ToString P (of_Z k) ++ "%".
Proof.
  intros Hk Hv. unfold updateSliderValue. cbv zeta.
  cbn [set_splitRatioValue splitRatioValue_textContent].
  now rewrite Hv, round_hundredths.
Qed.

End Handlers.

End PageFacts.

(** ** The further properties at concrete inputs *)

(** X1 at [p = 0.8], central, and at [p = 0.99], in the upper tail. *)
Lemma normalInverse_antisymmetric_above_half_witness :
  ((0.5 <? 0.8) = true /\ (0.8 <? 1) = true /\ (0.8 =? pHigh) = false /\
   normalInverse Engine.Math_log (1 - 0.8)
   = - normalInverse Engine.Math_log 0.8) /\
  ((0.5 <? 0.99) = true /\ (0.99 <? 1) = true /\ (0.99 =? pHigh) = false /\
   normalInverse Engine.Math_log (1 - 0.99)
   = - normalInverse Engine.Math_log 0.99).
Proof.
  split; repeat (split; [reflexivity|]).
  - apply (normalInverse_antisymmetric_above_half Engine.Math_log 0.8);
      reflexivity.
  - apply (normalInverse_antisymmetric_above_half Engine.Math_log 0.99);
      reflexivity.
Defined.

(** X2 at scenario A with [alpha] replaced by NaN. *)
Lemma nan_argument_gives_nan_sizes_witness :
  Engine.Math_log nan = nan /\ Engine.Math_pow nan 2 = nan /\
  calculateSampleSize Engine.Math_log Engine.Math_pow 5 30 nan 0.8 true 0.5
  = Returned {| controlSize := nan; testSize := nan; totalSize := nan |} /\
  controlSize {| controlSize := nan; testSize := nan; totalSize := nan |}
  = nan.
Proof.
  split; [reflexivity|]. split; [reflexivity|]. split; [reflexivity|].
  apply (nan_argument_gives_nan_sizes Engine.Math_log Engine.Math_pow
           5 30 nan 0.8 true 0.5); reflexivity.
Defined.

(** X3 at scenario A: two-sided at 0.05, one-sided at 0.025. *)
Lemma two_sided_is_one_sided_at_half_alpha_witness :
  accepted 5 30 0.05 0.8 0.5 = true /\
  accepted 5 30 (0.05 / 2) 0.8 0.5 = true /\
  calculateSampleSize Engine.Math_log Engine.Math_pow 5 30 0.05 0.8 true 0.5
  = calculateSampleSize Engine.Math_log Engine.Math_pow 5 30 (0.05 / 2) 0.8
      false 0.5.
Proof.
  split; [reflexivity|]. split; [reflexivity|].
  apply (two_sided_is_one_sided_at_half_alpha
           Engine.Math_log Engine.Math_pow 5 30 0.05 0.8 0.5); reflexivity.
Defined.

(** X4 at scenario D. *)
Lemma returned_sizes_are_integral_witness :
  calculateSampleSize Engine.Math_log Engine.Math_pow 5 30 0.05 0.8 true 0.8
  = Returned {| controlSize := 2072; testSize := 8289; totalSize := 10361 |} /\
  Math_ceil 2072 = 2072 /\ Math_ceil 8289 = 8289.
Proof.
  split; [reflexivity|].
  apply (returned_sizes_are_integral Engine.Math_log Engine.Math_pow
           5 30 0.05 0.8 true 0.8
           {| controlSize := 2072; testSize := 8289; totalSize := 10361 |}).
  reflexivity.
Defined.

(** X5 at scenario D: 2072 covers 2071.23..., and 8289 covers the product
    of 2072 and a [k] that is a little more than 4. *)
Lemma returned_sizes_cover_the_requirement_witness :
  calculateSampleSize Engine.Math_log Engine.Math_pow 5 30 0.05 0.8 true 0.8
  = Returned {| controlSize := 2072; testSize := 8289; totalSize := 10361 |} /\
  (nEqual_of Engine.Math_log Engine.Math_pow 5 30 0.05 0.8 true
     * (1 + 1 / (0.8 / (1 - 0.8))) / 2 <=? 2072) = true /\
  (2072 * (0.8 / (1 - 0.8)) <=? 8289) = true.
Proof.
  split; [reflexivity|].
  pose proof (returned_sizes_cover_the_requirement
                Engine.Math_log Engine.Math_pow 5 30 0.05 0.8 true 0.8
                {| controlSize := 2072; testSize := 8289;
                   totalSize := 10361 |} eq_refl) as [H1 H2].
  split; [apply H1|apply H2]; reflexivity.
Defined.

(** X9 on the sample page: a click on the one-sided button. *)
Lemma handleToggleClick_selects_what_was_clicked_witness :
  nth_error (UI.elements Browser.initial_page) 1
  = Some {| UI.classList := ["toggle-btn"];
            UI.dataset_value := Some "false" |} /\
  UI.testType_value (UI.handleToggleClick Browser.platform 1
                       Browser.initial_page) = "false" /\
  map UI.classList
    (UI.elements (UI.handleToggleClick Browser.platform 1
                    Browser.initial_page))
  = [["toggle-btn"]; ["toggle-btn"; "active"]; ["label"]].
Proof.
  split; [reflexivity|].
  pose proof (PageFacts.handleToggleClick_selects_what_was_clicked
                Browser.platform 1 _ Browser.initial_page eq_refl) as H.
  split; [exact (proj1 H)|reflexivity].
Defined.

(** X10 on the sample page with the slider at 0.29, where the product
    with 100 is 28.999999999999996. *)
Lemma updateSliderValue_shows_the_hundredth_witness :
  (0 <= 29 <= 100)%Z /\
  Browser.ToNumber "0.29" = of_Z 29 / 100 /\
  Browser.ToNumber "0.29" * 100 = 28.999999999999996 /\
  UI.splitRatioValue_textContent
    (UI.updateSliderValue Browser.platform
       (UI.set_value UI.id_splitRatio "0.29" Browser.initial_page))
  = "29%".
Proof.
  split; [lia|]. split; [reflexivity|]. split; [reflexivity|].
  etransitivity.
  - apply (PageFacts.updateSliderValue_shows_the_hundredth
             Browser.platform 29); [lia|reflexivity].
  - reflexivity.
Defined.

(** A session on the sample page: the one-sided button is clicked, the
    slider is moved to 0.29, and at the end the significance level is
    overwritten with 1.5. *)
Lemma session_example :
  let final :=
    UI.session Browser.platform
      [UI.Click 1; UI.Input UI.id_splitRatio "0.29";
       UI.Input UI.id_alpha "1.5"]
      Browser.initial_page in
  UI.testType_value final = "false" /\
  UI.splitRatioValue_textContent final = "29%" /\
  UI.errorMessage_textContent final = SignificanceOutOfRange /\
  UI.errorMessage_classList final = ["error-message"; "show"] /\
  UI.totalSampleSize_textContent final = "-".
Proof. vm_compute. repeat split. Qed.
